(** * Process scheduler simulation: Round Robin and Preemptive Priority

    A shallow embedding of [main.cpp]: the two scheduling engines
    [round_robin] and [preemptive_priority], the metrics computed by
    [print_metrics] and the sample data set of [load_sample].

    Conventions of the embedding.
    - A C++ [int] is a [Z].  Each engine is given twice.  [round_robin] and
      [preemptive_priority] compute on the integers, as the algorithm is
      meant.  [I32.round_robin] and [I32.preemptive_priority] compute as the
      program does, on 32-bit [int]s whose sums and differences wrap round;
      so do the metrics of [I32.print_metrics].  On a process list whose
      latest arrival and bursts together do not exceed the largest [int]
      ([fits_int]) no clock overflows and the two are the same function
      ([rr_transfer], [pps_transfer]); what is proved of all valid process
      lists is proved of the engines over [int].
    - A [double] is a binary64 float ([PrimFloat.float]).
    - [vector<Process>] is a [list Process] read with [!!] and updated with
      [<[i:=p]>]; an access outside the vector is reported as [OutOfBounds].
    - [queue<int>] is the list of queued indices, front first.
    - The [while (completed < n)] loops are iterated with fuel; running out
      of fuel is reported as [OutOfFuel].
    - The printing code has no influence on the computed values and is left
      out; each engine returns the timeline and the final process table. *)

From stdpp Require Import list sorting.
From Stdlib Require Import ZArith Lia.
From Stdlib Require Import Floats.PrimFloat Numbers.Cyclic.Int63.Uint63.
From Stdlib Require Import Floats.FloatAxioms Floats.SpecFloat Floats.FloatOps.

Local Open Scope Z_scope.

(** ** Data model *)

Record Process := mkProcess {
  pid : Z;
  arrival : Z;
  burst : Z;
  priority : Z;
  remaining : Z;
  start_time : Z;
  completion_time : Z;
  waiting_time : Z;
  turnaround_time : Z
}.

(** The constructor [Process(id, a, b, p)]. *)
Definition new_Process (id a b p : Z) : Process :=
  mkProcess id a b p b (-1) 0 0 0.

Definition set_remaining (r : Z) (p : Process) : Process :=
  mkProcess (pid p) (arrival p) (burst p) (priority p) r
            (start_time p) (completion_time p) (waiting_time p) (turnaround_time p).

Definition set_start_time (t : Z) (p : Process) : Process :=
  mkProcess (pid p) (arrival p) (burst p) (priority p) (remaining p)
            t (completion_time p) (waiting_time p) (turnaround_time p).

(** [if (p.start_time == -1) p.start_time = time;] *)
Definition mark_start (t : Z) (p : Process) : Process :=
  if start_time p =? -1 then set_start_time t p else p.

(** The [else] branch that ends both loop bodies:
    completion, then turnaround from it, then waiting from turnaround. *)
Definition finalize (t : Z) (p : Process) : Process :=
  let c := t in
  let tat := c - arrival p in
  let wt := tat - burst p in
  mkProcess (pid p) (arrival p) (burst p) (priority p) (remaining p)
            (start_time p) c wt tat.

Record GanttEntry := mkGantt {
  g_pid : Z;
  g_start : Z;
  g_end : Z
}.

(** The identity that marks an idle interval. *)
Definition idle_pid : Z := -1.

Definition idle_entry (s e : Z) : GanttEntry := mkGantt idle_pid s e.

Inductive outcome (A : Type) : Type :=
| Finished (a : A)
| OutOfFuel
| OutOfBounds.
Arguments Finished {A} a.
Arguments OutOfFuel {A}.
Arguments OutOfBounds {A}.

(** One turn of a [while] loop: go round again, leave the loop, or fault. *)
Inductive iter (S : Type) : Type :=
| Next (s : S)
| Stop (s : S)
| Fault.
Arguments Next {S} s.
Arguments Stop {S} s.
Arguments Fault {S}.

Fixpoint loop {S : Type} (body : S → iter S) (fuel : nat) (s : S) : outcome S :=
  match fuel with
  | O => OutOfFuel
  | Datatypes.S fuel' =>
      match body s with
      | Next s' => loop body fuel' s'
      | Stop s' => Finished s'
      | Fault => OutOfBounds
      end
  end.

(** ** [std::sort]

    The comparators of the source are strict weak orders; on process sets
    with pairwise distinct identities they are strict total orders, so every
    sorting algorithm returns the same vector ([RR_sort_adequate],
    [PPS_sort_adequate]).  The embedding sorts by insertion; processes that
    the comparator does not tell apart keep their order. *)

Section Sort.
Context {A : Type} (less : A → A → bool).

Fixpoint insert_sorted (x : A) (l : list A) : list A :=
  match l with
  | [] => [x]
  | y :: l' => if less y x then y :: insert_sorted x l' else x :: l
  end.

Definition sort_by (l : list A) : list A := foldr insert_sorted [] l.
End Sort.

(** ** Admission of arrived processes

    [while (idx < n && test(procs[idx])) { q.push(idx); idx++; }]
    run on the part of the vector from [idx] on. *)

Fixpoint push_arrivals (test : Process → bool) (rest : list Process)
         (idx : nat) (q : list nat) : nat * list nat :=
  match rest with
  | p :: rest' =>
      if test p then push_arrivals test rest' (S idx) (q ++ [idx]) else (idx, q)
  | [] => (idx, q)
  end.

(** [while (idx < n && test(procs[idx])) idx++;] *)
Fixpoint skip_while (test : Process → bool) (rest : list Process) (idx : nat) : nat :=
  match rest with
  | p :: rest' => if test p then skip_while test rest' (S idx) else idx
  | [] => idx
  end.

(** ** Round Robin

    The state of the loop, [init], and the loop body computed on the
    integers; the body on [int]s is [I32.rr_body]. *)

Module RR.

(** The comparator of the [sort] call: arrival, then pid. *)
Definition less (a b : Process) : bool :=
  if negb (arrival a =? arrival b) then arrival a <? arrival b
  else pid a <? pid b.

(** The local variables of [round_robin].  The source also keeps a
    [vector<bool> in_queue], written at every push and pop and never read;
    it is not part of the state. *)
Record state := mkState {
  procs : list Process;
  q : list nat;
  time : Z;
  completed : nat;
  gantt : list GanttEntry;
  idx_next_arrival : nat
}.

(** Lines 69-97: sort, initial arrivals and the leading idle interval. *)
Definition init (input : list Process) : outcome state :=
  let procs := sort_by less input in
  let n := length procs in
  let q0 := snd (push_arrivals (λ p, arrival p =? 0) procs 0%nat []) in
  let idx0 := skip_while (λ p, arrival p =? 0) procs 0%nat in
  match q0 with
  | [] =>
      if (idx0 <? n)%nat then
        match procs !! idx0 with
        | Some pn =>
            let next_t := arrival pn in
            let '(idx1, q1) :=
              push_arrivals (λ p, arrival p =? next_t) (drop idx0 procs) idx0 q0 in
            Finished (mkState procs q1 next_t 0 [idle_entry 0 next_t] idx1)
        | None => OutOfBounds
        end
      else Finished (mkState procs q0 0 0 [] idx0)
  | _ :: _ => Finished (mkState procs q0 0 0 [] idx0)
  end.

(** Lines 99-135: one turn of [while (completed < n)]. *)
Definition body (quantum : Z) (s : state) : iter state :=
  let n := length (procs s) in
  if negb (completed s <? n)%nat then Stop s else
  match q s with
  | [] =>
      if (idx_next_arrival s <? n)%nat then
        match procs s !! idx_next_arrival s with
        | Some pn =>
            let next_t := arrival pn in
            let '(gantt1, time1) :=
              if time s <? next_t
              then (gantt s ++ [idle_entry (time s) next_t], next_t)
              else (gantt s, time s) in
            let '(idx1, q1) :=
              push_arrivals (λ p, arrival p =? time1)
                    (drop (idx_next_arrival s) (procs s))
                    (idx_next_arrival s) (q s) in
            Next (mkState (procs s) q1 time1 (completed s) gantt1 idx1)
        | None => Fault
        end
      else Stop s
  | i :: q' =>
      match procs s !! i with
      | Some p =>
          let p1 := mark_start (time s) p in
          let exec := Z.min quantum (remaining p1) in
          let gantt1 := gantt s ++ [mkGantt (pid p1) (time s) (time s + exec)] in
          let p2 := set_remaining (remaining p1 - exec) p1 in
          let procs1 := <[i := p2]> (procs s) in
          let time1 := time s + exec in
          let '(idx1, q1) :=
            push_arrivals (λ x, arrival x <=? time1)
                  (drop (idx_next_arrival s) procs1)
                  (idx_next_arrival s) q' in
          if 0 <? remaining p2
          then Next (mkState procs1 (q1 ++ [i]) time1 (completed s) gantt1 idx1)
          else Next (mkState (<[i := finalize time1 p2]> procs1) q1 time1
                             (S (completed s)) gantt1 idx1)
      | None => Fault
      end
  end.

Definition run_from (fuel : nat) (quantum : Z) (s : state) : outcome state :=
  loop (body quantum) fuel s.

End RR.

(** [round_robin(procs, quantum)]: the timeline and the final process table. *)
Definition round_robin (fuel : nat) (input : list Process) (quantum : Z)
  : outcome (list GanttEntry * list Process) :=
  match RR.init input with
  | Finished s0 =>
      match RR.run_from fuel quantum s0 with
      | Finished s => Finished (RR.gantt s, RR.procs s)
      | OutOfFuel => OutOfFuel
      | OutOfBounds => OutOfBounds
      end
  | OutOfFuel => OutOfFuel
  | OutOfBounds => OutOfBounds
  end.

(** [load_sample()] *)
Definition load_sample : list Process :=
  [ new_Process 1 0 5 2; new_Process 2 1 3 1; new_Process 3 2 8 4; new_Process 4 3 6 3 ].

(** ** Preemptive Priority Scheduling

    The state of the loop, [init], and the loop body computed on the
    integers; the body on [int]s is [I32.pps_body]. *)

(** [std::priority_queue<int, vector<int>, decltype(cmp)>] holds a multiset
    of indices; [top] is an element [m] with [cmp m x = false] for every
    queued [x].  The embedding keeps the queued indices in a list, and among
    several such [m] takes the one nearest the front; with pairwise distinct
    identities [cmp] is a strict total order on the queued indices and the
    top is unique ([pq_top_is_top], [is_top_unique]). *)

Fixpoint pq_top (cmp : nat → nat → bool) (pq : list nat) : option nat :=
  match pq with
  | [] => None
  | a :: rest =>
      match pq_top cmp rest with
      | None => Some a
      | Some b => if cmp a b then Some b else Some a
      end
  end.

Fixpoint pq_remove (x : nat) (pq : list nat) : list nat :=
  match pq with
  | [] => []
  | a :: rest => if (a =? x)%nat then rest else a :: pq_remove x rest
  end.

Module PPS.

(** The comparator of the [sort] call: arrival, then priority, then pid. *)
Definition less (a b : Process) : bool :=
  if negb (arrival a =? arrival b) then arrival a <? arrival b
  else if negb (priority a =? priority b) then priority a <? priority b
  else pid a <? pid b.

(** The lambda [cmp] of lines 165-169, over indices into [procs]. *)
Definition cmp (procs : list Process) (a b : nat) : bool :=
  match procs !! a, procs !! b with
  | Some pa, Some pb =>
      if negb (priority pa =? priority pb) then priority pa >? priority pb
      else if negb (arrival pa =? arrival pb) then arrival pa >? arrival pb
      else pid pa >? pid pb
  | _, _ => false
  end.

Record state := mkState {
  procs : list Process;
  pq : list nat;
  time : Z;
  completed : nat;
  gantt : list GanttEntry;
  idx : nat
}.

(** Lines 154-177: sort and the leading idle interval. *)
Definition init (input : list Process) : state :=
  let procs := sort_by less input in
  match procs !! 0%nat with
  | Some p0 =>
      if arrival p0 >? 0
      then mkState procs [] (arrival p0) 0 [idle_entry 0 (arrival p0)] 0
      else mkState procs [] 0 0 [] 0
  | None => mkState procs [] 0 0 [] 0
  end.

(** Lines 179-218: one turn of [while (completed < n)]. *)
Definition body (s : state) : iter state :=
  let n := length (procs s) in
  if negb (completed s <? n)%nat then Stop s else
  let '(idx1, pq1) :=
    push_arrivals (λ p, arrival p <=? time s) (drop (idx s) (procs s)) (idx s) (pq s) in
  match pq_top (cmp (procs s)) pq1 with
  | None =>
      if (idx1 <? n)%nat then
        match procs s !! idx1 with
        | Some pn =>
            let next_t := arrival pn in
            if time s <? next_t
            then Next (mkState (procs s) pq1 next_t (completed s)
                               (gantt s ++ [idle_entry (time s) next_t]) idx1)
            else Next (mkState (procs s) pq1 (time s) (completed s) (gantt s) idx1)
        | None => Fault
        end
      else Stop (mkState (procs s) pq1 (time s) (completed s) (gantt s) idx1)
  | Some cur =>
      let pq2 := pq_remove cur pq1 in
      match procs s !! cur with
      | Some p =>
          let p1 := mark_start (time s) p in
          let run_for := 1 in
          let gantt1 := gantt s ++ [mkGantt (pid p1) (time s) (time s + run_for)] in
          let p2 := set_remaining (remaining p1 - run_for) p1 in
          let procs1 := <[cur := p2]> (procs s) in
          let time1 := time s + run_for in
          let '(idx2, pq3) :=
            push_arrivals (λ x, arrival x <=? time1) (drop idx1 procs1) idx1 pq2 in
          if 0 <? remaining p2
          then Next (mkState procs1 (pq3 ++ [cur]) time1 (completed s) gantt1 idx2)
          else Next (mkState (<[cur := finalize time1 p2]> procs1) pq3 time1
                             (S (completed s)) gantt1 idx2)
      | None => Fault
      end
  end.

Definition run_from (fuel : nat) (s : state) : outcome state :=
  loop body fuel s.

End PPS.

(** [preemptive_priority(procs)]: the timeline and the final process table. *)
Definition preemptive_priority (fuel : nat) (input : list Process)
  : outcome (list GanttEntry * list Process) :=
  match PPS.run_from fuel (PPS.init input) with
  | Finished s => Finished (PPS.gantt s, PPS.procs s)
  | OutOfFuel => OutOfFuel
  | OutOfBounds => OutOfBounds
  end.

(** ** Metrics *)

(** Conversion of an [int] to [double].  The argument is an [int]: on the
    range of [int] the conversion is exact, and nothing outside that range
    is converted in what follows. *)
Definition double_of_int (z : Z) : float :=
  if z <? 0 then PrimFloat.opp (PrimFloat.of_uint63 (Uint63.of_Z (- z)))
  else PrimFloat.of_uint63 (Uint63.of_Z z).

(** The busy time of a timeline as an exact sum: what
    [int cpu_busy = 0; for (auto &g : gantt) if (g.pid != -1) cpu_busy += g.end - g.start;]
    adds up, without the wrap-around of the accumulator ([I32.cpu_busy] has
    it). *)
Definition cpu_busy (gantt : list GanttEntry) : Z :=
  fold_left (λ acc g, if negb (g_pid g =? -1) then acc + (g_end g - g_start g) else acc)
            gantt 0.

(** The number of neighbouring intervals with different identities: what
    [for (size_t i = 1; i < gantt.size(); ++i) if (gantt[i].pid != gantt[i-1].pid) context_switches++;]
    counts, without the wrap-around of the counter ([I32.context_switches]
    has it). *)
Fixpoint context_switches (gantt : list GanttEntry) : Z :=
  match gantt with
  | a :: (b :: _) as rest =>
      (if negb (g_pid b =? g_pid a) then 1 else 0) + context_switches rest
  | _ => 0
  end.

Record Metrics := mkMetrics {
  m_total_time : Z;
  m_avg_wt : float;
  m_avg_tat : float;
  m_cpu_util : float;
  m_throughput : float;
  m_context_switches : Z
}.

(** The third argument of both calls: [gantt.empty() ? 0 : gantt.back().end]. *)
Definition makespan (gantt : list GanttEntry) : Z :=
  match last gantt with
  | Some g => g_end g
  | None => 0
  end.

(** ** Properties of inputs, timelines and process tables *)

(** A process with the ranges of the data model (positive identity, arrival
    not negative, positive burst) and with all its work still to do, as the
    constructor and the reset loop of [main] hand it to an engine. *)
Definition valid_process (p : Process) : Prop :=
  0 < pid p ∧ 0 ≤ arrival p ∧ 0 < burst p ∧ remaining p = burst p.

Definition valid_procs (input : list Process) : Prop :=
  input ≠ [] ∧ NoDup (pid <$> input) ∧ Forall valid_process input.

(** A vector in ascending order of a key. *)
Definition key_sorted {A : Type} (key : A → Z) (l : list A) : Prop :=
  ∀ i j a b, (i ≤ j)%nat → l !! i = Some a → l !! j = Some b → key a ≤ key b.

(** What [std::sort] promises of its result for a comparator [less]: no
    element is less than one that stands before it. *)
Definition std_sorted {A : Type} (less : A → A → bool) (l : list A) : Prop :=
  StronglySorted (λ a b, less b a = false) l.

(** What [top()] promises of its result [m]: it is queued, and [cmp m x] is
    false for every queued [x]. *)
Definition is_top (cmp : nat → nat → bool) (pq : list nat) (m : nat) : Prop :=
  m ∈ pq ∧ ∀ x, x ∈ pq → cmp m x = false.

(** Each interval ends where the next one starts. *)
Definition contiguous (g : list GanttEntry) : Prop :=
  ∀ i a b, g !! i = Some a → g !! S i = Some b → g_end a = g_start b.

Definition starts_at_zero (g : list GanttEntry) : Prop :=
  ∃ e rest, g = e :: rest ∧ g_start e = 0.

Definition total_burst (ps : list Process) : Z :=
  foldr (λ p acc, burst p + acc) 0 ps.

Definition total_remaining (ps : list Process) : Z :=
  foldr (λ p acc, remaining p + acc) 0 ps.

(** The timing fields of a process that has run to completion. *)
Definition finalized_ok (p : Process) : Prop :=
  arrival p + burst p ≤ completion_time p
  ∧ turnaround_time p = completion_time p - arrival p
  ∧ waiting_time p = turnaround_time p - burst p.

(** The fields no engine ever writes. *)
Definition same_static (p p' : Process) : Prop :=
  pid p' = pid p ∧ arrival p' = arrival p ∧ burst p' = burst p
  ∧ priority p' = priority p.

(** [chain t0 g t]: the intervals of [g] lead from [t0] to [t] without a
    gap, each of them with a positive length. *)
Fixpoint chain (t0 : Z) (g : list GanttEntry) (t : Z) : Prop :=
  match g with
  | [] => t0 = t
  | e :: g' => g_start e = t0 ∧ g_start e < g_end e ∧ chain (g_end e) g' t
  end.

(** ** Invariants shared by the two engines

    [ps] is the process table, [ready] the queued indices, [idx] the number
    of admitted processes, [ta] a tick up to which every arrival has been
    admitted, [t] the clock and [c] the counter [completed]. *)
Record proc_inv (ps : list Process) (ready : list nat) (idx : nat)
       (ta t : Z) (c : nat) : Prop := mkProcInv {
  pi_sorted : key_sorted arrival ps;
  pi_idx : (idx ≤ length ps)%nat;
  pi_basic : ∀ i p, ps !! i = Some p →
      0 < pid p ∧ 0 ≤ arrival p ∧ 0 < burst p ∧ 0 ≤ remaining p ≤ burst p;
  pi_horizon : ta ≤ t;
  pi_future : ∀ j p, (idx ≤ j)%nat → ps !! j = Some p →
      ta ≤ arrival p ∧ remaining p = burst p;
  pi_past : ∀ i p, (i < idx)%nat → ps !! i = Some p →
      arrival p + (burst p - remaining p) ≤ t;
  pi_nodup : NoDup ready;
  pi_ready : ∀ i, i ∈ ready ↔
      (i < idx)%nat ∧ ∃ p, ps !! i = Some p ∧ 0 < remaining p;
  pi_done : ∀ i p, ps !! i = Some p → remaining p = 0 → finalized_ok p;
  pi_completed : (c + length ready = idx)%nat
}.

Record gantt_inv (g : list GanttEntry) (t : Z) (ps : list Process) : Prop := mkGanttInv {
  gi_chain : chain 0 g t;
  gi_work : cpu_busy g + total_remaining ps = total_burst ps
}.

Definition RR_inv (s : RR.state) : Prop :=
  proc_inv (RR.procs s) (RR.q s) (RR.idx_next_arrival s) (RR.time s) (RR.time s)
           (RR.completed s)
  ∧ gantt_inv (RR.gantt s) (RR.time s) (RR.procs s).

Definition PPS_inv (s : PPS.state) : Prop :=
  proc_inv (PPS.procs s) (PPS.pq s) (PPS.idx s) (PPS.time s) (PPS.time s)
           (PPS.completed s)
  ∧ gantt_inv (PPS.gantt s) (PPS.time s) (PPS.procs s).

(** The input fields of a process. *)
Definition descriptor (p : Process) : Z * Z * Z * Z :=
  (pid p, arrival p, burst p, priority p).

(** The states a loop passes through, from [s0] on. *)
Inductive reaches {S : Type} (body : S → iter S) (s0 : S) : S → Prop :=
| reaches_here : reaches body s0 s0
| reaches_next (s s' : S) : reaches body s0 s → body s = Next s' → reaches body s0 s'.

(** The turn from timeline [g] to [g'] has run a process. *)
Definition dispatched (g g' : list GanttEntry) : Prop :=
  ∃ e, g' = g ++ [e] ∧ g_pid e ≠ idle_pid.

(** Every interval that is not idle lasts one tick. *)
Definition unit_ticks (g : list GanttEntry) : Prop :=
  Forall (λ e, g_pid e ≠ idle_pid → g_end e = g_start e + 1) g.

(** What keeps every vector access of the loops within bounds. *)
Definition in_bounds (ps : list Process) (ready : list nat) (idx : nat) : Prop :=
  (idx ≤ length ps)%nat ∧ ∀ i, i ∈ ready → (i < length ps)%nat.

(** What a finished run on a valid process set has produced: a timeline [g]
    without gaps from tick 0 on, as much execution as the bursts ask for,
    and a table [ps] of completed processes that still carries the input
    fields of the sorted input. *)
Definition good_run (input sorted : list Process)
           (g : list GanttEntry) (ps : list Process) : Prop :=
  chain 0 g (makespan g)
  ∧ g ≠ []
  ∧ cpu_busy g = total_burst input
  ∧ Forall (λ p, remaining p = 0 ∧ finalized_ok p) ps
  ∧ descriptor <$> ps = descriptor <$> sorted.

(** The loops end with every process run to completion. *)
Definition all_done (ps : list Process) : Prop :=
  Forall (λ p, remaining p = 0 ∧ finalized_ok p) ps.

(** Variants of the two loops. *)
Definition RR_variant (s : RR.state) : nat :=
  (2 * Z.to_nat (total_remaining (RR.procs s))
   + match RR.q s with [] => 1 | _ => 0 end)%nat.

Definition PPS_variant (s : PPS.state) : nat :=
  (2 * Z.to_nat (total_remaining (PPS.procs s))
   + match snd (push_arrivals (λ p, (arrival p <=? PPS.time s)%Z)
                      (drop (PPS.idx s) (PPS.procs s)) (PPS.idx s) (PPS.pq s)) with
     | [] => 1
     | _ => 0
     end)%nat.

(** ** The rest of [main]

    [for (auto &p : procs) { p.remaining = p.burst; p.start_time = -1;
    p.completion_time = 0; p.waiting_time = 0; p.turnaround_time = 0; }],
    the loop of line 283, on one process. *)
Definition reset (p : Process) : Process :=
  mkProcess (pid p) (arrival p) (burst p) (priority p) (burst p) (-1) 0 0 0.

(** ** Further properties of timelines and tables *)

(** No process has been dispatched yet. *)
Definition fresh_procs (input : list Process) : Prop :=
  Forall (λ p, start_time p = -1) input.

Definition duration (e : GanttEntry) : Z := g_end e - g_start e.

(** The intervals of the timeline that carry the identity [who]. *)
Definition intervals_of (who : Z) (g : list GanttEntry) : list GanttEntry :=
  filter (λ e, g_pid e = who) g.

Definition total_duration (l : list GanttEntry) : Z :=
  foldr (λ e acc, duration e + acc) 0 l.

(** An upper bound of the arrival ticks. *)
Definition max_arrival (ps : list Process) : Z :=
  foldr (λ p acc, Z.max (arrival p) acc) 0 ps.

(** How the timeline [g] at clock [t] accounts for the process [p]; what is
    said of [start_time] is said under [F], which stands for "the engine was
    given fresh processes". *)
Definition proc_track (F : Prop) (g : list GanttEntry) (t : Z) (p : Process) : Prop :=
  total_duration (intervals_of (pid p) g) + remaining p = burst p
  ∧ (remaining p = burst p →
       intervals_of (pid p) g = [] ∧ (F → start_time p = -1))
  ∧ (remaining p < burst p → F →
       g_start <$> head (intervals_of (pid p) g) = Some (start_time p)
       ∧ arrival p ≤ start_time p
       ∧ start_time p + (burst p - remaining p) ≤ t)
  ∧ (remaining p = 0 →
       g_end <$> last (intervals_of (pid p) g) = Some (completion_time p)
       ∧ (F → start_time p + burst p ≤ completion_time p)).

(** The invariant of both loops that relates timeline and table; [A] bounds
    the arrival ticks. *)
Record ext_inv (F : Prop) (A : Z) (ps : list Process) (g : list GanttEntry) (t : Z)
  : Prop := mkExtInv {
  ei_nodup : NoDup (pid <$> ps);
  ei_static : ∀ i p, ps !! i = Some p → 0 < pid p ∧ arrival p ≤ A ∧ 0 < burst p;
  ei_busy : 0 ≤ cpu_busy g;
  ei_bound : t ≤ A + cpu_busy g;
  ei_track : ∀ i p, ps !! i = Some p → proc_track F g t p
}.

(** [p] comes before [q], or with it, in the order of the priority queue:
    by priority, then arrival, then pid. *)
Definition at_least_as_urgent (p q : Process) : Prop :=
  priority p < priority q
  ∨ (priority p = priority q
     ∧ (arrival p < arrival q ∨ (arrival p = arrival q ∧ pid p ≤ pid q))).

(** The process [p] has not run yet, or it has run to completion in one
    interval. *)
Definition one_shot (g : list GanttEntry) (p : Process) : Prop :=
  (remaining p = burst p ∧ intervals_of (pid p) g = [])
  ∨ (remaining p = 0 ∧ ∃ e, intervals_of (pid p) g = [e] ∧ duration e = burst p).

(** The intervals of [p] so far are full slices of [Q] ticks, but for the
    last one once [p] has run to completion. *)
Definition slices_ok (Q : Z) (g : list GanttEntry) (p : Process) : Prop :=
  (0 < remaining p →
     total_duration (intervals_of (pid p) g)
     = Q * Z.of_nat (length (intervals_of (pid p) g)))
  ∧ (remaining p = 0 →
       Q * (Z.of_nat (length (intervals_of (pid p) g)) - 1) < burst p
       ∧ burst p ≤ Q * Z.of_nat (length (intervals_of (pid p) g))).

(** Every interval is idle or carries the identity of a process of [ps]. *)
Definition known_pids (ps : list Process) (g : list GanttEntry) : Prop :=
  Forall (λ e, g_pid e = idle_pid ∨ g_pid e ∈ pid <$> ps) g.

(** No interval that is not idle lasts longer than [quantum]. *)
Definition within_quantum (quantum : Z) (g : list GanttEntry) : Prop :=
  Forall (λ e, g_pid e ≠ idle_pid → duration e ≤ quantum) g.

(** What a finished run on a valid process set has produced, in addition to
    [good_run]. *)
Definition tracked_run (F : Prop) (A : Z) (g : list GanttEntry) (ps : list Process)
  : Prop :=
  ext_inv F A ps g (makespan g).

(** * The engines over 32-bit [int]

    The definitions above compute on the integers.  In [main.cpp] the
    clock, the ticks of an interval, the fields of a process and the busy
    time are [int]s: 32 bits wide on the platforms the program is built for,
    with sums and differences that leave the range wrapping round (two's
    complement).  The definitions of this module are the loop bodies and the
    metrics with the wrap-around written out at every [+], [-], [+=], [-=]
    and [++]; comparisons, copies and [min] are exact.  [init] performs no
    arithmetic and is shared.  The counters [n], [completed] and
    [idx], and the queued indices, count processes of the vector and stay
    natural numbers. *)

Module I32.

Definition INT_MIN : Z := -2147483648.
Definition INT_MAX : Z := 2147483647.

(** The [int] that a result with the exact value [z] is stored as. *)
Definition wrap (z : Z) : Z := (z + 2147483648) mod 4294967296 - 2147483648.

Definition int_range (z : Z) : Prop := INT_MIN ≤ z ≤ INT_MAX.

(** Lines 130-132 and 213-215. *)
Definition finalize (t : Z) (p : Process) : Process :=
  let c := t in
  let tat := wrap (c - arrival p) in
  let wt := wrap (tat - burst p) in
  mkProcess (pid p) (arrival p) (burst p) (priority p) (remaining p)
            (start_time p) c wt tat.

(** Lines 99-135: one turn of the loop of [round_robin]. *)
Definition rr_body (quantum : Z) (s : RR.state) : iter RR.state :=
  let n := length (RR.procs s) in
  if negb (RR.completed s <? n)%nat then Stop s else
  match RR.q s with
  | [] =>
      if (RR.idx_next_arrival s <? n)%nat then
        match RR.procs s !! RR.idx_next_arrival s with
        | Some pn =>
            let next_t := arrival pn in
            let '(gantt1, time1) :=
              if RR.time s <? next_t
              then (RR.gantt s ++ [idle_entry (RR.time s) next_t], next_t)
              else (RR.gantt s, RR.time s) in
            let '(idx1, q1) :=
              push_arrivals (λ p, arrival p =? time1)
                    (drop (RR.idx_next_arrival s) (RR.procs s))
                    (RR.idx_next_arrival s) (RR.q s) in
            Next (RR.mkState (RR.procs s) q1 time1 (RR.completed s) gantt1 idx1)
        | None => Fault
        end
      else Stop s
  | i :: q' =>
      match RR.procs s !! i with
      | Some p =>
          let p1 := mark_start (RR.time s) p in
          let exec := Z.min quantum (remaining p1) in
          let gantt1 :=
            RR.gantt s ++ [mkGantt (pid p1) (RR.time s) (wrap (RR.time s + exec))] in
          let p2 := set_remaining (wrap (remaining p1 - exec)) p1 in
          let procs1 := <[i := p2]> (RR.procs s) in
          let time1 := wrap (RR.time s + exec) in
          let '(idx1, q1) :=
            push_arrivals (λ x, arrival x <=? time1)
                  (drop (RR.idx_next_arrival s) procs1)
                  (RR.idx_next_arrival s) q' in
          if 0 <? remaining p2
          then Next (RR.mkState procs1 (q1 ++ [i]) time1 (RR.completed s) gantt1 idx1)
          else Next (RR.mkState (<[i := finalize time1 p2]> procs1) q1 time1
                                (S (RR.completed s)) gantt1 idx1)
      | None => Fault
      end
  end.

(** [round_robin(procs, quantum)] *)
Definition round_robin (fuel : nat) (input : list Process) (quantum : Z)
  : outcome (list GanttEntry * list Process) :=
  match RR.init input with
  | Finished s0 =>
      match loop (rr_body quantum) fuel s0 with
      | Finished s => Finished (RR.gantt s, RR.procs s)
      | OutOfFuel => OutOfFuel
      | OutOfBounds => OutOfBounds
      end
  | OutOfFuel => OutOfFuel
  | OutOfBounds => OutOfBounds
  end.

(** Lines 179-218: one turn of the loop of [preemptive_priority]. *)
Definition pps_body (s : PPS.state) : iter PPS.state :=
  let n := length (PPS.procs s) in
  if negb (PPS.completed s <? n)%nat then Stop s else
  let '(idx1, pq1) :=
    push_arrivals (λ p, arrival p <=? PPS.time s)
          (drop (PPS.idx s) (PPS.procs s)) (PPS.idx s) (PPS.pq s) in
  match pq_top (PPS.cmp (PPS.procs s)) pq1 with
  | None =>
      if (idx1 <? n)%nat then
        match PPS.procs s !! idx1 with
        | Some pn =>
            let next_t := arrival pn in
            if PPS.time s <? next_t
            then Next (PPS.mkState (PPS.procs s) pq1 next_t (PPS.completed s)
                                   (PPS.gantt s ++ [idle_entry (PPS.time s) next_t]) idx1)
            else Next (PPS.mkState (PPS.procs s) pq1 (PPS.time s) (PPS.completed s)
                                   (PPS.gantt s) idx1)
        | None => Fault
        end
      else Stop (PPS.mkState (PPS.procs s) pq1 (PPS.time s) (PPS.completed s)
                             (PPS.gantt s) idx1)
  | Some cur =>
      let pq2 := pq_remove cur pq1 in
      match PPS.procs s !! cur with
      | Some p =>
          let p1 := mark_start (PPS.time s) p in
          let run_for := 1 in
          let gantt1 :=
            PPS.gantt s ++ [mkGantt (pid p1) (PPS.time s) (wrap (PPS.time s + run_for))] in
          let p2 := set_remaining (wrap (remaining p1 - run_for)) p1 in
          let procs1 := <[cur := p2]> (PPS.procs s) in
          let time1 := wrap (PPS.time s + run_for) in
          let '(idx2, pq3) :=
            push_arrivals (λ x, arrival x <=? time1) (drop idx1 procs1) idx1 pq2 in
          if 0 <? remaining p2
          then Next (PPS.mkState procs1 (pq3 ++ [cur]) time1 (PPS.completed s) gantt1 idx2)
          else Next (PPS.mkState (<[cur := finalize time1 p2]> procs1) pq3 time1
                                 (S (PPS.completed s)) gantt1 idx2)
      | None => Fault
      end
  end.

(** [preemptive_priority(procs)] *)
Definition preemptive_priority (fuel : nat) (input : list Process)
  : outcome (list GanttEntry * list Process) :=
  match loop pps_body fuel (PPS.init input) with
  | Finished s => Finished (PPS.gantt s, PPS.procs s)
  | OutOfFuel => OutOfFuel
  | OutOfBounds => OutOfBounds
  end.

(** Lines 40-41. *)
Definition cpu_busy (gantt : list GanttEntry) : Z :=
  fold_left (λ acc g, if negb (g_pid g =? -1)
                      then wrap (acc + wrap (g_end g - g_start g)) else acc)
            gantt 0.

(** Lines 44-45, from the counter value [acc] on. *)
Fixpoint count_switches (acc : Z) (gantt : list GanttEntry) : Z :=
  match gantt with
  | a :: (b :: _) as rest =>
      count_switches (if negb (g_pid b =? g_pid a) then wrap (acc + 1) else acc) rest
  | _ => acc
  end.

Definition context_switches (gantt : list GanttEntry) : Z := count_switches 0 gantt.

(** The values computed (and then printed) by [print_metrics], lines
    32-45; [int n = procs.size()] narrows the size to an [int]. *)
Definition print_metrics (procs : list Process) (gantt : list GanttEntry)
           (total_time : Z) : Metrics :=
  let n := wrap (Z.of_nat (length procs)) in
  let sum_wt :=
    fold_left (λ acc p, PrimFloat.add acc (double_of_int (waiting_time p))) procs
              (double_of_int 0) in
  let sum_tat :=
    fold_left (λ acc p, PrimFloat.add acc (double_of_int (turnaround_time p))) procs
              (double_of_int 0) in
  let avg_wt := PrimFloat.div sum_wt (double_of_int n) in
  let avg_tat := PrimFloat.div sum_tat (double_of_int n) in
  let cpu_util :=
    PrimFloat.div (PrimFloat.mul (double_of_int 100) (double_of_int (cpu_busy gantt)))
                  (double_of_int total_time) in
  let throughput := PrimFloat.div (double_of_int n) (double_of_int total_time) in
  mkMetrics total_time avg_wt avg_tat cpu_util throughput (context_switches gantt).

(** What an engine hands to [print_metrics] once its loop has ended. *)
Definition metrics_of (r : list GanttEntry * list Process) : Metrics :=
  print_metrics (snd r) (fst r) (makespan (fst r)).

End I32.

(** ** Process lists as the program holds them *)

(** Every field of [p] is an [int]. *)
Definition int_process (p : Process) : Prop :=
  I32.int_range (pid p) ∧ I32.int_range (arrival p) ∧ I32.int_range (burst p)
  ∧ I32.int_range (priority p) ∧ I32.int_range (remaining p)
  ∧ I32.int_range (start_time p) ∧ I32.int_range (completion_time p)
  ∧ I32.int_range (waiting_time p) ∧ I32.int_range (turnaround_time p).

(** A vector of processes whose size [int n = procs.size()] holds. *)
Definition int_procs (input : list Process) : Prop :=
  Forall int_process input ∧ Z.of_nat (length input) ≤ I32.INT_MAX.

(** A process list on which no clock can leave the range of [int]: the
    latest arrival and all the bursts together stay within it. *)
Definition fits_int (input : list Process) : Prop :=
  int_procs input ∧ max_arrival input + total_burst input ≤ I32.INT_MAX.

(** ** Invariants of the loops over [int]

    What follows does not depend on the values the clock takes, and so
    holds of a run in which the clock wraps as well. *)

(** [link t0 g t]: the intervals of [g] lead from [t0] to [t], each starting
    where the one before ends, none of them empty. *)
Fixpoint link (t0 : Z) (g : list GanttEntry) (t : Z) : Prop :=
  match g with
  | [] => t0 = t
  | e :: g' => g_start e = t0 ∧ g_start e ≠ g_end e ∧ link (g_end e) g' t
  end.

(** The timing fields as lines 130-132 and 213-215 compute them. *)
Definition int_finalized (p : Process) : Prop :=
  turnaround_time p = I32.wrap (completion_time p - arrival p)
  ∧ waiting_time p = I32.wrap (turnaround_time p - burst p).

Record ready_inv (ps : list Process) (ready : list nat) (idx : nat)
       (t : Z) (c : nat) : Prop := mkReadyInv {
  ri_sorted : key_sorted arrival ps;
  ri_idx : (idx ≤ length ps)%nat;
  ri_basic : ∀ i p, ps !! i = Some p →
      0 < burst p ≤ I32.INT_MAX ∧ 0 ≤ remaining p ≤ burst p;
  ri_future : ∀ j p, (idx ≤ j)%nat → ps !! j = Some p →
      t ≤ arrival p ∧ remaining p = burst p;
  ri_nodup : NoDup ready;
  ri_ready : ∀ i, i ∈ ready ↔
      (i < idx)%nat ∧ ∃ p, ps !! i = Some p ∧ 0 < remaining p;
  ri_done : ∀ i p, ps !! i = Some p → remaining p = 0 → int_finalized p;
  ri_completed : (c + length ready = idx)%nat
}.

Record line_inv (g : list GanttEntry) (t : Z) (ps : list Process) : Prop := mkLineInv {
  li_link : link 0 g t;
  li_fresh : g = [] → ∀ i p, ps !! i = Some p → remaining p = burst p
}.

Definition RR_int_inv (s : RR.state) : Prop :=
  ready_inv (RR.procs s) (RR.q s) (RR.idx_next_arrival s) (RR.time s) (RR.completed s)
  ∧ line_inv (RR.gantt s) (RR.time s) (RR.procs s).

Definition PPS_int_inv (s : PPS.state) : Prop :=
  ready_inv (PPS.procs s) (PPS.pq s) (PPS.idx s) (PPS.time s) (PPS.completed s)
  ∧ line_inv (PPS.gantt s) (PPS.time s) (PPS.procs s).

(** Every process has run to completion and carries the timing fields of
    its last turn. *)
Definition all_finalized (ps : list Process) : Prop :=
  Forall (λ p, remaining p = 0 ∧ int_finalized p) ps.


(** The invariant of a Round Robin run on which no clock leaves the range
    of [int]; [A] bounds the arrival ticks. *)
Definition RR_fit (F : Prop) (A : Z) (s : RR.state) : Prop :=
  RR_inv s ∧ ext_inv F A (RR.procs s) (RR.gantt s) (RR.time s)
  ∧ A + total_burst (RR.procs s) ≤ I32.INT_MAX.

Definition PPS_fit (F : Prop) (A : Z) (s : PPS.state) : Prop :=
  PPS_inv s ∧ ext_inv F A (PPS.procs s) (PPS.gantt s) (PPS.time s)
  ∧ A + total_burst (PPS.procs s) ≤ I32.INT_MAX.

(** Every interval that is not idle ends one tick after it starts, in the
    arithmetic of [int]. *)
Definition int_unit_ticks (g : list GanttEntry) : Prop :=
  Forall (λ e, g_pid e ≠ idle_pid → g_end e = I32.wrap (g_start e + 1)) g.

(** The sum of the durations of the execution intervals of a timeline, the
    idle intervals left out. *)
Definition execution_time (g : list GanttEntry) : Z :=
  total_duration (filter (λ e, g_pid e ≠ idle_pid) g).

(** Two processes that arrive together and whose bursts add up to one tick
    more than an [int] holds. *)
Definition wrap_sample : list Process :=
  [ new_Process 1 0 2147483647 0; new_Process 2 0 1 0 ].

(** * Proofs *)

(** ** The loop combinator *)

Lemma loop_fuel_mono {S : Type} (body : S → iter S) (fuel fuel' : nat) (s r : S) :
  loop body fuel s = Finished r → (fuel ≤ fuel')%nat → loop body fuel' s = Finished r.
Proof.
  revert fuel' s. induction fuel as [|fuel IH]; intros fuel' s Hrun Hle; simpl in Hrun.
  - discriminate.
  - destruct fuel' as [|fuel']; [lia|]. simpl.
    destruct (body s) as [s1|s1|]; try done.
    apply IH; [done | lia].
Qed.

Lemma loop_invariant {S : Type} (body : S → iter S) (I : S → Prop) :
  (∀ s, I s → match body s with Next s' | Stop s' => I s' | Fault => True end) →
  ∀ fuel s r, I s → loop body fuel s = Finished r → I r.
Proof.
  intros Hbody fuel. induction fuel as [|fuel IH]; intros s r Hs Hrun; simpl in Hrun.
  - discriminate.
  - specialize (Hbody s Hs). destruct (body s) as [s1|s1|]; try done.
    + exact (IH s1 r Hbody Hrun).
    + by inversion Hrun; subst.
Qed.

(** A loop whose body keeps an invariant, never faults and decreases a
    variant at every turn that does not leave it, ends. *)
Lemma loop_terminates {S : Type} (body : S → iter S) (I F : S → Prop) (μ : S → nat) :
  (∀ s, I s → match body s with
              | Next s' => I s' ∧ (μ s' < μ s)%nat
              | Stop s' => I s' ∧ F s'
              | Fault => False
              end) →
  ∀ s, I s → ∃ r, loop body (Datatypes.S (μ s)) s = Finished r ∧ I r ∧ F r.
Proof.
  intros Hbody s. remember (μ s) as k eqn:Hk.
  assert (Hle : (μ s ≤ k)%nat) by lia. clear Hk.
  revert s Hle. induction k as [|k IH]; intros s Hle Hs.
  - specialize (Hbody s Hs). simpl. destruct (body s) as [s1|s1|]; [|by eauto|done].
    destruct Hbody; lia.
  - specialize (Hbody s Hs). cbn [loop]. destruct (body s) as [s1|s1|]; [|by eauto|done].
    destruct Hbody as [Hs1 Hlt]. apply IH; [lia | done].
Qed.

(** ** Sorting *)

Section SortFacts.
Context {A : Type} (less : A → A → bool).

Lemma insert_sorted_perm (x : A) (l : list A) : insert_sorted less x l ≡ₚ x :: l.
Proof.
  induction l as [|y l IH]; simpl; [done|].
  destruct (less y x); [|done].
  rewrite IH. apply Permutation_swap.
Qed.

Lemma sort_by_perm (l : list A) : sort_by less l ≡ₚ l.
Proof.
  induction l as [|x l IH]; simpl; [done|].
  unfold sort_by in *. simpl. rewrite insert_sorted_perm. by rewrite IH.
Qed.

(** Sortedness for a key that the comparator refines. *)
Context (key : A → Z).
Hypothesis less_key : ∀ a b, less a b = false → key b ≤ key a.
Hypothesis less_key' : ∀ a b, less a b = true → key a ≤ key b.

Lemma key_sorted_cons (x : A) (l : list A) :
  key_sorted key (x :: l) ↔ (∀ y, y ∈ l → key x ≤ key y) ∧ key_sorted key l.
Proof.
  split.
  - intros H. split.
    + intros y [j Hj]%list_elem_of_lookup. apply (H 0%nat (S j)); [lia|done|done].
    + intros i j a b Hij Ha Hb. apply (H (S i) (S j)); [lia|done|done].
  - intros [Hx Hl] i j a b Hij Ha Hb.
    destruct i as [|i], j as [|j]; simpl in *; simplify_eq; try lia.
    + apply Hx. by eapply list_elem_of_lookup_2.
    + apply (Hl i j); [lia|done|done].
Qed.

Lemma insert_sorted_key (x : A) (l : list A) :
  key_sorted key l → key_sorted key (insert_sorted less x l).
Proof.
  induction l as [|y l IH]; intros Hl; simpl.
  - apply key_sorted_cons. split; [by intros ? ?%elem_of_nil|].
    intros i j a b _ Ha. by rewrite lookup_nil in Ha.
  - apply key_sorted_cons in Hl as [Hy Hl].
    destruct (less y x) eqn:Hlt.
    + apply key_sorted_cons. split; [|by apply IH].
      intros z Hz. rewrite insert_sorted_perm in Hz.
      apply elem_of_cons in Hz as [->|Hz]; [by apply less_key'|by apply Hy].
    + apply less_key in Hlt.
      apply key_sorted_cons. split.
      * intros z [->|Hz]%elem_of_cons; [done|]. specialize (Hy z Hz). lia.
      * apply key_sorted_cons. by split.
Qed.

Lemma sort_by_key (l : list A) : key_sorted key (sort_by less l).
Proof.
  induction l as [|x l IH].
  - intros i j a b _ Ha. simpl in Ha. by rewrite lookup_nil in Ha.
  - unfold sort_by in *. simpl. by apply insert_sorted_key.
Qed.
End SortFacts.

Lemma RR_sort_arrival (l : list Process) : key_sorted arrival (sort_by RR.less l).
Proof.
  apply sort_by_key; intros a b; unfold RR.less;
    destruct (arrival a =? arrival b) eqn:E; simpl; lia.
Qed.

Lemma PPS_sort_arrival (l : list Process) : key_sorted arrival (sort_by PPS.less l).
Proof.
  apply sort_by_key; intros a b; unfold PPS.less;
    destruct (arrival a =? arrival b) eqn:E; simpl; lia.
Qed.

(** ** Admission *)

Lemma push_arrivals_spec (test : Process → bool) (rest : list Process) (idx : nat) (q : list nat) :
  ∃ k, push_arrivals test rest idx q = ((idx + k)%nat, q ++ seq idx k)
       ∧ (k ≤ length rest)%nat
       ∧ (∀ j p, (j < k)%nat → rest !! j = Some p → test p = true)
       ∧ (∀ p, rest !! k = Some p → test p = false).
Proof.
  revert idx q. induction rest as [|p rest IH]; intros idx q; simpl.
  - exists 0%nat. rewrite Nat.add_0_r, app_nil_r. repeat split; [lia| |done].
    intros; lia.
  - destruct (test p) eqn:Ht.
    + destruct (IH (S idx) (q ++ [idx])) as (k & -> & Hk & Hin & Hout).
      exists (S k). split; [|split; [|split]].
      * f_equal; [lia|]. simpl. by rewrite <- app_assoc.
      * simpl; lia.
      * intros [|j] p' Hj Hp'; simpl in Hp'; [by simplify_eq|].
        apply (Hin j); [lia|done].
      * done.
    + exists 0%nat. rewrite Nat.add_0_r, app_nil_r. repeat split; [lia| |].
      * intros; lia.
      * intros p' Hp'. simpl in Hp'. by simplify_eq.
Qed.

Lemma push_arrivals_ext (test1 test2 : Process → bool) (rest : list Process) (idx : nat) (q : list nat) :
  (∀ p, p ∈ rest → test1 p = test2 p) →
  push_arrivals test1 rest idx q = push_arrivals test2 rest idx q.
Proof.
  revert idx q. induction rest as [|p rest IH]; intros idx q Hext; simpl; [done|].
  rewrite (Hext p) by apply list_elem_of_here.
  destruct (test2 p); [|done].
  apply IH. intros p' Hp'. apply Hext. by apply list_elem_of_further.
Qed.

Lemma skip_while_push (test : Process → bool) (rest : list Process) (idx : nat) (q : list nat) :
  skip_while test rest idx = fst (push_arrivals test rest idx q).
Proof.
  revert idx q. induction rest as [|p rest IH]; intros idx q; simpl; [done|].
  destruct (test p); [|done]. apply IH.
Qed.

(** ** Sums over the process table and the timeline *)

Lemma total_remaining_insert (ps : list Process) (i : nat) (p p' : Process) :
  ps !! i = Some p →
  total_remaining (<[i := p']> ps) = total_remaining ps - remaining p + remaining p'.
Proof.
  revert i. induction ps as [|x ps IH]; intros [|i] Hp; simpl in *; simplify_eq.
  - lia.
  - rewrite (IH i Hp). lia.
Qed.

Lemma total_burst_insert (ps : list Process) (i : nat) (p p' : Process) :
  ps !! i = Some p → burst p' = burst p →
  total_burst (<[i := p']> ps) = total_burst ps.
Proof.
  revert i. induction ps as [|x ps IH]; intros [|i] Hp Hb; simpl in *; simplify_eq.
  - lia.
  - by rewrite (IH i Hp Hb).
Qed.

Lemma total_burst_perm (ps ps' : list Process) :
  ps ≡ₚ ps' → total_burst ps = total_burst ps'.
Proof. induction 1; simpl; lia. Qed.

Lemma total_remaining_fresh (ps : list Process) :
  Forall (λ p, remaining p = burst p) ps → total_remaining ps = total_burst ps.
Proof. induction 1 as [|p ps Hp _ IH]; simpl; [done|]. lia. Qed.

Lemma total_remaining_nonneg (ps : list Process) :
  (∀ i p, ps !! i = Some p → 0 ≤ remaining p) → 0 ≤ total_remaining ps.
Proof.
  induction ps as [|x ps IH]; intros H; simpl; [done|].
  specialize (H 0%nat x eq_refl) as Hx.
  assert (0 ≤ total_remaining ps); [|lia].
  apply IH. intros i p Hp. by apply (H (S i)).
Qed.

Lemma total_remaining_zero (ps : list Process) :
  (∀ i p, ps !! i = Some p → remaining p = 0) → total_remaining ps = 0.
Proof.
  induction ps as [|x ps IH]; intros H; simpl; [done|].
  rewrite (H 0%nat x eq_refl), IH; [done|].
  intros i p Hp. by apply (H (S i)).
Qed.

Lemma cpu_busy_snoc (g : list GanttEntry) (e : GanttEntry) :
  cpu_busy (g ++ [e])
  = cpu_busy g + (if negb (g_pid e =? -1) then g_end e - g_start e else 0).
Proof.
  unfold cpu_busy. rewrite fold_left_app. simpl.
  destruct (negb (g_pid e =? -1)); lia.
Qed.

Lemma chain_snoc (t0 t t' : Z) (g : list GanttEntry) (who : Z) :
  chain t0 g t → t < t' → chain t0 (g ++ [mkGantt who t t']) t'.
Proof.
  revert t0. induction g as [|e g IH]; intros t0 Hc Hlt; simpl in *.
  - subst. done.
  - destruct Hc as (? & ? & ?). auto.
Qed.

Lemma chain_contiguous (t0 t : Z) (g : list GanttEntry) : chain t0 g t → contiguous g.
Proof.
  revert t0. induction g as [|e g IH]; intros t0 Hc i a b Ha Hb.
  - by rewrite lookup_nil in Ha.
  - simpl in Hc. destruct Hc as (_ & _ & Hc). destruct i as [|i]; simpl in *.
    + simplify_eq. destruct g as [|e' g]; simpl in *; simplify_eq.
      by destruct Hc as (-> & _).
    + by apply (IH _ Hc i).
Qed.

Lemma chain_positive (t0 t : Z) (g : list GanttEntry) :
  chain t0 g t → Forall (λ e, g_start e < g_end e) g.
Proof.
  revert t0. induction g as [|e g IH]; intros t0 Hc; [done|].
  simpl in Hc. destruct Hc as (_ & ? & Hc). constructor; [done|]. by eapply IH.
Qed.

Lemma chain_start (t0 t : Z) (g : list GanttEntry) :
  chain t0 g t → t0 ≠ t → ∃ e rest, g = e :: rest ∧ g_start e = t0.
Proof.
  destruct g as [|e g]; simpl; [done|]. intros (? & _ & _) _. eauto.
Qed.

Lemma chain_le (t0 t : Z) (g : list GanttEntry) : chain t0 g t → t0 ≤ t.
Proof.
  revert t0. induction g as [|e g IH]; intros t0 Hc; simpl in Hc; [lia|].
  destruct Hc as (? & ? & Hc). apply IH in Hc. lia.
Qed.

Lemma chain_makespan (t0 t : Z) (g : list GanttEntry) :
  chain t0 g t → g ≠ [] → makespan g = t.
Proof.
  unfold makespan. revert t0. induction g as [|e g IH]; intros t0 Hc Hne; [done|].
  simpl in Hc. destruct Hc as (_ & _ & Hc).
  destruct g as [|e' g]; [simpl in *; done|].
  rewrite last_cons_cons. by eapply IH.
Qed.

(** ** Preservation of the process invariant *)

Lemma proc_inv_perm ps ready ready' idx ta t c :
  ready ≡ₚ ready' → proc_inv ps ready idx ta t c → proc_inv ps ready' idx ta t c.
Proof.
  intros Hp [Hsort Hidx Hbasic Hhor Hfut Hpast Hnd Hready Hdone Hc].
  constructor; try done.
  - by rewrite <- Hp.
  - intros i. by rewrite <- Hp.
  - by rewrite <- Hp.
Qed.

Lemma proc_inv_time ps ready idx ta t t' c :
  t ≤ t' → proc_inv ps ready idx ta t c → proc_inv ps ready idx ta t' c.
Proof.
  intros Hle [Hsort Hidx Hbasic Hhor Hfut Hpast Hnd Hready Hdone Hc].
  constructor; try done; [lia|].
  intros i p Hi Hp. specialize (Hpast i p Hi Hp). lia.
Qed.

(** Admission of the processes [idx .. idx + k - 1], all arrived by [t],
    when nothing from [idx + k] on arrives before [ta']. *)
Lemma proc_inv_push ps ready idx k ta ta' t c :
  proc_inv ps ready idx ta t c →
  (idx + k ≤ length ps)%nat →
  (∀ j p, (idx ≤ j < idx + k)%nat → ps !! j = Some p → arrival p ≤ t) →
  (∀ j p, (idx + k ≤ j)%nat → ps !! j = Some p → ta' ≤ arrival p) →
  ta' ≤ t →
  proc_inv ps (ready ++ seq idx k) (idx + k) ta' t c.
Proof.
  intros [Hsort Hidx Hbasic Hhor Hfut Hpast Hnd Hready Hdone Hc] Hlen Hin Hout Hta.
  constructor; try done.
  - intros j p Hj Hp. split; [by eapply Hout|]. apply (Hfut j p); [lia|done].
  - intros i p Hi Hp. destruct (decide (i < idx)%nat) as [Hlt|Hge].
    + by apply (Hpast i).
    + destruct (Hfut i p) as [_ ->]; [lia|done|].
      specialize (Hin i p ltac:(lia) Hp). lia.
  - apply NoDup_app. split; [done|]. split; [|apply NoDup_seq].
    intros i Hi Hs. apply Hready in Hi as [Hi _]. apply elem_of_seq in Hs. lia.
  - intros i. rewrite elem_of_app, Hready, elem_of_seq. split.
    + intros [[Hi Hp]|Hi]; [split; [lia|done]|].
      split; [lia|]. destruct (lookup_lt_is_Some_2 ps i) as [p Hp]; [lia|].
      exists p. split; [done|].
      destruct (Hfut i p) as [_ ->]; [lia|done|]. by apply (Hbasic i).
    + intros [Hi Hp]. destruct (decide (i < idx)%nat); [left; done|right; lia].
  - rewrite length_app, length_seq. lia.
Qed.

(** Admission by the test [arrival <= t]. *)
Lemma proc_inv_push_le ps ready idx ta t c q0 idx' q' :
  proc_inv ps ready idx ta t c →
  push_arrivals (λ p, arrival p <=? t) (drop idx ps) idx q0 = (idx', q') →
  ∃ k, idx' = (idx + k)%nat ∧ q' = q0 ++ seq idx k
       ∧ proc_inv ps (ready ++ seq idx k) idx' t t c
       ∧ (∀ j p, (idx' ≤ j)%nat → ps !! j = Some p → t < arrival p)
       ∧ (∀ p, ps !! idx = Some p → arrival p ≤ t → (0 < k)%nat).
Proof.
  intros Hinv Hadm.
  destruct (push_arrivals_spec (λ p, arrival p <=? t) (drop idx ps) idx q0)
    as (k & Heq & Hk & Hin & Hout).
  rewrite Hadm in Heq. injection Heq as -> ->.
  rewrite length_drop in Hk.
  assert (Hidx := pi_idx _ _ _ _ _ _ Hinv).
  assert (Hlate : ∀ j p, (idx + k ≤ j)%nat → ps !! j = Some p → t < arrival p).
  { intros j p Hj Hp.
    destruct (lookup_lt_is_Some_2 ps (idx + k)) as [pk Hpk].
    { apply lookup_lt_Some in Hp. lia. }
    assert (arrival pk ≤ arrival p) by (by eapply (pi_sorted _ _ _ _ _ _ Hinv)).
    specialize (Hout pk). rewrite lookup_drop in Hout. specialize (Hout Hpk).
    simpl in Hout. lia. }
  exists k. split; [done|]. split; [done|]. split; [|split; [done|]].
  - apply proc_inv_push with (ta := ta); try done; try lia.
    + intros j p Hj Hp. specialize (Hin (j - idx)%nat p).
      rewrite lookup_drop in Hin. replace (idx + (j - idx))%nat with j in Hin by lia.
      simpl in Hin. specialize (Hin ltac:(lia) Hp). lia.
    + intros j p Hj Hp. specialize (Hlate j p Hj Hp). lia.
  - intros p Hp Harr. destruct k as [|k]; [|lia].
    specialize (Hlate idx p ltac:(lia) Hp). lia.
Qed.

(** The dispatched process [i] runs for [exec] ticks and is then queued
    again or finalized. *)
Lemma proc_inv_run ps ready rest idx ta t c i p p' exec :
  proc_inv ps ready idx ta t c →
  ready ≡ₚ i :: rest →
  ps !! i = Some p →
  0 < exec ≤ remaining p →
  same_static p p' →
  remaining p' = remaining p - exec →
  (remaining p' = 0 →
     completion_time p' = t + exec
     ∧ turnaround_time p' = completion_time p' - arrival p'
     ∧ waiting_time p' = turnaround_time p' - burst p') →
  proc_inv (<[i := p']> ps)
           (if 0 <? remaining p' then rest ++ [i] else rest) idx ta (t + exec)
           (if 0 <? remaining p' then c else S c).
Proof.
  intros Hinv Hperm Hp Hexec (Hpid & Harr & Hburst & Hprio) Hrem Hfin.
  apply (proc_inv_perm _ _ _ _ _ _ _ Hperm) in Hinv.
  destruct Hinv as [Hsort Hidx Hbasic Hhor Hfut Hpast Hnd Hready Hdone Hc].
  assert (Hi : (i < idx)%nat) by (apply Hready; left).
  assert (Hlen : (i < length ps)%nat) by (by eapply lookup_lt_Some).
  apply NoDup_cons in Hnd as [Hnotin Hnd].
  destruct (Hbasic i p Hp) as (Hb1 & Hb2 & Hb3 & Hb4).
  assert (Hlook : ∀ j x, <[i := p']> ps !! j = Some x →
            (j = i ∧ x = p') ∨ (j ≠ i ∧ ps !! j = Some x)).
  { intros j x Hx. destruct (decide (i = j)) as [->|Hne].
    - rewrite list_lookup_insert_eq in Hx by done. left. by simplify_eq.
    - rewrite list_lookup_insert_ne in Hx by done. right. done. }
  assert (Hrest : ∀ j, j ∈ rest ↔
            j ≠ i ∧ (j < idx)%nat ∧ ∃ x, ps !! j = Some x ∧ 0 < remaining x).
  { intros j. split.
    - intros Hj. split; [by intros ->|]. apply Hready. by right.
    - intros (Hne & Hj). apply Hready in Hj. by apply elem_of_cons in Hj as [?|?]. }
  constructor.
  - intros a b x y Hab Hx Hy.
    apply Hlook in Hx as [[-> ->]|[_ Hx]]; apply Hlook in Hy as [[-> ->]|[_ Hy]].
    + lia.
    + rewrite Harr. by apply (Hsort i b).
    + rewrite Harr. by apply (Hsort a i).
    + by apply (Hsort a b).
  - by rewrite length_insert.
  - intros j x Hx. apply Hlook in Hx as [[-> ->]|[_ Hx]]; [|by eapply Hbasic].
    rewrite Hpid, Harr, Hburst, Hrem. lia.
  - lia.
  - intros j x Hj Hx. apply Hlook in Hx as [[-> ->]|[_ Hx]]; [lia|by eapply Hfut].
  - intros j x Hj Hx. apply Hlook in Hx as [[-> ->]|[_ Hx]].
    + specialize (Hpast i p Hi Hp). rewrite Harr, Hburst, Hrem. lia.
    + specialize (Hpast j x Hj Hx). lia.
  - destruct (0 <? remaining p'); [|done].
    apply NoDup_app. split; [done|]. split; [|apply NoDup_singleton].
    intros j Hj ->%list_elem_of_singleton. done.
  - intros j. destruct (0 <? remaining p') eqn:Hpos.
    + apply Z.ltb_lt in Hpos. rewrite elem_of_app, list_elem_of_singleton, Hrest. split.
      * intros [(Hne & Hj & x & Hx & Hxr)|Heq].
        -- split; [done|]. exists x. by rewrite list_lookup_insert_ne.
        -- subst j. split; [done|]. exists p'. by rewrite list_lookup_insert_eq.
      * intros (Hj & x & Hx & Hxr). apply Hlook in Hx as [[-> ->]|[Hne Hx]]; [by right|].
        left. eauto.
    + apply Z.ltb_ge in Hpos. rewrite Hrest. split.
      * intros (Hne & Hj & x & Hx & Hxr).
        split; [done|]. exists x. by rewrite list_lookup_insert_ne.
      * intros (Hj & x & Hx & Hxr). apply Hlook in Hx as [[-> ->]|[Hne Hx]]; [lia|].
        eauto.
  - intros j x Hx Hx0. apply Hlook in Hx as [[-> ->]|[_ Hx]]; [|by eapply Hdone].
    destruct (Hfin Hx0) as (Hc1 & Hc2 & Hc3). unfold finalized_ok.
    specialize (Hpast i p Hi Hp). rewrite Hc1, Harr, Hburst. repeat split; lia.
  - simpl in Hc. destruct (0 <? remaining p').
    + rewrite length_app. simpl. lia.
    + lia.
Qed.

Lemma proc_inv_all_done ps ready idx ta t c :
  proc_inv ps ready idx ta t c →
  (length ps ≤ c)%nat ∨ (ready = [] ∧ length ps ≤ idx)%nat →
  all_done ps.
Proof.
  intros [Hsort Hidx Hbasic Hhor Hfut Hpast Hnd Hready Hdone Hc] Hend.
  assert (Hq : ready = [] ∧ idx = length ps).
  { destruct Hend as [Hend|[-> Hend]]; [|split; [done|lia]].
    destruct ready; [split; [done|simpl in Hc; lia]|simpl in Hc; lia]. }
  destruct Hq as [-> ->].
  apply Forall_lookup_2. intros i p Hp.
  assert (Hr : remaining p = 0).
  { destruct (Hbasic i p Hp) as (_ & _ & _ & Hr).
    destruct (decide (0 < remaining p)) as [Hpos|]; [|lia].
    assert (i ∈ @nil nat) as Hi%elem_of_nil; [|done].
    apply Hready. split; [by eapply lookup_lt_Some|eauto]. }
  split; [done|]. by apply (Hdone i).
Qed.

(** ** Preservation of the timeline invariant *)

Lemma gantt_inv_idle g t t' ps :
  gantt_inv g t ps → t < t' → gantt_inv (g ++ [idle_entry t t']) t' ps.
Proof.
  intros [Hchain Hwork] Hlt. constructor.
  - by apply chain_snoc.
  - rewrite cpu_busy_snoc. simpl. lia.
Qed.

Lemma gantt_inv_run g t ps i p p' exec :
  gantt_inv g t ps →
  ps !! i = Some p →
  0 < pid p → 0 < exec →
  burst p' = burst p → remaining p' = remaining p - exec →
  gantt_inv (g ++ [mkGantt (pid p) t (t + exec)]) (t + exec) (<[i := p']> ps).
Proof.
  intros [Hchain Hwork] Hp Hpid Hexec Hb Hr. constructor.
  - apply chain_snoc; [done|lia].
  - rewrite cpu_busy_snoc, (total_remaining_insert _ _ p) by done.
    rewrite (total_burst_insert _ _ p) by done. simpl.
    destruct (pid p =? -1) eqn:E; simpl; lia.
Qed.

(** ** One dispatch, as both loop bodies perform it *)

Lemma dispatch_inv ps ready rest idx t c g i p exec idx1 q1 :
  proc_inv ps ready idx t t c →
  gantt_inv g t ps →
  ready ≡ₚ i :: rest →
  ps !! i = Some p →
  0 < exec ≤ remaining p →
  let p1 := mark_start t p in
  let p2 := set_remaining (remaining p1 - exec) p1 in
  let procs1 := <[i := p2]> ps in
  let time1 := t + exec in
  let g1 := g ++ [mkGantt (pid p1) t (t + exec)] in
  push_arrivals (λ x, arrival x <=? time1) (drop idx procs1) idx rest = (idx1, q1) →
  total_remaining procs1 = total_remaining ps - exec
  ∧ (∃ k, idx1 = (idx + k)%nat ∧ q1 = rest ++ seq idx k
          ∧ ∀ j x, (idx1 ≤ j)%nat → ps !! j = Some x → time1 < arrival x)
  ∧ if 0 <? remaining p2
    then proc_inv procs1 (q1 ++ [i]) idx1 time1 time1 c
         ∧ gantt_inv g1 time1 procs1
    else proc_inv (<[i := finalize time1 p2]> procs1) q1 idx1 time1 time1 (S c)
         ∧ gantt_inv g1 time1 (<[i := finalize time1 p2]> procs1)
         ∧ total_remaining (<[i := finalize time1 p2]> procs1)
           = total_remaining ps - exec.
Proof.
  intros Hinv Hg Hperm Hp Hexec p1 p2 procs1 time1 g1 Hadm.
  assert (Hi : (i < idx)%nat).
  { apply (pi_ready _ _ _ _ _ _ Hinv). rewrite Hperm. left. }
  assert (Hlen : (i < length ps)%nat) by (by eapply lookup_lt_Some).
  destruct (pi_basic _ _ _ _ _ _ Hinv i p Hp) as (Hpid & _).
  assert (Hp1 : pid p1 = pid p ∧ arrival p1 = arrival p ∧ burst p1 = burst p
                ∧ priority p1 = priority p ∧ remaining p1 = remaining p).
  { unfold p1, mark_start. by destruct (start_time p =? -1). }
  destruct Hp1 as (Hp1a & Hp1b & Hp1c & Hp1d & Hp1e).
  assert (Hdrop : ∀ x, drop idx (<[i := x]> ps) = drop idx ps).
  { intros x. by apply drop_insert_lt. }
  assert (Hrem1 : total_remaining procs1 = total_remaining ps - exec).
  { unfold procs1. rewrite (total_remaining_insert _ _ p) by done. simpl. lia. }
  split; [done|].
  unfold procs1 in Hadm. rewrite Hdrop in Hadm.
  pose proof (proc_inv_time _ _ _ _ t time1 _ ltac:(unfold time1; lia) Hinv) as Hinv0.
  destruct (proc_inv_push_le _ _ _ _ _ _ _ _ _ Hinv0 Hadm)
    as (k & Hidx1 & Hq1 & _ & Hlate & _).
  split; [by exists k|].
  destruct (0 <? remaining p2) eqn:Hpos.
  - assert (Hrun : proc_inv procs1 (rest ++ [i]) idx t time1 c).
    { pose proof (proc_inv_run ps ready rest idx t t c i p p2 exec Hinv Hperm Hp Hexec) as H.
      rewrite Hpos in H. apply H.
      - unfold same_static. simpl. by rewrite Hp1a, Hp1b, Hp1c, Hp1d.
      - simpl. lia.
      - apply Z.ltb_lt in Hpos. lia. }
    rewrite <- (Hdrop p2) in Hadm.
    destruct (proc_inv_push_le _ _ _ _ _ _ _ _ _ Hrun Hadm) as (k' & Hk1 & Hk2 & Hinv' & _).
    assert (k' = k) as -> by lia. subst idx1 q1.
    split.
    + eapply proc_inv_perm; [|exact Hinv'].
      rewrite <- !app_assoc. apply Permutation_app_head, Permutation_app_comm.
    + unfold g1. rewrite Hp1a. by apply gantt_inv_run; simpl; try lia.
  - set (p3 := finalize time1 p2).
    assert (Hfinal : <[i := p3]> procs1 = <[i := p3]> ps).
    { unfold procs1. apply list_insert_insert_eq. }
    rewrite Hfinal.
    assert (Hrun : proc_inv (<[i := p3]> ps) rest idx t time1 (S c)).
    { pose proof (proc_inv_run ps ready rest idx t t c i p p3 exec Hinv Hperm Hp Hexec) as H.
      assert (Hr3 : remaining p3 = remaining p2) by done.
      rewrite Hr3, Hpos in H. apply H.
      - unfold same_static. simpl. by rewrite Hp1a, Hp1b, Hp1c, Hp1d.
      - simpl. lia.
      - intros _. simpl. done. }
    rewrite <- (Hdrop p3) in Hadm.
    destruct (proc_inv_push_le _ _ _ _ _ _ _ _ _ Hrun Hadm) as (k' & Hk1 & Hk2 & Hinv' & _).
    assert (k' = k) as -> by lia. subst idx1 q1.
    split; [done|]. split.
    + unfold g1. rewrite Hp1a. by apply gantt_inv_run; simpl; try lia.
    + rewrite (total_remaining_insert _ _ p) by done. simpl. lia.
Qed.

Lemma proc_inv_horizon ps ready idx ta ta' t c :
  proc_inv ps ready idx ta t c →
  ta' ≤ t →
  (∀ j p, (idx ≤ j)%nat → ps !! j = Some p → ta' ≤ arrival p) →
  proc_inv ps ready idx ta' t c.
Proof.
  intros [Hsort Hidx Hbasic Hhor Hfut Hpast Hnd Hready Hdone Hc] Hle Hout.
  constructor; try done.
  intros j p Hj Hp. split; [by eapply Hout|by eapply Hfut].
Qed.

(** Admission by the test [arrival == t], when nothing still to be admitted
    has arrived before [t]. *)
Lemma proc_inv_push_eq ps ready idx ta t c q0 idx' q' :
  proc_inv ps ready idx ta t c →
  (∀ p, ps !! idx = Some p → t ≤ arrival p) →
  push_arrivals (λ p, arrival p =? t) (drop idx ps) idx q0 = (idx', q') →
  ∃ k, idx' = (idx + k)%nat ∧ q' = q0 ++ seq idx k
       ∧ proc_inv ps (ready ++ seq idx k) idx' t t c
       ∧ (∀ j p, (idx' ≤ j)%nat → ps !! j = Some p → t < arrival p)
       ∧ (∀ p, ps !! idx = Some p → arrival p ≤ t → (0 < k)%nat).
Proof.
  intros Hinv Hfirst Hadm.
  apply (proc_inv_push_le _ _ _ ta _ _ _ _ _ Hinv).
  rewrite <- Hadm. apply push_arrivals_ext.
  intros p [j Hj]%list_elem_of_lookup. rewrite lookup_drop in Hj.
  destruct (lookup_lt_is_Some_2 ps idx) as [p0 Hp0].
  { apply lookup_lt_Some in Hj. lia. }
  assert (arrival p0 ≤ arrival p).
  { apply (pi_sorted _ _ _ _ _ _ Hinv idx (idx + j)%nat); [lia|done|done]. }
  specialize (Hfirst p0 Hp0). lia.
Qed.

Lemma initial_inv (ps : list Process) :
  key_sorted arrival ps → Forall valid_process ps →
  proc_inv ps [] 0 0 0 0 ∧ gantt_inv [] 0 ps.
Proof.
  intros Hsort Hvalid.
  assert (Hv : ∀ i p, ps !! i = Some p → valid_process p).
  { intros i p Hp. by eapply Forall_lookup_1. }
  split; constructor; try done.
  - lia.
  - intros i p Hp. destruct (Hv i p Hp) as (? & ? & ? & ?). lia.
  - intros j p _ Hp. destruct (Hv j p Hp) as (? & ? & ? & ?). done.
  - intros i p Hi. lia.
  - apply NoDup_nil_2.
  - intros i. split; [by intros ?%elem_of_nil|]. intros [Hi _]. lia.
  - intros i p Hp Hr. destruct (Hv i p Hp) as (? & ? & ? & ?). lia.
  - unfold cpu_busy. simpl. apply total_remaining_fresh.
    eapply Forall_impl; [exact Hvalid|]. by intros p (? & ? & ? & ?).
Qed.

Lemma sorted_valid {less : Process → Process → bool} (input : list Process) :
  Forall valid_process input → Forall valid_process (sort_by less input).
Proof. intros H. by rewrite sort_by_perm. Qed.

Lemma not_dispatched_idle (g : list GanttEntry) (a b : Z) :
  ¬ dispatched g (g ++ [idle_entry a b]).
Proof.
  intros (e & Heq & Hpid). apply app_inv_head in Heq. by simplify_eq.
Qed.

Lemma not_dispatched_same (g : list GanttEntry) : ¬ dispatched g g.
Proof.
  intros (e & Heq & _). apply (f_equal length) in Heq.
  rewrite length_app in Heq. simpl in Heq. lia.
Qed.

(** ** Round Robin: the invariant holds from [init] on *)

Lemma RR_init_inv (input : list Process) :
  Forall valid_process input →
  ∃ s0, RR.init input = Finished s0 ∧ RR_inv s0
        ∧ RR.procs s0 = sort_by RR.less input.
Proof.
  intros Hvalid. unfold RR.init.
  set (ps := sort_by RR.less input).
  destruct (initial_inv ps (RR_sort_arrival input) (sorted_valid input Hvalid))
    as [Hinv Hg].
  rewrite (skip_while_push _ _ _ []).
  destruct (push_arrivals (λ p, arrival p =? 0) ps 0%nat []) as [idx0 q0] eqn:Hadm0. simpl.
  assert (Hadm0' : push_arrivals (λ p, arrival p =? 0) (drop 0 ps) 0%nat [] = (idx0, q0)) by done.
  assert (Hfirst0 : ∀ p, ps !! 0%nat = Some p → 0 ≤ arrival p).
  { intros p Hp. by destruct (pi_future _ _ _ _ _ _ Hinv 0%nat p). }
  destruct (proc_inv_push_eq _ _ _ _ _ _ _ _ _ Hinv Hfirst0 Hadm0')
    as (k & -> & -> & Hinv0 & Hlate0 & _).
  simpl in *. destruct k as [|k]; simpl.
  - destruct (0 <? length ps)%nat eqn:Hn;
      [|eexists; split; [done|]; split; [by split|done]].
    apply Nat.ltb_lt in Hn.
    destruct (lookup_lt_is_Some_2 ps 0%nat Hn) as [pn Hpn]. rewrite Hpn.
    assert (Hpos : 0 < arrival pn) by (by apply (Hlate0 0%nat)).
    destruct (push_arrivals (λ p, arrival p =? arrival pn) (drop 0 ps) 0%nat [])
      as [idx1 q1] eqn:Hadm1.
    eexists. split; [done|]. split; [|done]. unfold RR_inv. simpl.
    apply (proc_inv_time _ _ _ _ 0 (arrival pn)) in Hinv0; [|lia].
    assert (Hfirst1 : ∀ p, ps !! 0%nat = Some p → arrival pn ≤ arrival p).
    { intros p Hp. simplify_eq. lia. }
    destruct (proc_inv_push_eq _ _ _ _ _ _ _ _ _ Hinv0 Hfirst1 Hadm1)
      as (k & -> & -> & Hinv1 & _).
    split; [done|]. by apply (gantt_inv_idle [] 0).
  - eexists. split; [done|]. split; [|done]. by split.
Qed.

Lemma RR_body_step (quantum : Z) (s : RR.state) :
  0 < quantum → RR_inv s →
  match RR.body quantum s with
  | Next s' =>
      RR_inv s' ∧ (RR_variant s' < RR_variant s)%nat
      ∧ (dispatched (RR.gantt s) (RR.gantt s') →
         0 ≤ total_remaining (RR.procs s') < total_remaining (RR.procs s))
  | Stop s' => RR_inv s' ∧ all_done (RR.procs s')
  | Fault => False
  end.
Proof.
  intros Hq [Hinv Hg]. destruct s as [ps q t c g idx]. simpl in *.
  unfold RR.body. simpl.
  destruct (c <? length ps)%nat eqn:Hc; simpl.
  2:{ apply Nat.ltb_ge in Hc. split; [done|]. eapply proc_inv_all_done; eauto. }
  destruct q as [|i q'].
  - destruct (idx <? length ps)%nat eqn:Hidx.
    2:{ apply Nat.ltb_ge in Hidx. split; [done|]. eapply proc_inv_all_done; eauto. }
    apply Nat.ltb_lt in Hidx.
    destruct (lookup_lt_is_Some_2 ps idx Hidx) as [pn Hpn]. rewrite Hpn.
    destruct (pi_future _ _ _ _ _ _ Hinv idx pn) as [Hle _]; [lia|done|].
    assert (Hstep : ∀ g1 time1 idx1 q1,
      time1 = arrival pn → gantt_inv g1 time1 ps →
      push_arrivals (λ p, arrival p =? time1) (drop idx ps) idx [] = (idx1, q1) →
      RR_inv (RR.mkState ps q1 time1 c g1 idx1)
      ∧ (RR_variant (RR.mkState ps q1 time1 c g1 idx1)
         < RR_variant (RR.mkState ps [] t c g idx))%nat
      ∧ True).
    { intros g1 time1 idx1 q1 -> Hg1 Hadm.
      apply (proc_inv_time _ _ _ _ t (arrival pn)) in Hinv; [|lia].
      assert (Hfirst : ∀ p, ps !! idx = Some p → arrival pn ≤ arrival p).
      { intros p Hp. simplify_eq. lia. }
      destruct (proc_inv_push_eq _ _ _ _ _ _ _ _ _ Hinv Hfirst Hadm)
        as (k & -> & -> & Hinv1 & _ & Hk).
      split; [by split|]. split; [|done].
      specialize (Hk pn Hpn ltac:(lia)). unfold RR_variant. simpl.
      destruct k; [lia|]. simpl. lia. }
    destruct (t <? arrival pn) eqn:Hlt.
    + destruct (push_arrivals _ _ _ _) as [idx1 q1] eqn:Hadm.
      destruct (Hstep (g ++ [idle_entry t (arrival pn)]) (arrival pn) idx1 q1)
        as (Hi1 & Hv1 & _); [done| |done|].
      { apply gantt_inv_idle; [done|lia]. }
      split; [done|]. split; [done|]. simpl.
      intros Hd. by apply not_dispatched_idle in Hd.
    + destruct (push_arrivals _ _ _ _) as [idx1 q1] eqn:Hadm.
      assert (t = arrival pn) as Heq by lia.
      destruct (Hstep g t idx1 q1) as (Hi1 & Hv1 & _); [exact Heq|done|done|].
      split; [done|]. split; [done|]. simpl.
      intros Hd. by apply not_dispatched_same in Hd.
  - assert (Hi : i ∈ i :: q') by left.
    apply (pi_ready _ _ _ _ _ _ Hinv) in Hi as (Hi & p & Hp & Hrem).
    rewrite Hp.
    assert (Hms : remaining (mark_start t p) = remaining p).
    { unfold mark_start. by destruct (start_time p =? -1). }
    rewrite Hms.
    set (exec := Z.min quantum (remaining p)).
    assert (Hexec : 0 < exec ≤ remaining p) by (unfold exec; lia).
    destruct (push_arrivals _ _ _ _) as [idx1 q1] eqn:Hadm.
    pose proof (dispatch_inv ps (i :: q') q' idx t c g i p exec idx1 q1
                  Hinv Hg (reflexivity _) Hp Hexec) as Hd.
    simpl in Hd. rewrite Hms in Hd. specialize (Hd Hadm).
    destruct Hd as (Hrem1 & _ & Hd).
    assert (0 ≤ total_remaining ps - exec).
    { rewrite <- Hrem1. apply total_remaining_nonneg. intros j x Hx.
      destruct (decide (i = j)) as [->|Hne].
      - rewrite list_lookup_insert_eq in Hx by (by eapply lookup_lt_Some).
        simplify_eq. simpl. lia.
      - rewrite list_lookup_insert_ne in Hx by done.
        by destruct (pi_basic _ _ _ _ _ _ Hinv j x Hx) as (_ & _ & _ & ? & _). }
    simpl. destruct (0 <? remaining p - exec) eqn:Hpos.
    + destruct Hd as [Hinv1 Hg1]. split; [by split|]. simpl.
      split; [|intros _; lia].
      unfold RR_variant. simpl. rewrite Hrem1.
      destruct (q1 ++ [i]); lia.
    + destruct Hd as (Hinv1 & Hg1 & Hrem2). split; [by split|]. simpl.
      split; [|intros _; lia].
      unfold RR_variant. simpl. rewrite Hrem2.
      destruct q1; lia.
Qed.

(** ** The priority queue *)

Lemma pq_top_None (cmp : nat → nat → bool) (l : list nat) :
  pq_top cmp l = None → l = [].
Proof.
  destruct l as [|a l]; [done|]. simpl.
  destruct (pq_top cmp l) as [b|]; [|done]. by destruct (cmp a b).
Qed.

Lemma pq_top_elem (cmp : nat → nat → bool) (l : list nat) (x : nat) :
  pq_top cmp l = Some x → x ∈ l.
Proof.
  revert x. induction l as [|a l IH]; intros x; simpl; [done|].
  destruct (pq_top cmp l) as [b|].
  - destruct (cmp a b); intros [= <-]; [right; by apply IH|left].
  - intros [= <-]. left.
Qed.

Lemma pq_remove_perm (x : nat) (l : list nat) :
  x ∈ l → l ≡ₚ x :: pq_remove x l.
Proof.
  induction l as [|a l IH]; intros Hx; [by apply elem_of_nil in Hx|]. simpl.
  destruct (a =? x)%nat eqn:E.
  - apply Nat.eqb_eq in E. by subst.
  - apply Nat.eqb_neq in E. apply elem_of_cons in Hx as [->|Hx]; [done|].
    rewrite (IH Hx) at 1. apply Permutation_swap.
Qed.

(** ** Preemptive Priority: the invariant holds from [init] on *)

Lemma PPS_init_inv (input : list Process) :
  Forall valid_process input →
  PPS_inv (PPS.init input) ∧ PPS.procs (PPS.init input) = sort_by PPS.less input.
Proof.
  intros Hvalid. unfold PPS.init.
  set (ps := sort_by PPS.less input).
  destruct (initial_inv ps (PPS_sort_arrival input) (sorted_valid input Hvalid))
    as [Hinv Hg].
  destruct (ps !! 0%nat) as [p0|] eqn:Hp0; [|by split].
  destruct (arrival p0 >? 0) eqn:Hpos; [|by split].
  split; [|done]. split; simpl.
  - apply (proc_inv_time _ _ _ _ 0 (arrival p0)) in Hinv; [|lia].
    apply (proc_inv_horizon _ _ _ 0); [done|lia|].
    intros j p _ Hp. apply (pi_sorted _ _ _ _ _ _ Hinv 0%nat j); [lia|done|done].
  - apply (gantt_inv_idle [] 0); [done|lia].
Qed.

Lemma PPS_body_step (s : PPS.state) :
  PPS_inv s →
  match PPS.body s with
  | Next s' =>
      PPS_inv s' ∧ (PPS_variant s' < PPS_variant s)%nat
      ∧ (dispatched (PPS.gantt s) (PPS.gantt s') →
         0 ≤ total_remaining (PPS.procs s') < total_remaining (PPS.procs s))
  | Stop s' => PPS_inv s' ∧ all_done (PPS.procs s')
  | Fault => False
  end.
Proof.
  intros [Hinv Hg]. destruct s as [ps pq t c g idx]. simpl in *.
  unfold PPS.body. simpl.
  destruct (c <? length ps)%nat eqn:Hc; simpl.
  2:{ apply Nat.ltb_ge in Hc. split; [done|]. eapply proc_inv_all_done; eauto. }
  unfold PPS_variant at 2. simpl.
  destruct (push_arrivals (λ p, arrival p <=? t) (drop idx ps) idx pq) as [idx1 pq1] eqn:Hadm.
  destruct (proc_inv_push_le _ _ _ _ _ _ _ _ _ Hinv Hadm)
    as (k & -> & -> & Hinv1 & Hlate & _).
  set (pq1 := pq ++ seq idx k) in *. set (idx1 := (idx + k)%nat) in *. simpl.
  destruct (pq_top (PPS.cmp ps) pq1) as [cur|] eqn:Htop.
  - apply pq_top_elem in Htop.
    pose proof (pq_remove_perm _ _ Htop) as Hperm.
    apply (pi_ready _ _ _ _ _ _ Hinv1) in Htop as (Hcur & p & Hp & Hrem).
    rewrite Hp.
    assert (Hms : remaining (mark_start t p) = remaining p).
    { unfold mark_start. by destruct (start_time p =? -1). }
    rewrite Hms.
    destruct (push_arrivals _ _ _ (pq_remove cur pq1)) as [idx2 pq3] eqn:Hadm2.
    pose proof (dispatch_inv ps pq1 (pq_remove cur pq1) idx1 t c g cur p 1 idx2 pq3
                  Hinv1 Hg Hperm Hp ltac:(lia)) as Hd.
    simpl in Hd. rewrite Hms in Hd. specialize (Hd Hadm2).
    destruct Hd as (Hrem1 & _ & Hd).
    assert (0 ≤ total_remaining ps - 1).
    { rewrite <- Hrem1. apply total_remaining_nonneg. intros j x Hx.
      destruct (decide (cur = j)) as [->|Hne].
      - rewrite list_lookup_insert_eq in Hx by (by eapply lookup_lt_Some).
        simplify_eq. simpl. lia.
      - rewrite list_lookup_insert_ne in Hx by done.
        by destruct (pi_basic _ _ _ _ _ _ Hinv j x Hx) as (_ & _ & _ & ? & _). }
    destruct (0 <? remaining p - 1) eqn:Hpos.
    + destruct Hd as [Hinv2 Hg2]. split; [by split|]. simpl.
      split; [|intros _; lia].
      unfold PPS_variant. simpl. rewrite Hrem1.
      destruct (snd _); destruct pq1; lia.
    + destruct Hd as (Hinv2 & Hg2 & Hrem2). split; [by split|]. simpl.
      split; [|intros _; lia].
      unfold PPS_variant. simpl. rewrite Hrem2.
      destruct (snd _); destruct pq1; lia.
  - apply pq_top_None in Htop. rewrite Htop in *.
    destruct (idx1 <? length ps)%nat eqn:Hidx.
    2:{ apply Nat.ltb_ge in Hidx. split; [by split|].
        eapply proc_inv_all_done; eauto. }
    apply Nat.ltb_lt in Hidx.
    destruct (lookup_lt_is_Some_2 ps idx1 Hidx) as [pn Hpn]. rewrite Hpn.
    assert (Hlt : t < arrival pn) by (by apply (Hlate idx1)).
    apply Z.ltb_lt in Hlt as Hlt'. rewrite Hlt'.
    split; [|split; [|simpl; intros Hd; by apply not_dispatched_idle in Hd]].
    + split; simpl; [|by apply gantt_inv_idle].
      apply (proc_inv_time _ _ _ _ t (arrival pn)) in Hinv1; [|lia].
      apply (proc_inv_horizon _ _ _ t); [done|lia|].
      intros j p Hj Hp. apply (pi_sorted _ _ _ _ _ _ Hinv1 idx1 j); [lia|done|done].
    + unfold PPS_variant. simpl.
      destruct (push_arrivals (λ p, arrival p <=? arrival pn) (drop idx1 ps) idx1 [])
        as [idx2 pq2] eqn:Hadm2.
      apply (proc_inv_time _ _ _ _ t (arrival pn)) in Hinv1; [|lia].
      destruct (proc_inv_push_le _ _ _ _ _ _ _ _ _ Hinv1 Hadm2)
        as (k2 & -> & -> & _ & _ & Hk).
      specialize (Hk pn Hpn ltac:(lia)). simpl.
      destruct k2; [lia|]. simpl. lia.
Qed.

(** ** The input fields are never written *)

Lemma descriptor_insert (ps : list Process) (i : nat) (p p' : Process) :
  ps !! i = Some p → descriptor p' = descriptor p →
  descriptor <$> <[i := p']> ps = descriptor <$> ps.
Proof.
  intros Hp Hd. rewrite list_fmap_insert, Hd.
  apply list_insert_id. by rewrite list_lookup_fmap, Hp.
Qed.

Lemma descriptor_run (ps : list Process) (i : nat) (p : Process) (t r : Z) :
  ps !! i = Some p →
  descriptor <$> <[i := set_remaining r (mark_start t p)]> ps = descriptor <$> ps.
Proof.
  intros Hp. apply (descriptor_insert _ _ p); [done|].
  unfold mark_start. by destruct (start_time p =? -1).
Qed.

Lemma descriptor_finalize (ps : list Process) (i : nat) (p : Process) (t t' r : Z) :
  ps !! i = Some p →
  descriptor <$> <[i := finalize t' (set_remaining r (mark_start t p))]>
                   (<[i := set_remaining r (mark_start t p)]> ps)
  = descriptor <$> ps.
Proof.
  intros Hp. rewrite list_insert_insert_eq. apply (descriptor_insert _ _ p); [done|].
  unfold mark_start. by destruct (start_time p =? -1).
Qed.

Lemma RR_body_descriptor (quantum : Z) (s : RR.state) :
  match RR.body quantum s with
  | Next s' | Stop s' => descriptor <$> RR.procs s' = descriptor <$> RR.procs s
  | Fault => True
  end.
Proof.
  unfold RR.body. destruct s as [ps q t c g idx]. simpl.
  destruct (negb _); [done|].
  destruct q as [|i q'].
  - destruct (idx <? length ps)%nat; [|done].
    destruct (ps !! idx); [|done].
    destruct (t <? arrival _); by destruct (push_arrivals _ _ _ _).
  - destruct (ps !! i) as [p|] eqn:Hp; [|done].
    destruct (push_arrivals _ _ _ _). destruct (0 <? _); simpl.
    + by apply descriptor_run.
    + by apply descriptor_finalize.
Qed.

Lemma PPS_body_descriptor (s : PPS.state) :
  match PPS.body s with
  | Next s' | Stop s' => descriptor <$> PPS.procs s' = descriptor <$> PPS.procs s
  | Fault => True
  end.
Proof.
  unfold PPS.body. destruct s as [ps pq t c g idx]. simpl.
  destruct (negb _); [done|].
  destruct (push_arrivals _ _ _ _) as [idx1 pq1].
  destruct (pq_top _ _) as [cur|].
  - destruct (ps !! cur) as [p|] eqn:Hp; [|done].
    destruct (push_arrivals _ _ _ _). destruct (0 <? _); simpl.
    + by apply descriptor_run.
    + by apply descriptor_finalize.
  - destruct (idx1 <? length ps)%nat; [|done].
    destruct (ps !! idx1); [|done].
    by destruct (t <? arrival _).
Qed.

Lemma total_burst_descriptor (ps ps' : list Process) :
  descriptor <$> ps = descriptor <$> ps' → total_burst ps = total_burst ps'.
Proof.
  revert ps'. induction ps as [|p ps IH]; intros [|p' ps'] Heq; simpl in *; try done.
  injection Heq as Hpid Harr Hb Hprio Hrest.
  rewrite (IH ps' Hrest). lia.
Qed.

Lemma total_burst_positive (ps : list Process) :
  ps ≠ [] → Forall valid_process ps → 0 < total_burst ps.
Proof.
  intros Hne Hv. assert (Hnn : ∀ l, Forall valid_process l → 0 ≤ total_burst l).
  { induction 1 as [|p l (? & ? & ? & ?) _ IH]; simpl; lia. }
  destruct Hv as [|p l (? & ? & ? & ?) Hl]; [done|]. simpl.
  specialize (Hnn l Hl). lia.
Qed.

Lemma chain_end_positive (t0 t : Z) (g : list GanttEntry) :
  chain t0 g t → g ≠ [] → t0 < t.
Proof.
  destruct g as [|e g]; [done|]. simpl. intros (? & ? & Hc%chain_le) _. lia.
Qed.

(** From the invariants of a final state to [good_run]. *)
Lemma final_good_run (input sorted : list Process) g t ps :
  valid_procs input → sorted ≡ₚ input →
  gantt_inv g t ps → all_done ps →
  descriptor <$> ps = descriptor <$> sorted →
  good_run input sorted g ps.
Proof.
  intros (Hne & _ & Hvalid) Hperm [Hchain Hwork] Hdone Hdesc.
  assert (Hbusy : cpu_busy g = total_burst input).
  { rewrite (total_remaining_zero ps) in Hwork.
    - rewrite (total_burst_descriptor _ _ Hdesc), (total_burst_perm _ _ Hperm) in Hwork. lia.
    - intros i p Hp. by destruct (Forall_lookup_1 _ _ _ _ Hdone Hp). }
  assert (Hg : g ≠ []).
  { intros ->. pose proof (total_burst_positive input Hne Hvalid).
    unfold cpu_busy in Hbusy. simpl in Hbusy. lia. }
  unfold good_run. rewrite (chain_makespan 0 t g Hchain Hg). done.
Qed.

(** ** Both engines end, in a state that satisfies the invariants *)

Lemma RR_good (input : list Process) (quantum : Z) :
  valid_procs input → 0 < quantum →
  ∃ fuel g ps, round_robin fuel input quantum = Finished (g, ps)
               ∧ good_run input (sort_by RR.less input) g ps.
Proof.
  intros Hvalid Hq. pose proof Hvalid as (_ & _ & Hv).
  destruct (RR_init_inv input Hv) as (s0 & Hinit & Hinv0 & Hprocs0).
  set (I := λ s, RR_inv s ∧ descriptor <$> RR.procs s = descriptor <$> sort_by RR.less input).
  destruct (loop_terminates (RR.body quantum) I (λ s, all_done (RR.procs s)) RR_variant)
    with (s := s0) as (s & Hrun & [[Hinv Hg] Hdesc] & Hdone).
  { intros s1 [Hinv1 Hdesc1].
    pose proof (RR_body_step quantum s1 Hq Hinv1) as Hstep.
    pose proof (RR_body_descriptor quantum s1) as Hd.
    destruct (RR.body quantum s1) as [s2|s2|]; [| |done].
    - destruct Hstep as (? & ? & _). split; [split|]; [done| |done]. by rewrite Hd.
    - destruct Hstep as (? & ?). split; [split|]; [done| |done]. by rewrite Hd. }
  { split; [done|]. by rewrite Hprocs0. }
  exists (S (RR_variant s0)), (RR.gantt s), (RR.procs s).
  unfold round_robin, RR.run_from. rewrite Hinit, Hrun. split; [done|].
  eapply final_good_run; eauto. apply sort_by_perm.
Qed.

Lemma PPS_good (input : list Process) :
  valid_procs input →
  ∃ fuel g ps, preemptive_priority fuel input = Finished (g, ps)
               ∧ good_run input (sort_by PPS.less input) g ps.
Proof.
  intros Hvalid. pose proof Hvalid as (_ & _ & Hv).
  destruct (PPS_init_inv input Hv) as (Hinv0 & Hprocs0).
  set (I := λ s, PPS_inv s ∧ descriptor <$> PPS.procs s = descriptor <$> sort_by PPS.less input).
  destruct (loop_terminates PPS.body I (λ s, all_done (PPS.procs s)) PPS_variant)
    with (s := PPS.init input) as (s & Hrun & [[Hinv Hg] Hdesc] & Hdone).
  { intros s1 [Hinv1 Hdesc1].
    pose proof (PPS_body_step s1 Hinv1) as Hstep.
    pose proof (PPS_body_descriptor s1) as Hd.
    destruct (PPS.body s1) as [s2|s2|]; [| |done].
    - destruct Hstep as (? & ? & _). split; [split|]; [done| |done]. by rewrite Hd.
    - destruct Hstep as (? & ?). split; [split|]; [done| |done]. by rewrite Hd. }
  { split; [done|]. by rewrite Hprocs0. }
  exists (S (PPS_variant (PPS.init input))), (PPS.gantt s), (PPS.procs s).
  unfold preemptive_priority, PPS.run_from. rewrite Hrun. split; [done|].
  eapply final_good_run; eauto. apply sort_by_perm.
Qed.

(** A run that ends has one result, whatever the fuel. *)
Lemma round_robin_deterministic fuel fuel' input quantum r r' :
  round_robin fuel input quantum = Finished r →
  round_robin fuel' input quantum = Finished r' → r = r'.
Proof.
  unfold round_robin, RR.run_from. destruct (RR.init input) as [s0| |]; try done.
  destruct (loop _ fuel s0) as [s| |] eqn:H1; try done.
  destruct (loop _ fuel' s0) as [s'| |] eqn:H2; try done.
  intros [= <-] [= <-].
  destruct (Nat.le_ge_cases fuel fuel') as [Hle|Hle].
  - rewrite (loop_fuel_mono _ _ _ _ _ H1 Hle) in H2. by simplify_eq.
  - rewrite (loop_fuel_mono _ _ _ _ _ H2 Hle) in H1. by simplify_eq.
Qed.

(** ** Reachable states satisfy the invariants *)


Lemma PPS_reaches_inv (s0 s : PPS.state) :
  PPS_inv s0 → reaches PPS.body s0 s → PPS_inv s.
Proof.
  intros H0 Hreach. induction Hreach as [|s s' _ IH Hbody]; [done|].
  pose proof (PPS_body_step s IH) as Hstep.
  rewrite Hbody in Hstep. by destruct Hstep.
Qed.

(** ** The sample data set *)

Lemma load_sample_valid : valid_procs load_sample.
Proof.
  split; [done|]. split.
  - apply (bool_decide_unpack _). by vm_compute.
  - unfold load_sample, valid_process.
    repeat (apply Forall_cons; split; [simpl; lia|]). apply Forall_nil_2.
Defined.

(** * Runs over the integers: scenarios and queue order *)

(** The timing fields of a row of the final table. *)
Lemma finalized_row (p : Process) :
  finalized_ok p →
  arrival p + burst p ≤ completion_time p
  ∧ 0 ≤ waiting_time p
  ∧ burst p ≤ turnaround_time p
  ∧ turnaround_time p = completion_time p - arrival p
  ∧ waiting_time p = turnaround_time p - burst p.
Proof. unfold finalized_ok. lia. Qed.

(** ** Preemptive Priority runs a process one tick at a time *)

Lemma PPS_body_unit (s : PPS.state) :
  unit_ticks (PPS.gantt s) →
  match PPS.body s with
  | Next s' | Stop s' => unit_ticks (PPS.gantt s')
  | Fault => True
  end.
Proof.
  intros Hu. unfold PPS.body. destruct s as [ps pq t c g idx]. simpl in *.
  destruct (negb _); [done|].
  destruct (push_arrivals _ _ _ _) as [idx1 pq1].
  destruct (pq_top _ _) as [cur|].
  - destruct (ps !! cur) as [p|]; [|done].
    assert (Hu1 : unit_ticks (g ++ [mkGantt (pid (mark_start t p)) t (t + 1)])).
    { apply Forall_app. split; [done|]. apply Forall_singleton. by intros _. }
    destruct (push_arrivals _ _ _ _). by destruct (0 <? _).
  - destruct (idx1 <? length ps)%nat; [|done].
    destruct (ps !! idx1) as [pn|]; [|done].
    destruct (t <? arrival pn); [|done]. simpl.
    apply Forall_app. split; [done|]. apply Forall_singleton. by intros [].
Qed.

Lemma PPS_init_unit (input : list Process) : unit_ticks (PPS.gantt (PPS.init input)).
Proof.
  unfold PPS.init. destruct (sort_by PPS.less input !! 0%nat) as [p0|]; [|by constructor].
  destruct (arrival p0 >? 0); [|by constructor].
  apply Forall_singleton. by intros [].
Qed.

(** ** Round Robin: arrivals at the end of a slice *)



(** ** The Round Robin scenario *)

(** C4, as the spec states it: P1 is first dispatched at tick 0 and the
    timeline begins [P1:0-2][P2:2-4][P1:4-5].  No run of Round Robin on the
    sample set with quantum 2 has such a timeline. *)
Lemma rr_scenario_as_stated_fails :
  ¬ ∃ fuel g ps, round_robin fuel load_sample 2 = Finished (g, ps)
                 ∧ take 3 g = [mkGantt 1 0 2; mkGantt 2 2 4; mkGantt 1 4 5].
Proof.
  intros (fuel & g & ps & Hrun & Htake).
  assert (H13 : ∃ r, round_robin 13 load_sample 2 = Finished r
                     ∧ take 3 (fst r) = [mkGantt 1 0 2; mkGantt 2 2 4; mkGantt 3 4 6]).
  { eexists. split; [vm_compute; reflexivity|reflexivity]. }
  destruct H13 as (r & Hrun13 & Htake13).
  rewrite <- (round_robin_deterministic _ _ _ _ _ _ Hrun Hrun13) in Htake13.
  simpl in Htake13. rewrite Htake in Htake13. discriminate.
Qed.

(** C4, amended.  Round Robin on the sample set with quantum 2 dispatches P1
    first at tick 0, and its timeline begins [P1:0-2][P2:2-4][P3:4-6]: P3,
    which arrived at tick 2, is queued ahead of the preempted P1. *)
Theorem rr_scenario :
  ∃ fuel g ps p1,
    round_robin fuel load_sample 2 = Finished (g, ps)
    ∧ ps !! 0%nat = Some p1 ∧ pid p1 = 1 ∧ start_time p1 = 0
    ∧ take 3 g = [mkGantt 1 0 2; mkGantt 2 2 4; mkGantt 3 4 6]
    ∧ g = [mkGantt 1 0 2; mkGantt 2 2 4; mkGantt 3 4 6; mkGantt 1 6 8;
           mkGantt 4 8 10; mkGantt 2 10 11; mkGantt 3 11 13; mkGantt 1 13 14;
           mkGantt 4 14 16; mkGantt 3 16 18; mkGantt 4 18 20; mkGantt 3 20 22].
Proof.
  exists 13%nat. eexists _, _, _.
  split; [vm_compute; reflexivity|].
  split; [reflexivity|]. split; [reflexivity|]. split; [reflexivity|].
  split; reflexivity.
Qed.

(** ** Indices stay within the process vector *)


Lemma push_arrivals_in_bounds test ps idx q idx' q' :
  in_bounds ps q idx →
  push_arrivals test (drop idx ps) idx q = (idx', q') →
  in_bounds ps q' idx'.
Proof.
  intros [Hidx Hq] Hadm.
  destruct (push_arrivals_spec test (drop idx ps) idx q) as (k & Heq & Hk & _).
  rewrite Hadm in Heq. injection Heq as -> ->. rewrite length_drop in Hk.
  split; [lia|]. intros i [Hi|Hi]%elem_of_app; [by apply Hq|].
  apply elem_of_seq in Hi. lia.
Qed.

Lemma in_bounds_insert ps q idx i x :
  in_bounds ps q idx → in_bounds (<[i := x]> ps) q idx.
Proof. unfold in_bounds. by rewrite length_insert. Qed.

Lemma in_bounds_requeue ps q idx i :
  in_bounds ps q idx → (i < length ps)%nat → in_bounds ps (q ++ [i]) idx.
Proof.
  intros [Hidx Hq] Hi. split; [done|].
  intros j [Hj|Hj%list_elem_of_singleton]%elem_of_app; [by apply Hq|by subst].
Qed.

Lemma in_bounds_tail ps i q idx : in_bounds ps (i :: q) idx → in_bounds ps q idx.
Proof. intros [Hidx Hq]. split; [done|]. intros j Hj. apply Hq. by right. Qed.


Lemma RR_init_bounds (input : list Process) :
  match RR.init input with
  | Finished s0 => in_bounds (RR.procs s0) (RR.q s0) (RR.idx_next_arrival s0)
  | OutOfFuel => True
  | OutOfBounds => False
  end.
Proof.
  unfold RR.init. set (ps := sort_by RR.less input).
  assert (H0 : in_bounds ps [] 0) by (split; [lia|by intros ? ?%elem_of_nil]).
  rewrite (skip_while_push _ _ _ []).
  destruct (push_arrivals (λ p, arrival p =? 0) ps 0%nat []) as [idx0 q0] eqn:Hadm0. simpl.
  assert (H1 : in_bounds ps q0 idx0)
    by exact (push_arrivals_in_bounds _ ps 0%nat [] idx0 q0 H0 Hadm0).
  destruct q0 as [|i q0]; [|done].
  destruct (idx0 <? length ps)%nat eqn:Hn; [|done].
  apply Nat.ltb_lt in Hn.
  destruct (lookup_lt_is_Some_2 ps idx0 Hn) as [pn Hpn]. rewrite Hpn.
  clear Hadm0.
  destruct (push_arrivals _ (drop idx0 ps) _ _) as [idx1 q1] eqn:Hadm1. simpl.
  by eapply push_arrivals_in_bounds.
Qed.

Lemma RR_body_bounds (quantum : Z) (s : RR.state) :
  in_bounds (RR.procs s) (RR.q s) (RR.idx_next_arrival s) →
  match RR.body quantum s with
  | Next s' | Stop s' => in_bounds (RR.procs s') (RR.q s') (RR.idx_next_arrival s')
  | Fault => False
  end.
Proof.
  intros Hb. unfold RR.body. destruct s as [ps q t c g idx]. simpl in *.
  destruct (negb _); [done|].
  destruct q as [|i q'].
  - destruct (idx <? length ps)%nat eqn:Hn; [|done].
    apply Nat.ltb_lt in Hn.
    destruct (lookup_lt_is_Some_2 ps idx Hn) as [pn Hpn]. rewrite Hpn.
    destruct (t <? arrival pn); destruct (push_arrivals _ _ _ _) as [idx1 q1] eqn:Hadm;
      simpl; by eapply push_arrivals_in_bounds.
  - assert (Hi : (i < length ps)%nat) by (apply Hb; left).
    destruct (lookup_lt_is_Some_2 ps i Hi) as [p Hp]. rewrite Hp.
    destruct (push_arrivals _ _ _ _) as [idx1 q1] eqn:Hadm.
    apply in_bounds_tail in Hb.
    apply (in_bounds_insert _ _ _ i
             (set_remaining (remaining (mark_start t p)
                             - Z.min quantum (remaining (mark_start t p)))
                            (mark_start t p))) in Hb.
    pose proof (push_arrivals_in_bounds _ _ _ _ _ _ Hb Hadm) as Hb1.
    destruct (0 <? _); simpl.
    + apply in_bounds_requeue; [done|]. by rewrite length_insert.
    + by apply in_bounds_insert.
Qed.


(** * Adequacy of the models of [std::sort] and [std::priority_queue]

    With pairwise distinct identities, what the standard promises of [sort]
    and of [top] leaves one result only, the one of the embedding. *)

Ltac order_cases :=
  repeat match goal with
         | H : context [?a =? ?b] |- _ => destruct (Z.eqb_spec a b); simpl in H
         | |- context [?a =? ?b] => destruct (Z.eqb_spec a b); simpl
         end;
  rewrite ?Z.gtb_ltb in *; rewrite ?Z.ltb_lt, ?Z.ltb_ge in *; try lia.

Section SortAdequacy.
Context {A : Type} (less : A → A → bool).
Hypothesis less_asym : ∀ a b, less a b = true → less b a = false.
Hypothesis less_negtrans :
  ∀ a b c, less b a = false → less c b = false → less c a = false.

Lemma insert_sorted_std (x : A) (l : list A) :
  std_sorted less l → std_sorted less (insert_sorted less x l).
Proof.
  unfold std_sorted. induction l as [|y l IH]; intros Hl; simpl.
  - by repeat constructor.
  - apply StronglySorted_inv in Hl as [Hl Hy].
    destruct (less y x) eqn:Hyx.
    + constructor; [by apply IH|].
      rewrite insert_sorted_perm. constructor; [by apply less_asym|done].
    + constructor; [by constructor|]. constructor; [done|].
      eapply Forall_impl; [exact Hy|]. simpl. intros z Hz.
      by apply (less_negtrans x y z).
Qed.

Lemma sort_by_std (l : list A) : std_sorted less (sort_by less l).
Proof.
  induction l as [|x l IH]; [constructor|].
  unfold sort_by in *. simpl. by apply insert_sorted_std.
Qed.
End SortAdequacy.

Lemma NoDup_pid_inj (l : list Process) (a b : Process) :
  NoDup (pid <$> l) → a ∈ l → b ∈ l → pid a = pid b → a = b.
Proof.
  intros Hnd [i Hi]%list_elem_of_lookup [j Hj]%list_elem_of_lookup Hpid.
  assert (i = j) as ->; [|congruence].
  apply (NoDup_lookup (pid <$> l) i j (pid a)); [done| |].
  - by rewrite list_lookup_fmap, Hi.
  - by rewrite list_lookup_fmap, Hj, Hpid.
Qed.

(** Every vector that [std::sort] may leave for the comparator of Round
    Robin is the one of [sort_by]. *)
Lemma RR_sort_adequate (input out : list Process) :
  NoDup (pid <$> input) → out ≡ₚ input → std_sorted RR.less out →
  out = sort_by RR.less input.
Proof.
  intros Hnd Hperm Hout.
  apply (StronglySorted_unique_strong (λ a b, RR.less b a = false)); [|done| |].
  - intros a b Ha Hb Hab Hba. apply (NoDup_pid_inj input); [done|by rewrite <- Hperm| |].
    + rewrite sort_by_perm in Hb. done.
    + unfold RR.less in *. order_cases.
  - apply sort_by_std; intros a b; [|intros c]; unfold RR.less; order_cases.
  - by rewrite sort_by_perm.
Qed.

Lemma PPS_sort_adequate (input out : list Process) :
  NoDup (pid <$> input) → out ≡ₚ input → std_sorted PPS.less out →
  out = sort_by PPS.less input.
Proof.
  intros Hnd Hperm Hout.
  apply (StronglySorted_unique_strong (λ a b, PPS.less b a = false)); [|done| |].
  - intros a b Ha Hb Hab Hba. apply (NoDup_pid_inj input); [done|by rewrite <- Hperm| |].
    + rewrite sort_by_perm in Hb. done.
    + unfold PPS.less in *. order_cases.
  - apply sort_by_std; intros a b; [|intros c]; unfold PPS.less; order_cases.
  - by rewrite sort_by_perm.
Qed.

(** [pq_top] returns a top of the queue. *)
Lemma pq_top_is_top (ps : list Process) (pq : list nat) (m : nat) :
  (∀ x, x ∈ pq → is_Some (ps !! x)) →
  pq_top (PPS.cmp ps) pq = Some m → is_top (PPS.cmp ps) pq m.
Proof.
  intros Hok Htop. split; [by eapply pq_top_elem|].
  revert m Hok Htop. induction pq as [|a pq IH]; intros m Hok Htop; [done|].
  simpl in Htop.
  assert (Hok' : ∀ x, x ∈ pq → is_Some (ps !! x)).
  { intros x Hx. apply Hok. by right. }
  destruct (Hok a) as [pa Hpa]; [left|].
  destruct (pq_top (PPS.cmp ps) pq) as [b|] eqn:Hb.
  - specialize (IH b Hok' eq_refl).
    destruct (Hok' b) as [pb Hpb]; [by eapply pq_top_elem|].
    destruct (PPS.cmp ps a b) eqn:Hab; injection Htop as <-.
    + intros x [->|Hx]%elem_of_cons; [|by apply IH].
      unfold PPS.cmp in *. rewrite Hpa, Hpb in *. order_cases.
    + intros x [->|Hx]%elem_of_cons.
      * unfold PPS.cmp. rewrite Hpa. order_cases.
      * specialize (IH x Hx). destruct (Hok' x Hx) as [px Hpx].
        unfold PPS.cmp in *. rewrite Hpa, Hpb, ?Hpx in *. order_cases.
  - injection Htop as <-. apply pq_top_None in Hb as ->.
    intros x [->|Hx]%elem_of_cons; [|by apply elem_of_nil in Hx].
    unfold PPS.cmp. rewrite Hpa. order_cases.
Qed.

(** With distinct identities the queue has one top only. *)
Lemma is_top_unique (ps : list Process) (pq : list nat) (m m' : nat) :
  NoDup (pid <$> ps) → (∀ x, x ∈ pq → is_Some (ps !! x)) →
  is_top (PPS.cmp ps) pq m → is_top (PPS.cmp ps) pq m' → m = m'.
Proof.
  intros Hnd Hok [Hm Hmax] [Hm' Hmax'].
  destruct (Hok m Hm) as [p Hp]. destruct (Hok m' Hm') as [p' Hp'].
  specialize (Hmax m' Hm'). specialize (Hmax' m Hm).
  apply (NoDup_lookup (pid <$> ps) m m' (pid p)); [done| |].
  - by rewrite list_lookup_fmap, Hp.
  - rewrite list_lookup_fmap, Hp'. simpl. f_equal.
    unfold PPS.cmp in *. rewrite Hp, Hp' in *. order_cases.
Qed.

(** * Further properties of the engines *)

(** ** The intervals of one process *)

Lemma intervals_of_snoc (who : Z) (g : list GanttEntry) (e : GanttEntry) :
  intervals_of who (g ++ [e])
  = intervals_of who g ++ (if decide (g_pid e = who) then [e] else []).
Proof. unfold intervals_of. by rewrite filter_app, filter_singleton. Qed.

Lemma total_duration_app (l1 l2 : list GanttEntry) :
  total_duration (l1 ++ l2) = total_duration l1 + total_duration l2.
Proof. induction l1 as [|e l1 IH]; simpl; [done|]. rewrite IH. lia. Qed.

Lemma track_other (F : Prop) (g : list GanttEntry) (t t' : Z) (p : Process)
      (e : GanttEntry) :
  proc_track F g t p → g_pid e ≠ pid p → t ≤ t' → proc_track F (g ++ [e]) t' p.
Proof.
  intros (Hsum & Hnew & Hrun & Hfin) Hne Hle. unfold proc_track.
  rewrite intervals_of_snoc. destruct (decide (g_pid e = pid p)); [done|].
  rewrite app_nil_r. split; [done|]. split; [done|]. split; [|done].
  intros Hlt HF. destruct (Hrun Hlt HF) as (? & ? & ?). split; [done|]. lia.
Qed.

Lemma track_run (F : Prop) (g : list GanttEntry) (t exec : Z) (p p' : Process) :
  proc_track F g t p →
  0 < exec ≤ remaining p → remaining p ≤ burst p → 0 ≤ arrival p ≤ t →
  descriptor p' = descriptor p →
  remaining p' = remaining p - exec →
  start_time p' = start_time (mark_start t p) →
  (remaining p' = 0 → completion_time p' = t + exec) →
  proc_track F (g ++ [mkGantt (pid p) t (t + exec)]) (t + exec) p'.
Proof.
  intros (Hsum & Hnew & Hrun & Hfin) Hexec Hle Harr Hdesc Hrem Hstart Hdone.
  injection Hdesc as Hpid Ha Hb _.
  assert (Hstarted : F →
    g_start <$> head (intervals_of (pid p) g ++ [mkGantt (pid p) t (t + exec)])
    = Some (start_time p')
    ∧ arrival p ≤ start_time p'
    ∧ start_time p' + (burst p - (remaining p - exec)) ≤ t + exec).
  { intros HF. rewrite Hstart. unfold mark_start.
    destruct (decide (remaining p = burst p)) as [Heq|Hne].
    - destruct (Hnew Heq) as [-> Hs]. rewrite (Hs HF). simpl. split; [done|]. lia.
    - destruct (Hrun ltac:(lia) HF) as (Hhead & H1 & H2).
      destruct (start_time p =? -1) eqn:E; [apply Z.eqb_eq in E; lia|].
      split; [|lia].
      destruct (intervals_of (pid p) g) as [|e0 l]; [done|]. done. }
  unfold proc_track. rewrite Hpid, Ha, Hb, Hrem, intervals_of_snoc. simpl.
  destruct (decide (pid p = pid p)); [|done].
  rewrite total_duration_app. simpl. unfold duration. simpl.
  split; [lia|]. split; [intros; lia|]. split.
  - intros _ HF. by apply Hstarted.
  - intros H0. rewrite last_snoc. simpl. rewrite Hdone by lia. split; [done|].
    intros HF. destruct (Hstarted HF) as (_ & _ & ?). lia.
Qed.

(** ** Preservation of the extended invariant *)

Lemma ext_idle (F : Prop) (A : Z) ps g t t' :
  ext_inv F A ps g t → t ≤ t' → t' ≤ A → ext_inv F A ps (g ++ [idle_entry t t']) t'.
Proof.
  intros [Hnd Hst Hbusy Hbound Htrack] Hle HA.
  constructor; try done.
  - rewrite cpu_busy_snoc. simpl. lia.
  - rewrite cpu_busy_snoc. simpl. lia.
  - intros i p Hp. apply (track_other _ _ t); [by eapply Htrack| |done].
    simpl. destruct (Hst i p Hp) as (? & _). unfold idle_pid. lia.
Qed.

Lemma ext_run (F : Prop) (A : Z) ps g t i p p' exec :
  ext_inv F A ps g t →
  ps !! i = Some p →
  0 < exec ≤ remaining p → remaining p ≤ burst p → 0 ≤ arrival p ≤ t →
  descriptor p' = descriptor p →
  remaining p' = remaining p - exec →
  start_time p' = start_time (mark_start t p) →
  (remaining p' = 0 → completion_time p' = t + exec) →
  ext_inv F A (<[i := p']> ps) (g ++ [mkGantt (pid p) t (t + exec)]) (t + exec).
Proof.
  intros [Hnd Hst Hbusy Hbound Htrack] Hp Hexec Hle Harr Hdesc Hrem Hstart Hdone.
  assert (Hlen : (i < length ps)%nat) by (by eapply lookup_lt_Some).
  pose proof Hdesc as Hdesc'. injection Hdesc' as Hpid Ha Hb _.
  destruct (Hst i p Hp) as (Hpos & HA & Hbpos).
  assert (Hpids : pid <$> <[i := p']> ps = pid <$> ps).
  { rewrite list_fmap_insert, Hpid. apply list_insert_id.
    by rewrite list_lookup_fmap, Hp. }
  assert (Hbusy' : cpu_busy (g ++ [mkGantt (pid p) t (t + exec)]) = cpu_busy g + exec).
  { rewrite cpu_busy_snoc. simpl.
    destruct (pid p =? -1) eqn:E; [apply Z.eqb_eq in E; lia|]. simpl. lia. }
  constructor.
  - by rewrite Hpids.
  - intros j x Hx. destruct (decide (i = j)) as [->|Hne].
    + rewrite list_lookup_insert_eq in Hx by done. simplify_eq. lia.
    + rewrite list_lookup_insert_ne in Hx by done. by eapply Hst.
  - lia.
  - lia.
  - intros j x Hx. destruct (decide (i = j)) as [->|Hne].
    + rewrite list_lookup_insert_eq in Hx by done. simplify_eq.
      apply track_run; try done; [by eapply Htrack|unfold descriptor; congruence].
    + rewrite list_lookup_insert_ne in Hx by done.
      apply (track_other _ _ t); [by eapply Htrack| |lia].
      simpl. intros Heq. apply Hne.
      apply (NoDup_lookup (pid <$> ps) i j (pid p)); [done| |].
      * by rewrite list_lookup_fmap, Hp.
      * by rewrite list_lookup_fmap, Hx, Heq.
Qed.

Lemma ext_initial (F : Prop) (A : Z) (ps : list Process) :
  NoDup (pid <$> ps) → Forall valid_process ps → (F → fresh_procs ps) →
  Forall (λ p, arrival p ≤ A) ps → 0 ≤ A →
  ext_inv F A ps [] 0.
Proof.
  intros Hnd Hv Hfresh HA HA0. constructor; try done.
  - intros i p Hp. destruct (Forall_lookup_1 _ _ _ _ Hv Hp) as (? & _ & ? & _).
    split; [done|]. split; [|done]. by apply (Forall_lookup_1 _ _ _ _ HA Hp).
  - unfold cpu_busy. simpl. lia.
  - intros i p Hp. destruct (Forall_lookup_1 _ _ _ _ Hv Hp) as (? & ? & ? & Hrem).
    unfold proc_track, intervals_of. simpl.
    split; [lia|]. split; [|split; intros; lia].
    intros _. split; [done|]. intros HF.
    apply (Forall_lookup_1 _ _ _ _ (Hfresh HF) Hp).
Qed.

Lemma mark_start_fields (t : Z) (p : Process) :
  descriptor (mark_start t p) = descriptor p
  ∧ remaining (mark_start t p) = remaining p.
Proof. unfold mark_start. by destruct (start_time p =? -1). Qed.

Lemma RR_body_ext (F : Prop) (A quantum : Z) (s : RR.state) :
  0 < quantum → RR_inv s →
  ext_inv F A (RR.procs s) (RR.gantt s) (RR.time s) →
  match RR.body quantum s with
  | Next s' | Stop s' => ext_inv F A (RR.procs s') (RR.gantt s') (RR.time s')
  | Fault => True
  end.
Proof.
  intros Hq [Hinv Hg] Hext. destruct s as [ps q t c g idx]. simpl in *.
  unfold RR.body. simpl.
  destruct (negb _); [done|].
  destruct q as [|i q'].
  - destruct (idx <? length ps)%nat eqn:Hidx; [|done].
    apply Nat.ltb_lt in Hidx.
    destruct (ps !! idx) as [pn|] eqn:Hpn; [|done].
    destruct (t <? arrival pn) eqn:Hlt;
      destruct (push_arrivals _ _ _ _) as [idx1 q1]; simpl; [|done].
    apply ext_idle; [done|lia|].
    by destruct (ei_static _ _ _ _ _ Hext idx pn Hpn) as (_ & ? & _).
  - assert (Hi : i ∈ i :: q') by left.
    apply (pi_ready _ _ _ _ _ _ Hinv) in Hi as (Hi & p & Hp & Hrem).
    rewrite Hp.
    destruct (mark_start_fields t p) as [Hmd Hms].
    pose proof Hmd as Hmd'. injection Hmd' as Hmpid _ _ _.
    rewrite Hms, Hmpid.
    set (exec := Z.min quantum (remaining p)).
    assert (Hexec : 0 < exec ≤ remaining p) by (unfold exec; lia).
    destruct (pi_basic _ _ _ _ _ _ Hinv i p Hp) as (_ & Harr & _ & _ & Hle).
    pose proof (pi_past _ _ _ _ _ _ Hinv i p Hi Hp) as Hpast.
    destruct (push_arrivals _ _ _ _) as [idx1 q1].
    destruct (0 <? remaining p - exec) eqn:Hpos; simpl.
    + apply ext_run; try done; try lia. simpl. intros H0.
      apply Z.ltb_lt in Hpos. lia.
    + rewrite list_insert_insert_eq. by apply ext_run; try done; try lia.
Qed.

Lemma PPS_body_ext (F : Prop) (A : Z) (s : PPS.state) :
  PPS_inv s →
  ext_inv F A (PPS.procs s) (PPS.gantt s) (PPS.time s) →
  match PPS.body s with
  | Next s' | Stop s' => ext_inv F A (PPS.procs s') (PPS.gantt s') (PPS.time s')
  | Fault => True
  end.
Proof.
  intros [Hinv Hg] Hext. destruct s as [ps pq t c g idx]. simpl in *.
  unfold PPS.body. simpl.
  destruct (negb _); [done|].
  destruct (push_arrivals (λ p, arrival p <=? t) (drop idx ps) idx pq)
    as [idx1 pq1] eqn:Hadm.
  destruct (proc_inv_push_le _ _ _ _ _ _ _ _ _ Hinv Hadm)
    as (k & -> & -> & Hinv1 & Hlate & _).
  destruct (pq_top _ _) as [cur|] eqn:Htop.
  - apply pq_top_elem in Htop.
    apply (pi_ready _ _ _ _ _ _ Hinv1) in Htop as (Hcur & p & Hp & Hrem).
    rewrite Hp.
    destruct (mark_start_fields t p) as [Hmd Hms].
    pose proof Hmd as Hmd'. injection Hmd' as Hmpid _ _ _.
    rewrite Hms, Hmpid.
    destruct (pi_basic _ _ _ _ _ _ Hinv1 cur p Hp) as (_ & Harr & _ & _ & Hle).
    pose proof (pi_past _ _ _ _ _ _ Hinv1 cur p Hcur Hp) as Hpast.
    destruct (push_arrivals _ _ _ (pq_remove _ _)) as [idx2 pq3].
    destruct (0 <? remaining p - 1) eqn:Hpos; simpl.
    + apply ext_run; try done; try lia. simpl. intros H0.
      apply Z.ltb_lt in Hpos. lia.
    + rewrite list_insert_insert_eq. by apply ext_run; try done; try lia.
  - destruct (idx + k <? length ps)%nat eqn:Hidx; [|done].
    destruct (ps !! (idx + k)%nat) as [pn|] eqn:Hpn; [|done].
    destruct (t <? arrival pn) eqn:Hlt; simpl; [|done].
    apply ext_idle; [done|lia|].
    by destruct (ei_static _ _ _ _ _ Hext _ pn Hpn) as (_ & ? & _).
Qed.

Section TrackedInit.
Context (A : Z) (input : list Process) (less : Process → Process → bool).
Hypothesis Hvalid : valid_procs input.
Hypothesis HA : Forall (λ p, arrival p ≤ A) input.

Lemma bound_nonneg : 0 ≤ A.
Proof.
  destruct Hvalid as (Hne & _ & Hv). destruct HA as [|p l Hp _]; [done|].
  apply Forall_cons in Hv as [(_ & ? & _) _]. lia.
Qed.

Lemma sorted_ext_initial : ext_inv (fresh_procs input) A (sort_by less input) [] 0.
Proof.
  destruct Hvalid as (_ & Hnd & Hv).
  apply ext_initial.
  - by rewrite sort_by_perm.
  - by apply sorted_valid.
  - unfold fresh_procs. by rewrite sort_by_perm.
  - by rewrite sort_by_perm.
  - apply bound_nonneg.
Qed.
End TrackedInit.

Lemma RR_init_ext (A : Z) (input : list Process) (s0 : RR.state) :
  valid_procs input → Forall (λ p, arrival p ≤ A) input →
  RR.init input = Finished s0 →
  ext_inv (fresh_procs input) A (RR.procs s0) (RR.gantt s0) (RR.time s0).
Proof.
  intros Hvalid HA Hinit.
  pose proof (sorted_ext_initial A input RR.less Hvalid HA) as H0.
  unfold RR.init in Hinit. set (ps := sort_by RR.less input) in *.
  destruct (snd _) as [|i q0]; [|by injection Hinit as <-].
  destruct (_ <? _)%nat; [|by injection Hinit as <-].
  destruct (ps !! _) as [pn|] eqn:Hpn; [|done].
  destruct (push_arrivals _ _ _ _) as [idx1 q1]. injection Hinit as <-. simpl.
  destruct (ei_static _ _ _ _ _ H0 _ pn Hpn) as (_ & HpnA & _).
  apply (ext_idle _ A ps [] 0); [done| |done].
  destruct Hvalid as (_ & _ & Hv).
  assert (Hin : pn ∈ input).
  { rewrite <- (sort_by_perm RR.less input). by eapply list_elem_of_lookup_2. }
  rewrite Forall_forall in Hv. destruct (Hv pn Hin) as (_ & ? & _). done.
Qed.

Lemma PPS_init_ext (A : Z) (input : list Process) :
  valid_procs input → Forall (λ p, arrival p ≤ A) input →
  ext_inv (fresh_procs input) A (PPS.procs (PPS.init input))
          (PPS.gantt (PPS.init input)) (PPS.time (PPS.init input)).
Proof.
  intros Hvalid HA.
  pose proof (sorted_ext_initial A input PPS.less Hvalid HA) as H0.
  unfold PPS.init. set (ps := sort_by PPS.less input) in *.
  destruct (ps !! 0%nat) as [p0|] eqn:Hp0; [|done].
  destruct (arrival p0 >? 0) eqn:Hpos; [|done]. simpl.
  destruct (ei_static _ _ _ _ _ H0 _ p0 Hp0) as (_ & Hp0A & _).
  apply (ext_idle _ A ps [] 0); [done|lia|done].
Qed.

(** ** Both engines end in a state that satisfies the extended invariant *)

Lemma RR_tracked (A : Z) (input : list Process) (quantum : Z) :
  valid_procs input → Forall (λ p, arrival p ≤ A) input →
  0 < quantum →
  ∃ fuel g ps, round_robin fuel input quantum = Finished (g, ps)
               ∧ good_run input (sort_by RR.less input) g ps
               ∧ tracked_run (fresh_procs input) A g ps.
Proof.
  intros Hvalid HA Hq. pose proof Hvalid as (_ & _ & Hv).
  destruct (RR_init_inv input Hv) as (s0 & Hinit & Hinv0 & Hprocs0).
  set (I := λ s, RR_inv s
                 ∧ descriptor <$> RR.procs s = descriptor <$> sort_by RR.less input
                 ∧ ext_inv (fresh_procs input) A (RR.procs s) (RR.gantt s) (RR.time s)).
  destruct (loop_terminates (RR.body quantum) I (λ s, all_done (RR.procs s)) RR_variant)
    with (s := s0) as (s & Hrun & ([Hinv Hg] & Hdesc & Hext) & Hdone).
  { intros s1 (Hinv1 & Hdesc1 & Hext1).
    pose proof (RR_body_step quantum s1 Hq Hinv1) as Hstep.
    pose proof (RR_body_descriptor quantum s1) as Hd.
    pose proof (RR_body_ext _ A quantum s1 Hq Hinv1 Hext1) as He.
    destruct (RR.body quantum s1) as [s2|s2|]; [| |done].
    - destruct Hstep as (? & ? & _).
      split; [split; [done|split; [by rewrite Hd|done]]|done].
    - destruct Hstep as (? & ?).
      split; [split; [done|split; [by rewrite Hd|done]]|done]. }
  { split; [done|]. split; [by rewrite Hprocs0|]. by apply (RR_init_ext A input). }
  exists (S (RR_variant s0)), (RR.gantt s), (RR.procs s).
  unfold round_robin, RR.run_from. rewrite Hinit, Hrun. split; [done|].
  assert (Hgood : good_run input (sort_by RR.less input) (RR.gantt s) (RR.procs s)).
  { eapply final_good_run; eauto. apply sort_by_perm. }
  split; [done|]. unfold tracked_run.
  destruct Hgood as (_ & Hne & _).
  by rewrite (chain_makespan 0 (RR.time s) _ (gi_chain _ _ _ Hg) Hne).
Qed.

Lemma PPS_tracked (A : Z) (input : list Process) :
  valid_procs input → Forall (λ p, arrival p ≤ A) input →
  ∃ fuel g ps, preemptive_priority fuel input = Finished (g, ps)
               ∧ good_run input (sort_by PPS.less input) g ps
               ∧ tracked_run (fresh_procs input) A g ps.
Proof.
  intros Hvalid HA. pose proof Hvalid as (_ & _ & Hv).
  destruct (PPS_init_inv input Hv) as (Hinv0 & Hprocs0).
  set (I := λ s, PPS_inv s
                 ∧ descriptor <$> PPS.procs s = descriptor <$> sort_by PPS.less input
                 ∧ ext_inv (fresh_procs input) A (PPS.procs s) (PPS.gantt s)
                           (PPS.time s)).
  destruct (loop_terminates PPS.body I (λ s, all_done (PPS.procs s)) PPS_variant)
    with (s := PPS.init input) as (s & Hrun & ([Hinv Hg] & Hdesc & Hext) & Hdone).
  { intros s1 (Hinv1 & Hdesc1 & Hext1).
    pose proof (PPS_body_step s1 Hinv1) as Hstep.
    pose proof (PPS_body_descriptor s1) as Hd.
    pose proof (PPS_body_ext _ A s1 Hinv1 Hext1) as He.
    destruct (PPS.body s1) as [s2|s2|]; [| |done].
    - destruct Hstep as (? & ? & _).
      split; [split; [done|split; [by rewrite Hd|done]]|done].
    - destruct Hstep as (? & ?).
      split; [split; [done|split; [by rewrite Hd|done]]|done]. }
  { split; [done|]. split; [by rewrite Hprocs0|]. by apply PPS_init_ext. }
  exists (S (PPS_variant (PPS.init input))), (PPS.gantt s), (PPS.procs s).
  unfold preemptive_priority, PPS.run_from. rewrite Hrun. split; [done|].
  assert (Hgood : good_run input (sort_by PPS.less input) (PPS.gantt s) (PPS.procs s)).
  { eapply final_good_run; eauto. apply sort_by_perm. }
  split; [done|]. unfold tracked_run.
  destruct Hgood as (_ & Hne & _).
  by rewrite (chain_makespan 0 (PPS.time s) _ (gi_chain _ _ _ Hg) Hne).
Qed.

(** ** Facts about timelines *)

Lemma max_arrival_bound (ps : list Process) :
  Forall (λ p, arrival p ≤ max_arrival ps) ps.
Proof.
  induction ps as [|p ps IH]; [done|]. simpl. constructor; [lia|].
  eapply Forall_impl; [exact IH|]. simpl. intros x Hx. lia.
Qed.

Lemma cpu_busy_cons (e : GanttEntry) (g : list GanttEntry) :
  cpu_busy (e :: g)
  = (if negb (g_pid e =? -1) then duration e else 0) + cpu_busy g.
Proof.
  unfold cpu_busy. simpl.
  assert (Hacc : ∀ l a,
    fold_left (λ acc x, if negb (g_pid x =? -1) then acc + (g_end x - g_start x) else acc) l a
    = a + fold_left (λ acc x, if negb (g_pid x =? -1) then acc + (g_end x - g_start x) else acc) l 0).
  { induction l as [|x l IH]; intros a; simpl; [lia|].
    rewrite IH. rewrite (IH (if negb (g_pid x =? -1) then 0 + _ else 0)).
    destruct (negb (g_pid x =? -1)); lia. }
  rewrite Hacc. unfold duration. destruct (negb (g_pid e =? -1)); lia.
Qed.

Lemma cpu_busy_le_chain (t0 t : Z) (g : list GanttEntry) :
  chain t0 g t → cpu_busy g ≤ t - t0.
Proof.
  revert t0. induction g as [|e g IH]; intros t0 Hc.
  - simpl in Hc. unfold cpu_busy. simpl. lia.
  - simpl in Hc. destruct Hc as (Hs & Hlt & Hc). specialize (IH _ Hc).
    rewrite cpu_busy_cons. unfold duration. destruct (negb _); lia.
Qed.

Lemma chain_all_busy (t0 t : Z) (g : list GanttEntry) :
  chain t0 g t → cpu_busy g = t - t0 → Forall (λ e, g_pid e ≠ idle_pid) g.
Proof.
  revert t0. induction g as [|e g IH]; intros t0 Hc Hb; [done|].
  simpl in Hc. destruct Hc as (Hs & Hlt & Hc).
  pose proof (cpu_busy_le_chain _ _ _ Hc) as Hle.
  rewrite cpu_busy_cons in Hb. unfold duration in Hb.
  destruct (g_pid e =? -1) eqn:E; simpl in Hb; [lia|].
  constructor; [apply Z.eqb_neq in E; done|]. apply (IH (g_end e)); [done|lia].
Qed.

Lemma chain_entry_end (t0 t : Z) (g : list GanttEntry) (e : GanttEntry) :
  chain t0 g t → e ∈ g → t0 ≤ g_start e ∧ g_end e ≤ t.
Proof.
  revert t0. induction g as [|x g IH]; intros t0 Hc He; [by apply elem_of_nil in He|].
  simpl in Hc. destruct Hc as (Hs & Hlt & Hc).
  apply elem_of_cons in He as [->|He].
  - apply chain_le in Hc. lia.
  - destruct (IH _ Hc He). lia.
Qed.

(** What the invariants say of a row of the final table. *)
Lemma tracked_row (F : Prop) (A : Z) g ps (p : Process) :
  tracked_run F A g ps → p ∈ ps → remaining p = 0 →
  total_duration (intervals_of (pid p) g) = burst p
  ∧ g_end <$> last (intervals_of (pid p) g) = Some (completion_time p)
  ∧ (F → g_start <$> head (intervals_of (pid p) g) = Some (start_time p)
         ∧ arrival p ≤ start_time p
         ∧ start_time p + burst p ≤ completion_time p).
Proof.
  intros Hext [i Hp]%list_elem_of_lookup Hrem.
  destruct (ei_static _ _ _ _ _ Hext i p Hp) as (_ & _ & Hb).
  destruct (ei_track _ _ _ _ _ Hext i p Hp) as (Hsum & _ & Hrun & Hfin).
  destruct (Hfin Hrem) as [Hlast Hsc].
  split; [lia|]. split; [done|]. intros HF.
  destruct (Hrun ltac:(lia) HF) as (Hhead & Harr & _). auto.
Qed.

(** Over the integers: on fresh processes, the start time of every process
    is the start tick of its first interval, is not before its arrival, and
    leaves room for the whole burst before the completion time. *)
Lemma exact_first_dispatch (input : list Process) (quantum : Z) :
  valid_procs input → fresh_procs input → 0 < quantum →
  (∃ fuel g ps, round_robin fuel input quantum = Finished (g, ps)
      ∧ descriptor <$> ps = descriptor <$> sort_by RR.less input
      ∧ Forall (λ p, g_start <$> head (intervals_of (pid p) g) = Some (start_time p)
                     ∧ arrival p ≤ start_time p
                     ∧ start_time p + burst p ≤ completion_time p) ps)
  ∧ (∃ fuel g ps, preemptive_priority fuel input = Finished (g, ps)
      ∧ descriptor <$> ps = descriptor <$> sort_by PPS.less input
      ∧ Forall (λ p, g_start <$> head (intervals_of (pid p) g) = Some (start_time p)
                     ∧ arrival p ≤ start_time p
                     ∧ start_time p + burst p ≤ completion_time p) ps).
Proof.
  intros Hvalid Hfresh Hq. split.
  - destruct (RR_tracked _ input quantum Hvalid (max_arrival_bound input) Hq)
      as (fuel & g & ps & Hrun & (_ & _ & _ & Hdone & Hdesc) & Htr).
    exists fuel, g, ps. split; [done|]. split; [done|].
    apply Forall_forall. intros p Hp. rewrite Forall_forall in Hdone.
    destruct (Hdone p Hp) as [Hrem _].
    destruct (tracked_row _ _ _ _ p Htr Hp Hrem) as (_ & _ & H). by apply H.
  - destruct (PPS_tracked _ input Hvalid (max_arrival_bound input))
      as (fuel & g & ps & Hrun & (_ & _ & _ & Hdone & Hdesc) & Htr).
    exists fuel, g, ps. split; [done|]. split; [done|].
    apply Forall_forall. intros p Hp. rewrite Forall_forall in Hdone.
    destruct (Hdone p Hp) as [Hrem _].
    destruct (tracked_row _ _ _ _ p Htr Hp Hrem) as (_ & _ & H). by apply H.
Qed.

Lemma load_sample_fresh : fresh_procs load_sample.
Proof. unfold fresh_procs, load_sample. by repeat constructor. Defined.

(** Over the integers: the completion time of every process is the end
    tick of its last interval. *)
Lemma exact_last_interval (input : list Process) (quantum : Z) :
  valid_procs input → 0 < quantum →
  (∃ fuel g ps, round_robin fuel input quantum = Finished (g, ps)
      ∧ descriptor <$> ps = descriptor <$> sort_by RR.less input
      ∧ Forall (λ p, g_end <$> last (intervals_of (pid p) g)
                     = Some (completion_time p)) ps)
  ∧ (∃ fuel g ps, preemptive_priority fuel input = Finished (g, ps)
      ∧ descriptor <$> ps = descriptor <$> sort_by PPS.less input
      ∧ Forall (λ p, g_end <$> last (intervals_of (pid p) g)
                     = Some (completion_time p)) ps).
Proof.
  intros Hvalid Hq. split.
  - destruct (RR_tracked _ input quantum Hvalid (max_arrival_bound input) Hq)
      as (fuel & g & ps & Hrun & (_ & _ & _ & Hdone & Hdesc) & Htr).
    exists fuel, g, ps. split; [done|]. split; [done|].
    apply Forall_forall. intros p Hp. rewrite Forall_forall in Hdone.
    destruct (Hdone p Hp) as [Hrem _].
    by destruct (tracked_row _ _ _ _ p Htr Hp Hrem) as (_ & ? & _).
  - destruct (PPS_tracked _ input Hvalid (max_arrival_bound input))
      as (fuel & g & ps & Hrun & (_ & _ & _ & Hdone & Hdesc) & Htr).
    exists fuel, g, ps. split; [done|]. split; [done|].
    apply Forall_forall. intros p Hp. rewrite Forall_forall in Hdone.
    destruct (Hdone p Hp) as [Hrem _].
    by destruct (tracked_row _ _ _ _ p Htr Hp Hrem) as (_ & ? & _).
Qed.

(** Over the integers: the intervals of each process add up to its
    burst. *)
Lemma exact_burst_share (input : list Process) (quantum : Z) :
  valid_procs input → 0 < quantum →
  (∃ fuel g ps, round_robin fuel input quantum = Finished (g, ps)
      ∧ descriptor <$> ps = descriptor <$> sort_by RR.less input
      ∧ Forall (λ p, total_duration (intervals_of (pid p) g) = burst p) ps)
  ∧ (∃ fuel g ps, preemptive_priority fuel input = Finished (g, ps)
      ∧ descriptor <$> ps = descriptor <$> sort_by PPS.less input
      ∧ Forall (λ p, total_duration (intervals_of (pid p) g) = burst p) ps).
Proof.
  intros Hvalid Hq. split.
  - destruct (RR_tracked _ input quantum Hvalid (max_arrival_bound input) Hq)
      as (fuel & g & ps & Hrun & (_ & _ & _ & Hdone & Hdesc) & Htr).
    exists fuel, g, ps. split; [done|]. split; [done|].
    apply Forall_forall. intros p Hp. rewrite Forall_forall in Hdone.
    destruct (Hdone p Hp) as [Hrem _].
    by destruct (tracked_row _ _ _ _ p Htr Hp Hrem) as (? & _).
  - destruct (PPS_tracked _ input Hvalid (max_arrival_bound input))
      as (fuel & g & ps & Hrun & (_ & _ & _ & Hdone & Hdesc) & Htr).
    exists fuel, g, ps. split; [done|]. split; [done|].
    apply Forall_forall. intros p Hp. rewrite Forall_forall in Hdone.
    destruct (Hdone p Hp) as [Hrem _].
    by destruct (tracked_row _ _ _ _ p Htr Hp Hrem) as (? & _).
Qed.

(** Over the integers: the makespan is at least the sum of the bursts and
    at most [A] plus that sum. *)
Lemma exact_makespan (A : Z) (input : list Process) (quantum : Z) :
  valid_procs input → Forall (λ p, arrival p ≤ A) input → 0 < quantum →
  (∃ fuel g ps, round_robin fuel input quantum = Finished (g, ps)
      ∧ cpu_busy g ≤ makespan g
      ∧ total_burst input ≤ makespan g ≤ A + total_burst input)
  ∧ (∃ fuel g ps, preemptive_priority fuel input = Finished (g, ps)
      ∧ cpu_busy g ≤ makespan g
      ∧ total_burst input ≤ makespan g ≤ A + total_burst input).
Proof.
  intros Hvalid HA Hq.
  assert (Hall : ∀ sorted g ps,
            good_run input sorted g ps → tracked_run (fresh_procs input) A g ps →
            cpu_busy g ≤ makespan g
            ∧ total_burst input ≤ makespan g ≤ A + total_burst input).
  { intros sorted g ps (Hchain & _ & Hbusy & _) Htr.
    pose proof (cpu_busy_le_chain _ _ _ Hchain) as Hle.
    pose proof (ei_bound _ _ _ _ _ Htr) as Hb. lia. }
  split.
  - destruct (RR_tracked A input quantum Hvalid HA Hq)
      as (fuel & g & ps & Hrun & Hgood & Htr).
    exists fuel, g, ps. split; [done|]. by eapply Hall.
  - destruct (PPS_tracked A input Hvalid HA)
      as (fuel & g & ps & Hrun & Hgood & Htr).
    exists fuel, g, ps. split; [done|]. by eapply Hall.
Qed.

(** Over the integers: when every process arrives at tick 0 no interval
    is idle. *)
Lemma exact_no_idle (input : list Process) (quantum : Z) :
  valid_procs input → Forall (λ p, arrival p = 0) input → 0 < quantum →
  (∃ fuel g ps, round_robin fuel input quantum = Finished (g, ps)
      ∧ makespan g = total_burst input
      ∧ Forall (λ e, g_pid e ≠ idle_pid) g)
  ∧ (∃ fuel g ps, preemptive_priority fuel input = Finished (g, ps)
      ∧ makespan g = total_burst input
      ∧ Forall (λ e, g_pid e ≠ idle_pid) g).
Proof.
  intros Hvalid Hzero Hq.
  assert (HA : Forall (λ p, arrival p ≤ 0) input).
  { eapply Forall_impl; [exact Hzero|]. simpl. intros p Hp. lia. }
  assert (Hall : ∀ sorted g ps,
            good_run input sorted g ps → tracked_run (fresh_procs input) 0 g ps →
            makespan g = total_burst input ∧ Forall (λ e, g_pid e ≠ idle_pid) g).
  { intros sorted g ps (Hchain & _ & Hbusy & _) Htr.
    pose proof (cpu_busy_le_chain _ _ _ Hchain) as Hle.
    pose proof (ei_bound _ _ _ _ _ Htr) as Hb.
    split; [lia|]. apply (chain_all_busy 0 (makespan g)); [done|lia]. }
  split.
  - destruct (RR_tracked 0 input quantum Hvalid HA Hq)
      as (fuel & g & ps & Hrun & Hgood & Htr).
    exists fuel, g, ps. split; [done|]. by eapply Hall.
  - destruct (PPS_tracked 0 input Hvalid HA)
      as (fuel & g & ps & Hrun & Hgood & Htr).
    exists fuel, g, ps. split; [done|]. by eapply Hall.
Qed.

(** Over the integers: the run of a single process. *)
Lemma exact_single (p : Process) (quantum : Z) :
  valid_process p → 0 < quantum →
  (∃ fuel g p', round_robin fuel [p] quantum = Finished (g, [p'])
      ∧ descriptor p' = descriptor p
      ∧ completion_time p' = arrival p + burst p
      ∧ waiting_time p' = 0 ∧ turnaround_time p' = burst p
      ∧ makespan g = arrival p + burst p)
  ∧ (∃ fuel g p', preemptive_priority fuel [p] = Finished (g, [p'])
      ∧ descriptor p' = descriptor p
      ∧ completion_time p' = arrival p + burst p
      ∧ waiting_time p' = 0 ∧ turnaround_time p' = burst p
      ∧ makespan g = arrival p + burst p).
Proof.
  intros Hp Hq.
  assert (Hvalid : valid_procs [p]).
  { split; [done|]. split; [apply NoDup_singleton|by apply Forall_singleton]. }
  assert (HA : Forall (λ x, arrival x ≤ arrival p) [p]) by (by apply Forall_singleton).
  assert (Hall : ∀ g ps,
            good_run [p] [p] g ps → tracked_run (fresh_procs [p]) (arrival p) g ps →
            ∃ p', ps = [p'] ∧ descriptor p' = descriptor p
                  ∧ completion_time p' = arrival p + burst p
                  ∧ waiting_time p' = 0 ∧ turnaround_time p' = burst p
                  ∧ makespan g = arrival p + burst p).
  { intros g ps (Hchain & Hne & Hbusy & Hdone & Hdesc) Htr.
    destruct ps as [|p' [|p'' ps]]; try done.
    exists p'. split; [done|]. simpl in Hdesc. injection Hdesc as Hpid Ha Hb Hpr.
    split; [unfold descriptor; congruence|].
    apply Forall_singleton in Hdone as [Hrem (Hc & Ht & Hw)].
    destruct (tracked_row _ _ _ _ p' Htr ltac:(left) Hrem) as (_ & Hlast & _).
    pose proof (ei_bound _ _ _ _ _ Htr) as Hbound.
    simpl in Hbusy. rewrite Hbusy in Hbound.
    assert (Hend : completion_time p' ≤ makespan g).
    { destruct (last (intervals_of (pid p') g)) as [e|] eqn:He; [|done].
      simpl in Hlast. injection Hlast as <-.
      apply last_Some_elem_of in He. unfold intervals_of in He.
      apply list_elem_of_filter in He as [_ He].
      by destruct (chain_entry_end _ _ _ _ Hchain He). }
    lia. }
  split.
  - destruct (RR_tracked (arrival p) [p] quantum Hvalid HA Hq)
      as (fuel & g & ps & Hrun & Hgood & Htr).
    destruct (Hall g ps Hgood Htr) as (p' & -> & Hrest).
    by exists fuel, g, p'.
  - destruct (PPS_tracked (arrival p) [p] Hvalid HA)
      as (fuel & g & ps & Hrun & Hgood & Htr).
    destruct (Hall g ps Hgood Htr) as (p' & -> & Hrest).
    by exists fuel, g, p'.
Qed.

(** ** The shape of the intervals, on any input *)

Lemma pids_insert (ps : list Process) (i : nat) (p p' : Process) :
  ps !! i = Some p → pid p' = pid p → pid <$> <[i := p']> ps = pid <$> ps.
Proof.
  intros Hp Hpid. rewrite list_fmap_insert, Hpid.
  apply list_insert_id. by rewrite list_lookup_fmap, Hp.
Qed.

Lemma known_pids_snoc (ps : list Process) (g : list GanttEntry) (e : GanttEntry) :
  known_pids ps g → g_pid e = idle_pid ∨ g_pid e ∈ pid <$> ps → known_pids ps (g ++ [e]).
Proof. intros Hg He. apply Forall_app. split; [done|]. by apply Forall_singleton. Qed.

Lemma known_pids_same (ps ps' : list Process) (g : list GanttEntry) :
  pid <$> ps' = pid <$> ps → known_pids ps g → known_pids ps' g.
Proof. unfold known_pids. by intros ->. Qed.

Lemma RR_body_shape (quantum : Z) (s : RR.state) :
  known_pids (RR.procs s) (RR.gantt s) ∧ within_quantum quantum (RR.gantt s) →
  match RR.body quantum s with
  | Next s' | Stop s' =>
      pid <$> RR.procs s' = pid <$> RR.procs s
      ∧ known_pids (RR.procs s') (RR.gantt s')
      ∧ within_quantum quantum (RR.gantt s')
  | Fault => True
  end.
Proof.
  intros [Hk Hw]. unfold RR.body. destruct s as [ps q t c g idx]. simpl in *.
  destruct (negb _); [done|].
  destruct q as [|i q'].
  - destruct (idx <? length ps)%nat; [|done].
    destruct (ps !! idx) as [pn|]; [|done].
    destruct (t <? arrival pn); destruct (push_arrivals _ _ _ _); simpl; [|done].
    split; [done|]. split; [apply known_pids_snoc; [done|by left]|].
    apply Forall_app. split; [done|]. apply Forall_singleton. by intros [].
  - destruct (ps !! i) as [p|] eqn:Hp; [|done].
    destruct (mark_start_fields t p) as [Hmd Hms].
    pose proof Hmd as Hmd'. injection Hmd' as Hmpid _ _ _.
    set (e := mkGantt _ _ _).
    assert (Hk1 : known_pids ps (g ++ [e])).
    { apply known_pids_snoc; [done|]. right. simpl. rewrite Hmpid.
      apply list_elem_of_fmap_2. by eapply list_elem_of_lookup_2. }
    assert (Hw1 : within_quantum quantum (g ++ [e])).
    { apply Forall_app. split; [done|]. apply Forall_singleton.
      intros _. unfold duration. simpl. lia. }
    destruct (push_arrivals _ _ _ _). destruct (0 <? _); simpl.
    + assert (Hpids : pid <$> <[i := set_remaining
                (remaining (mark_start t p) - Z.min quantum (remaining (mark_start t p)))
                (mark_start t p)]> ps = pid <$> ps).
      { by apply (pids_insert _ _ p). }
      split; [done|]. split; [by apply (known_pids_same ps)|done].
    + rewrite list_insert_insert_eq.
      assert (Hpids : pid <$> <[i := finalize
                (t + Z.min quantum (remaining (mark_start t p)))
                (set_remaining
                   (remaining (mark_start t p) - Z.min quantum (remaining (mark_start t p)))
                   (mark_start t p))]> ps = pid <$> ps).
      { by apply (pids_insert _ _ p). }
      split; [done|]. split; [by apply (known_pids_same ps)|done].
Qed.





(** Over the integers: no slice of Round Robin is longer than the
    quantum. *)
Lemma exact_slices (fuel : nat) (input : list Process) (quantum : Z)
        (g : list GanttEntry) (ps : list Process) :
  round_robin fuel input quantum = Finished (g, ps) → within_quantum quantum g.
Proof.
  unfold round_robin, RR.run_from.
  destruct (RR.init input) as [s0| |] eqn:Hinit; try done.
  destruct (loop _ _ _) as [s| |] eqn:Hrun; try done. intros [= <- <-].
  set (I := λ s, known_pids (RR.procs s) (RR.gantt s)
                 ∧ within_quantum quantum (RR.gantt s)).
  assert (HI : I s); [|by destruct HI].
  apply (loop_invariant (RR.body quantum) I) with (fuel := fuel) (s := s0); [| |done].
  - intros s1 HI1. pose proof (RR_body_shape quantum s1 HI1) as Hb.
    destruct (RR.body quantum s1); [| |done]; by destruct Hb as (_ & ? & ?).
  - unfold RR.init in Hinit.
    destruct (snd _); [|injection Hinit as <-; split; apply Forall_nil_2].
    destruct (_ <? _)%nat; [|injection Hinit as <-; split; apply Forall_nil_2].
    destruct (_ !! _); [|done]. destruct (push_arrivals _ _ _ _).
    injection Hinit as <-. split.
    + apply Forall_singleton. by left.
    + apply Forall_singleton. by intros [].
Qed.

(** ** What the engines run, and when they idle *)

Lemma snoc_inv {A : Type} (l : list A) (x y : A) : l ++ [x] = l ++ [y] → x = y.
Proof. intros H. apply app_inv_head in H. by injection H. Qed.

Lemma snoc_not_same {A : Type} (l : list A) (x : A) : l ≠ l ++ [x].
Proof.
  intros H. apply (f_equal length) in H. rewrite length_app in H. simpl in H. lia.
Qed.

(** Over the integers: Preemptive Priority runs a process that is first
    in the order of the queue among those that are ready. *)
Lemma exact_most_urgent (input : list Process) (s s' : PPS.state) (e : GanttEntry) :
  valid_procs input →
  reaches PPS.body (PPS.init input) s →
  PPS.body s = Next s' →
  PPS.gantt s' = PPS.gantt s ++ [e] → g_pid e ≠ idle_pid →
  ∃ cur p, PPS.procs s !! cur = Some p
           ∧ g_pid e = pid p ∧ g_start e = PPS.time s
           ∧ arrival p ≤ PPS.time s ∧ 0 < remaining p
           ∧ ∀ j pj, PPS.procs s !! j = Some pj →
                     arrival pj ≤ PPS.time s → 0 < remaining pj →
                     at_least_as_urgent p pj.
Proof.
  intros (_ & _ & Hv) Hreach Hbody Hgantt Hpid.
  destruct (PPS_init_inv input Hv) as (Hinv0 & _).
  pose proof (PPS_reaches_inv _ _ Hinv0 Hreach) as [Hinv HgI].
  destruct s as [ps pq t c g idx]. simpl in *.
  unfold PPS.body in Hbody. simpl in Hbody.
  destruct (negb _); [done|].
  destruct (push_arrivals (λ p, arrival p <=? t) (drop idx ps) idx pq)
    as [idx1 pq1] eqn:Hadm.
  destruct (proc_inv_push_le _ _ _ _ _ _ _ _ _ Hinv Hadm)
    as (k & -> & -> & Hinv1 & Hlate & _).
  destruct (pq_top _ _) as [cur|] eqn:Htop.
  - assert (Hok : ∀ x, x ∈ pq ++ seq idx k → is_Some (ps !! x)).
    { intros x Hx. apply (pi_ready _ _ _ _ _ _ Hinv1) in Hx as (_ & px & Hpx & _).
      by exists px. }
    destruct (pq_top_is_top ps _ cur Hok Htop) as [Hcur Hmax].
    apply (pi_ready _ _ _ _ _ _ Hinv1) in Hcur as (Hcur & p & Hp & Hrem).
    rewrite Hp in Hbody.
    destruct (mark_start_fields t p) as [Hmd Hms].
    pose proof Hmd as Hmd'. injection Hmd' as Hmpid _ _ _.
    assert (He : e = mkGantt (pid p) t (t + 1)).
    { destruct (push_arrivals _ _ _ (pq_remove _ _)). rewrite <- Hmpid.
      destruct (0 <? _); injection Hbody as <-; simpl in Hgantt;
        symmetry; by eapply snoc_inv. }
    subst e. exists cur, p. split; [done|]. split; [done|]. split; [done|].
    pose proof (pi_past _ _ _ _ _ _ Hinv1 cur p Hcur Hp) as Hpast.
    destruct (pi_basic _ _ _ _ _ _ Hinv1 cur p Hp) as (_ & _ & _ & _ & Hle).
    split; [lia|]. split; [done|].
    intros j pj Hpj Harr Hrj.
    assert (Hj : (j < idx + k)%nat).
    { destruct (decide (j < idx + k)%nat) as [|Hge]; [done|].
      specialize (Hlate j pj ltac:(lia) Hpj). lia. }
    assert (Hin : j ∈ pq ++ seq idx k).
    { apply (pi_ready _ _ _ _ _ _ Hinv1). split; [done|]. by exists pj. }
    specialize (Hmax j Hin). unfold PPS.cmp in Hmax. rewrite Hp, Hpj in Hmax.
    unfold at_least_as_urgent. order_cases.
  - destruct (_ <? _)%nat; [|done].
    destruct (ps !! _) as [pn|]; [|done].
    destruct (t <? arrival pn); injection Hbody as <-; simpl in Hgantt.
    + apply snoc_inv in Hgantt. by subst e.
    + by apply snoc_not_same in Hgantt.
Qed.




(** ** Resetting a table *)

Lemma reset_rows (ps l : list Process) :
  Forall valid_process l → descriptor <$> ps = descriptor <$> l →
  Forall valid_process (reset <$> ps)
  ∧ fresh_procs (reset <$> ps)
  ∧ pid <$> (reset <$> ps) = pid <$> l
  ∧ total_burst (reset <$> ps) = total_burst l.
Proof.
  intros Hv. revert ps. induction Hv as [|x l Hx Hl IH]; intros [|p ps] Hd; try done.
  { repeat split; apply Forall_nil_2. }
  simpl in Hd. injection Hd as Hpid Ha Hb Hpr Hrest.
  destruct (IH ps Hrest) as (H1 & H2 & H3 & H4).
  destruct Hx as (? & ? & ? & ?). repeat split.
  - constructor; [|done]. unfold valid_process, reset. simpl. lia.
  - by constructor.
  - rewrite !fmap_cons. f_equal; [by simpl|done].
  - rewrite fmap_cons. cbn [total_burst foldr]. fold (total_burst (reset <$> ps)).
    fold (total_burst l). rewrite H4. simpl. lia.
Qed.

(** Over the integers: a reset table is a valid set of fresh processes
    again. *)
Lemma exact_rerun (l ps : list Process) (quantum : Z) :
  valid_procs l → descriptor <$> ps = descriptor <$> l → 0 < quantum →
  valid_procs (reset <$> ps)
  ∧ fresh_procs (reset <$> ps)
  ∧ (∃ fuel g ps', round_robin fuel (reset <$> ps) quantum = Finished (g, ps')
                   ∧ cpu_busy g = total_burst l)
  ∧ (∃ fuel g ps', preemptive_priority fuel (reset <$> ps) = Finished (g, ps')
                   ∧ cpu_busy g = total_burst l).
Proof.
  intros (Hne & Hnd & Hv) Hd Hq.
  destruct (reset_rows ps l Hv Hd) as (H1 & H2 & H3 & H4).
  assert (Hvalid : valid_procs (reset <$> ps)).
  { split; [|split; [by rewrite H3|done]].
    destruct ps; [|done]. destruct l; [done|]. done. }
  split; [done|]. split; [done|]. split.
  - destruct (RR_good _ quantum Hvalid Hq) as (fuel & g & ps' & Hrun & _ & _ & Hb & _).
    exists fuel, g, ps'. split; [done|]. by rewrite Hb.
  - destruct (PPS_good _ Hvalid) as (fuel & g & ps' & Hrun & _ & _ & Hb & _).
    exists fuel, g, ps'. split; [done|]. by rewrite Hb.
Qed.

(** ** Context switches *)

Lemma context_switches_head (e e' : GanttEntry) (l : list GanttEntry) :
  g_pid e = g_pid e' → context_switches (e :: l) = context_switches (e' :: l).
Proof. intros H. destruct l as [|x l]; simpl; [done|]. by rewrite H. Qed.

(** ** Round Robin with quantum 0 *)

Lemma loop_diverges {S : Type} (body : S → iter S) (I : S → Prop) :
  (∀ s, I s → ∃ s', body s = Next s' ∧ I s') →
  ∀ fuel s, I s → loop body fuel s = OutOfFuel.
Proof.
  intros Hbody fuel. induction fuel as [|fuel IH]; intros s Hs; [done|].
  destruct (Hbody s Hs) as (s' & Hnext & Hs'). simpl. rewrite Hnext. by apply IH.
Qed.

Lemma push_arrivals_keeps (test : Process → bool) (rest : list Process)
      (idx : nat) (q : list nat) :
  q ≠ [] → snd (push_arrivals test rest idx q) ≠ [].
Proof.
  intros Hq. destruct (push_arrivals_spec test rest idx q) as (k & -> & _).
  simpl. by destruct q.
Qed.

Lemma RR_zero_quantum_body (s : RR.state) :
  RR.q s ≠ [] → RR.completed s = 0%nat →
  (∀ i p, RR.procs s !! i = Some p → 0 < remaining p) →
  in_bounds (RR.procs s) (RR.q s) (RR.idx_next_arrival s) →
  ∃ s', RR.body 0 s = Next s'
        ∧ RR.q s' ≠ [] ∧ RR.completed s' = 0%nat
        ∧ (∀ i p, RR.procs s' !! i = Some p → 0 < remaining p)
        ∧ in_bounds (RR.procs s') (RR.q s') (RR.idx_next_arrival s').
Proof.
  intros Hq Hc Hrem Hb.
  pose proof (RR_body_bounds 0 s Hb) as Hb'.
  destruct s as [ps q t c g idx]. simpl in *. subst c.
  destruct q as [|i q']; [done|].
  assert (Hi : (i < length ps)%nat) by (apply Hb; left).
  destruct (lookup_lt_is_Some_2 ps i Hi) as [p Hp].
  pose proof (Hrem i p Hp) as Hpos.
  destruct (mark_start_fields t p) as [_ Hms].
  unfold RR.body in *. simpl in *.
  destruct (0 <? length ps)%nat eqn:Hn; [|apply Nat.ltb_ge in Hn; lia]. simpl in *.
  rewrite Hp in *. rewrite Hms in *. rewrite Z.min_l in * by lia.
  rewrite Z.sub_0_r, Z.add_0_r in *.
  destruct (push_arrivals _ _ _ _) as [idx1 q1].
  destruct (0 <? remaining p) eqn:E; [|apply Z.ltb_ge in E; lia].
  eexists. split; [done|]. simpl. split; [by destruct q1|]. split; [done|].
  split; [|done].
  intros j x Hx. destruct (decide (i = j)) as [->|Hne].
  - rewrite list_lookup_insert_eq in Hx by done. simplify_eq. simpl. lia.
  - rewrite list_lookup_insert_ne in Hx by done. by eapply Hrem.
Qed.

Lemma RR_init_queue (input : list Process) :
  input ≠ [] →
  ∃ s0, RR.init input = Finished s0
        ∧ RR.procs s0 = sort_by RR.less input
        ∧ RR.q s0 ≠ [] ∧ RR.completed s0 = 0%nat.
Proof.
  intros Hne. unfold RR.init.
  assert (Hps : sort_by RR.less input ≠ []).
  { intros Hnil. apply Hne. apply Permutation_nil_r.
    rewrite <- Hnil. by rewrite sort_by_perm. }
  destruct (sort_by RR.less input) as [|p0 rest]; [done|].
  rewrite (skip_while_push _ _ _ []). simpl.
  destruct (arrival p0 =? 0) eqn:E0.
  - pose proof (push_arrivals_keeps (λ p, arrival p =? 0) rest 1 [0%nat] ltac:(done)) as Hq.
    destruct (push_arrivals _ rest 1%nat [0%nat]) as [idx0 q0]. simpl in *.
    destruct q0 as [|i q0]; [done|]. eexists. by repeat split.
  - simpl. rewrite Z.eqb_refl.
    pose proof (push_arrivals_keeps (λ p, arrival p =? arrival p0) rest 1 [0%nat]
                  ltac:(done)) as Hq.
    destruct (push_arrivals _ rest 1%nat [0%nat]) as [idx1 q1]. simpl in *.
    eexists. by repeat split.
Qed.

(** X13. With quantum 0, Round Robin never returns on a valid process set:
    a slice of no tick takes no work off, the dispatched process is queued
    again, and no process is ever completed. *)
Theorem rr_zero_quantum_never_returns (input : list Process) (fuel : nat) :
  valid_procs input → round_robin fuel input 0 = OutOfFuel.
Proof.
  intros (Hne & _ & Hv).
  destruct (RR_init_queue input Hne) as (s0 & Hinit & Hprocs & Hq & Hc).
  pose proof (RR_init_bounds input) as Hb. rewrite Hinit in Hb.
  unfold round_robin, RR.run_from. rewrite Hinit.
  rewrite (loop_diverges (RR.body 0)
             (λ s, RR.q s ≠ [] ∧ RR.completed s = 0%nat
                   ∧ (∀ i p, RR.procs s !! i = Some p → 0 < remaining p)
                   ∧ in_bounds (RR.procs s) (RR.q s) (RR.idx_next_arrival s)));
    [done| |].
  - intros s (H1 & H2 & H3 & H4). by apply RR_zero_quantum_body.
  - split; [done|]. split; [done|]. split; [|done].
    intros i p Hp. rewrite Hprocs in Hp.
    destruct (Forall_lookup_1 _ _ _ _ (sorted_valid input Hv) Hp) as (_ & _ & ? & ?).
    lia.
Qed.

Lemma rr_zero_quantum_never_returns_witness :
  valid_procs load_sample ∧ round_robin 50 load_sample 0 = OutOfFuel.
Proof.
  split; [exact load_sample_valid|].
  exact (rr_zero_quantum_never_returns load_sample 50 load_sample_valid).
Defined.

(** ** Round Robin with a quantum that covers every burst *)

Lemma RR_body_one_shot (F : Prop) (A quantum : Z) (s : RR.state) :
  0 < quantum → RR_inv s →
  ext_inv F A (RR.procs s) (RR.gantt s) (RR.time s) →
  (∀ i p, RR.procs s !! i = Some p → burst p ≤ quantum ∧ one_shot (RR.gantt s) p) →
  match RR.body quantum s with
  | Next s' | Stop s' =>
      ∀ i p, RR.procs s' !! i = Some p → burst p ≤ quantum ∧ one_shot (RR.gantt s') p
  | Fault => True
  end.
Proof.
  intros Hq [Hinv Hg] Hext Hone. destruct s as [ps q t c g idx]. simpl in *.
  unfold RR.body. simpl.
  destruct (negb _); [done|].
  destruct q as [|i q'].
  - destruct (idx <? length ps)%nat; [|done].
    destruct (ps !! idx) as [pn|]; [|done].
    destruct (t <? arrival pn); destruct (push_arrivals _ _ _ _); simpl; [|done].
    intros j p Hp. destruct (Hone j p Hp) as [Hb Ho]. split; [done|].
    destruct (ei_static _ _ _ _ _ Hext j p Hp) as (Hpos & _).
    unfold one_shot. rewrite intervals_of_snoc. simpl.
    destruct (decide (idle_pid = pid p)) as [Heq|_];
      [unfold idle_pid in Heq; lia|]. by rewrite app_nil_r.
  - assert (Hi : i ∈ i :: q') by left.
    apply (pi_ready _ _ _ _ _ _ Hinv) in Hi as (Hi & p & Hp & Hrem).
    rewrite Hp.
    destruct (mark_start_fields t p) as [Hmd Hms].
    set (p1 := mark_start t p) in *. clearbody p1.
    pose proof Hmd as Hmd'. injection Hmd' as Hmpid Hma Hmb _.
    rewrite Hms, Hmpid.
    destruct (Hone i p Hp) as [Hbq [[Hfull Hnone]|[Hzero _]]]; [|lia].
    assert (Hlen : (i < length ps)%nat) by (by eapply lookup_lt_Some).
    rewrite Z.min_r by lia. rewrite Hfull, Z.sub_diag.
    destruct (push_arrivals _ _ _ _). simpl.
    rewrite list_insert_insert_eq.
    intros j x Hx. destruct (decide (i = j)) as [->|Hne].
    + rewrite list_lookup_insert_eq in Hx by done. injection Hx as <-. simpl.
      rewrite Hmb. split; [done|]. right. split; [done|].
      cbn [pid burst finalize set_remaining].
      rewrite Hmpid, Hmb, intervals_of_snoc, Hnone. simpl.
      destruct (decide (pid p = pid p)); [|done].
      eexists. split; [done|]. unfold duration. simpl. lia.
    + rewrite list_lookup_insert_ne in Hx by done.
      destruct (Hone j x Hx) as [Hb Ho]. split; [done|].
      unfold one_shot. rewrite intervals_of_snoc. simpl.
      destruct (decide (pid p = pid x)) as [Heq|_]; [|by rewrite app_nil_r].
      exfalso. apply Hne.
      apply (NoDup_lookup (pid <$> ps) i j (pid p)); [by eapply ei_nodup| |].
      * by rewrite list_lookup_fmap, Hp.
      * by rewrite list_lookup_fmap, Hx, Heq.
Qed.

(** Over the integers: with a quantum that covers every burst each
    process runs once. *)
Lemma exact_one_shot (input : list Process) (quantum : Z) :
  valid_procs input → 0 < quantum → Forall (λ p, burst p ≤ quantum) input →
  ∃ fuel g ps, round_robin fuel input quantum = Finished (g, ps)
    ∧ descriptor <$> ps = descriptor <$> sort_by RR.less input
    ∧ Forall (λ p, ∃ e, intervals_of (pid p) g = [e]
                        ∧ duration e = burst p
                        ∧ g_end e = completion_time p) ps.
Proof.
  intros Hvalid Hq Hbig. pose proof Hvalid as (_ & _ & Hv).
  set (A := max_arrival input).
  destruct (RR_init_inv input Hv) as (s0 & Hinit & Hinv0 & Hprocs0).
  set (I := λ s, RR_inv s
                 ∧ ext_inv (fresh_procs input) A (RR.procs s) (RR.gantt s) (RR.time s)
                 ∧ ∀ i p, RR.procs s !! i = Some p →
                          burst p ≤ quantum ∧ one_shot (RR.gantt s) p).
  destruct (loop_terminates (RR.body quantum) I (λ s, all_done (RR.procs s)) RR_variant)
    with (s := s0) as (s & Hrun & ([Hinv Hg] & Hext & Hone) & Hdone).
  { intros s1 (Hinv1 & Hext1 & Hone1).
    pose proof (RR_body_step quantum s1 Hq Hinv1) as Hstep.
    pose proof (RR_body_ext _ A quantum s1 Hq Hinv1 Hext1) as He.
    pose proof (RR_body_one_shot _ A quantum s1 Hq Hinv1 Hext1 Hone1) as Ho.
    destruct (RR.body quantum s1) as [s2|s2|]; [| |done].
    - destruct Hstep as (? & ? & _). split; [split; [done|split; done]|done].
    - destruct Hstep as (? & ?). split; [split; [done|split; done]|done]. }
  { pose proof (RR_init_ext A input s0 Hvalid (max_arrival_bound input) Hinit) as Hext0.
    split; [done|]. split; [done|].
    intros i p Hp.
    destruct (ei_track _ _ _ _ _ Hext0 i p Hp) as (_ & Hnew & _).
    assert (Hin : p ∈ input).
    { rewrite <- (sort_by_perm RR.less input), <- Hprocs0.
      by eapply list_elem_of_lookup_2. }
    rewrite Forall_forall in Hbig, Hv. destruct (Hv p Hin) as (_ & _ & _ & Hfull).
    split; [by apply Hbig|]. left. split; [done|]. by apply Hnew. }
  exists (S (RR_variant s0)), (RR.gantt s), (RR.procs s).
  unfold round_robin, RR.run_from. rewrite Hinit, Hrun. split; [done|].
  pose proof (loop_invariant (RR.body quantum)
                (λ s, descriptor <$> RR.procs s = descriptor <$> sort_by RR.less input))
    as Hdesc.
  split.
  - apply (Hdesc) with (fuel := S (RR_variant s0)) (s := s0); [|by rewrite Hprocs0|done].
    intros s1 Hs1. pose proof (RR_body_descriptor quantum s1) as Hd.
    destruct (RR.body quantum s1); [| |done]; by rewrite Hd.
  - apply Forall_lookup_2. intros i p Hp.
    destruct (Forall_lookup_1 _ _ _ _ Hdone Hp) as [Hrem _].
    destruct (ei_static _ _ _ _ _ Hext i p Hp) as (_ & _ & Hb).
    destruct (ei_track _ _ _ _ _ Hext i p Hp) as (_ & _ & _ & Hfin).
    destruct (Hfin Hrem) as [Hlast _].
    destruct (Hone i p Hp) as [_ [[Hfull _]|[_ (e & He & Hdur)]]]; [lia|].
    exists e. split; [done|]. split; [done|].
    rewrite He in Hlast. simpl in Hlast. by injection Hlast.
Qed.

(** ** How often a process is dispatched *)

Lemma slices_other (Q : Z) (g : list GanttEntry) (p : Process) (e : GanttEntry) :
  slices_ok Q g p → g_pid e ≠ pid p → slices_ok Q (g ++ [e]) p.
Proof.
  intros Hs Hne. unfold slices_ok. rewrite intervals_of_snoc.
  destruct (decide (g_pid e = pid p)); [done|]. by rewrite app_nil_r.
Qed.

Lemma slices_run (Q : Z) (g : list GanttEntry) (t : Z) (p p' : Process) :
  slices_ok Q g p →
  total_duration (intervals_of (pid p) g) + remaining p = burst p →
  0 < remaining p → 0 < Q →
  pid p' = pid p → burst p' = burst p →
  remaining p' = remaining p - Z.min Q (remaining p) →
  slices_ok Q (g ++ [mkGantt (pid p) t (t + Z.min Q (remaining p))]) p'.
Proof.
  intros [Hrun _] Hsum Hrem HQ Hpid Hb Hrem'.
  specialize (Hrun Hrem).
  unfold slices_ok. rewrite Hpid, Hb, Hrem', intervals_of_snoc. simpl.
  destruct (decide (pid p = pid p)); [|done].
  rewrite total_duration_app, length_app. simpl. unfold duration. simpl.
  rewrite Nat2Z.inj_add. simpl Z.of_nat.
  set (n := Z.of_nat (length (intervals_of (pid p) g))) in *.
  set (d := total_duration (intervals_of (pid p) g)) in *.
  split; intros H; nia.
Qed.

Lemma RR_body_slices (F : Prop) (A quantum : Z) (s : RR.state) :
  0 < quantum → RR_inv s →
  ext_inv F A (RR.procs s) (RR.gantt s) (RR.time s) →
  (∀ i p, RR.procs s !! i = Some p → slices_ok quantum (RR.gantt s) p) →
  match RR.body quantum s with
  | Next s' | Stop s' =>
      ∀ i p, RR.procs s' !! i = Some p → slices_ok quantum (RR.gantt s') p
  | Fault => True
  end.
Proof.
  intros Hq [Hinv Hg] Hext Hsl. destruct s as [ps q t c g idx]. simpl in *.
  unfold RR.body. simpl.
  destruct (negb _); [done|].
  destruct q as [|i q'].
  - destruct (idx <? length ps)%nat; [|done].
    destruct (ps !! idx) as [pn|]; [|done].
    destruct (t <? arrival pn); destruct (push_arrivals _ _ _ _); simpl; [|done].
    intros j p Hp. apply slices_other; [by eapply Hsl|].
    destruct (ei_static _ _ _ _ _ Hext j p Hp) as (Hpos & _).
    simpl. unfold idle_pid. lia.
  - assert (Hi : i ∈ i :: q') by left.
    apply (pi_ready _ _ _ _ _ _ Hinv) in Hi as (Hi & p & Hp & Hrem).
    rewrite Hp.
    destruct (mark_start_fields t p) as [Hmd Hms].
    set (p1 := mark_start t p) in *. clearbody p1.
    pose proof Hmd as Hmd'. injection Hmd' as Hmpid Hma Hmb _.
    rewrite Hms, Hmpid.
    assert (Hlen : (i < length ps)%nat) by (by eapply lookup_lt_Some).
    destruct (ei_track _ _ _ _ _ Hext i p Hp) as (Hsum & _).
    assert (Hall : ∀ p', pid p' = pid p → burst p' = burst p →
              remaining p' = remaining p - Z.min quantum (remaining p) →
              ∀ j x, <[i := p']> ps !! j = Some x →
                slices_ok quantum
                  (g ++ [mkGantt (pid p) t (t + Z.min quantum (remaining p))]) x).
    { intros p' Hp1 Hp2 Hp3 j x Hx. destruct (decide (i = j)) as [->|Hne].
      - rewrite list_lookup_insert_eq in Hx by done. injection Hx as <-.
        apply slices_run; try done. by eapply Hsl.
      - rewrite list_lookup_insert_ne in Hx by done.
        apply slices_other; [by eapply Hsl|]. simpl. intros Heq. apply Hne.
        apply (NoDup_lookup (pid <$> ps) i j (pid p)); [by eapply ei_nodup| |].
        + by rewrite list_lookup_fmap, Hp.
        + by rewrite list_lookup_fmap, Hx, Heq. }
    destruct (push_arrivals _ _ _ _). destruct (0 <? _); simpl.
    + by apply Hall.
    + rewrite list_insert_insert_eq. by apply Hall.
Qed.

Lemma PPS_body_slices (F : Prop) (A : Z) (s : PPS.state) :
  PPS_inv s →
  ext_inv F A (PPS.procs s) (PPS.gantt s) (PPS.time s) →
  (∀ i p, PPS.procs s !! i = Some p → slices_ok 1 (PPS.gantt s) p) →
  match PPS.body s with
  | Next s' | Stop s' =>
      ∀ i p, PPS.procs s' !! i = Some p → slices_ok 1 (PPS.gantt s') p
  | Fault => True
  end.
Proof.
  intros [Hinv Hg] Hext Hsl. destruct s as [ps pq t c g idx]. simpl in *.
  unfold PPS.body. simpl.
  destruct (negb _); [done|].
  destruct (push_arrivals (λ p, arrival p <=? t) (drop idx ps) idx pq)
    as [idx1 pq1] eqn:Hadm.
  destruct (proc_inv_push_le _ _ _ _ _ _ _ _ _ Hinv Hadm)
    as (k & -> & -> & Hinv1 & Hlate & _).
  destruct (pq_top _ _) as [cur|] eqn:Htop.
  - apply pq_top_elem in Htop.
    apply (pi_ready _ _ _ _ _ _ Hinv1) in Htop as (Hcur & p & Hp & Hrem).
    rewrite Hp.
    destruct (mark_start_fields t p) as [Hmd Hms].
    set (p1 := mark_start t p) in *. clearbody p1.
    pose proof Hmd as Hmd'. injection Hmd' as Hmpid Hma Hmb _.
    rewrite Hms, Hmpid.
    assert (Hlen : (cur < length ps)%nat) by (by eapply lookup_lt_Some).
    destruct (ei_track _ _ _ _ _ Hext cur p Hp) as (Hsum & _).
    assert (Hone : Z.min 1 (remaining p) = 1) by lia.
    assert (Hall : ∀ p', pid p' = pid p → burst p' = burst p →
              remaining p' = remaining p - 1 →
              ∀ j x, <[cur := p']> ps !! j = Some x →
                slices_ok 1 (g ++ [mkGantt (pid p) t (t + 1)]) x).
    { intros p' Hp1 Hp2 Hp3 j x Hx. destruct (decide (cur = j)) as [->|Hne].
      - rewrite list_lookup_insert_eq in Hx by done. injection Hx as <-.
        rewrite <- Hone at 2. apply slices_run; try done; [by eapply Hsl|lia].
      - rewrite list_lookup_insert_ne in Hx by done.
        apply slices_other; [by eapply Hsl|]. simpl. intros Heq. apply Hne.
        apply (NoDup_lookup (pid <$> ps) cur j (pid p)); [by eapply ei_nodup| |].
        + by rewrite list_lookup_fmap, Hp.
        + by rewrite list_lookup_fmap, Hx, Heq. }
    destruct (push_arrivals _ _ _ (pq_remove _ _)). destruct (0 <? _); simpl.
    + by apply Hall.
    + rewrite list_insert_insert_eq. by apply Hall.
  - destruct (_ <? _)%nat; [|done].
    destruct (ps !! _) as [pn|]; [|done].
    destruct (t <? arrival pn); simpl; [|done].
    intros j p Hp. apply slices_other; [by eapply Hsl|].
    destruct (ei_static _ _ _ _ _ Hext j p Hp) as (Hpos & _).
    simpl. unfold idle_pid. lia.
Qed.

Lemma slices_initial (F : Prop) (A Q : Z) ps g t :
  ext_inv F A ps g t → Forall (λ p, remaining p = burst p) ps →
  ∀ i p, ps !! i = Some p → slices_ok Q g p.
Proof.
  intros Hext Hfull i p Hp.
  destruct (ei_static _ _ _ _ _ Hext i p Hp) as (_ & _ & Hb).
  destruct (ei_track _ _ _ _ _ Hext i p Hp) as (_ & Hnew & _).
  pose proof (Forall_lookup_1 _ _ _ _ Hfull Hp) as Hr. simpl in Hr.
  destruct (Hnew Hr) as [Hnone _].
  unfold slices_ok. rewrite Hnone. simpl. split; intros; lia.
Qed.

(** Over the integers: how often each process is dispatched. *)
Lemma exact_counts (input : list Process) (quantum : Z) :
  valid_procs input → 0 < quantum →
  (∃ fuel g ps, round_robin fuel input quantum = Finished (g, ps)
      ∧ descriptor <$> ps = descriptor <$> sort_by RR.less input
      ∧ Forall (λ p, quantum * (Z.of_nat (length (intervals_of (pid p) g)) - 1) < burst p
                     ∧ burst p ≤ quantum * Z.of_nat (length (intervals_of (pid p) g)))
               ps)
  ∧ (∃ fuel g ps, preemptive_priority fuel input = Finished (g, ps)
      ∧ descriptor <$> ps = descriptor <$> sort_by PPS.less input
      ∧ Forall (λ p, Z.of_nat (length (intervals_of (pid p) g)) = burst p) ps).
Proof.
  intros Hvalid Hq. pose proof Hvalid as (_ & _ & Hv).
  set (A := max_arrival input). split.
  - destruct (RR_init_inv input Hv) as (s0 & Hinit & Hinv0 & Hprocs0).
    set (I := λ s, RR_inv s
              ∧ descriptor <$> RR.procs s = descriptor <$> sort_by RR.less input
              ∧ ext_inv (fresh_procs input) A (RR.procs s) (RR.gantt s) (RR.time s)
              ∧ ∀ i p, RR.procs s !! i = Some p → slices_ok quantum (RR.gantt s) p).
    destruct (loop_terminates (RR.body quantum) I (λ s, all_done (RR.procs s)) RR_variant)
      with (s := s0) as (s & Hrun & ([Hinv Hg] & Hdesc & Hext & Hsl) & Hdone).
    { intros s1 (Hinv1 & Hdesc1 & Hext1 & Hsl1).
      pose proof (RR_body_step quantum s1 Hq Hinv1) as Hstep.
      pose proof (RR_body_descriptor quantum s1) as Hd.
      pose proof (RR_body_ext _ A quantum s1 Hq Hinv1 Hext1) as He.
      pose proof (RR_body_slices _ A quantum s1 Hq Hinv1 Hext1 Hsl1) as Hs.
      destruct (RR.body quantum s1) as [s2|s2|]; [| |done].
      - destruct Hstep as (? & ? & _).
        split; [split; [done|split; [by rewrite Hd|split; done]]|done].
      - destruct Hstep as (? & ?).
        split; [split; [done|split; [by rewrite Hd|split; done]]|done]. }
    { pose proof (RR_init_ext A input s0 Hvalid (max_arrival_bound input) Hinit) as Hext0.
      split; [done|]. split; [by rewrite Hprocs0|]. split; [done|].
      apply (slices_initial _ A _ _ _ _ Hext0). rewrite Hprocs0.
      eapply Forall_impl; [exact (sorted_valid input Hv)|]. by intros p (_ & _ & _ & ?). }
    exists (S (RR_variant s0)), (RR.gantt s), (RR.procs s).
    unfold round_robin, RR.run_from. rewrite Hinit, Hrun. split; [done|].
    split; [done|]. apply Forall_lookup_2. intros i p Hp.
    destruct (Forall_lookup_1 _ _ _ _ Hdone Hp) as [Hrem _].
    destruct (Hsl i p Hp) as [_ Hfin]. by apply Hfin.
  - destruct (PPS_init_inv input Hv) as (Hinv0 & Hprocs0).
    set (I := λ s, PPS_inv s
              ∧ descriptor <$> PPS.procs s = descriptor <$> sort_by PPS.less input
              ∧ ext_inv (fresh_procs input) A (PPS.procs s) (PPS.gantt s) (PPS.time s)
              ∧ ∀ i p, PPS.procs s !! i = Some p → slices_ok 1 (PPS.gantt s) p).
    destruct (loop_terminates PPS.body I (λ s, all_done (PPS.procs s)) PPS_variant)
      with (s := PPS.init input) as (s & Hrun & ([Hinv Hg] & Hdesc & Hext & Hsl) & Hdone).
    { intros s1 (Hinv1 & Hdesc1 & Hext1 & Hsl1).
      pose proof (PPS_body_step s1 Hinv1) as Hstep.
      pose proof (PPS_body_descriptor s1) as Hd.
      pose proof (PPS_body_ext _ A s1 Hinv1 Hext1) as He.
      pose proof (PPS_body_slices _ A s1 Hinv1 Hext1 Hsl1) as Hs.
      destruct (PPS.body s1) as [s2|s2|]; [| |done].
      - destruct Hstep as (? & ? & _).
        split; [split; [done|split; [by rewrite Hd|split; done]]|done].
      - destruct Hstep as (? & ?).
        split; [split; [done|split; [by rewrite Hd|split; done]]|done]. }
    { pose proof (PPS_init_ext A input Hvalid (max_arrival_bound input)) as Hext0.
      split; [done|]. split; [by rewrite Hprocs0|]. split; [done|].
      apply (slices_initial _ A _ _ _ _ Hext0). rewrite Hprocs0.
      eapply Forall_impl; [exact (sorted_valid input Hv)|]. by intros p (_ & _ & _ & ?). }
    exists (S (PPS_variant (PPS.init input))), (PPS.gantt s), (PPS.procs s).
    unfold preemptive_priority, PPS.run_from. rewrite Hrun. split; [done|].
    split; [done|]. apply Forall_lookup_2. intros i p Hp.
    destruct (Forall_lookup_1 _ _ _ _ Hdone Hp) as [Hrem _].
    destruct (Hsl i p Hp) as [_ Hfin]. specialize (Hfin Hrem). lia.
Qed.

(** ** The table that a run returns *)






(** * The engines over [int] *)

(** ** Wrap-around *)

Lemma wrap_id (z : Z) : I32.int_range z → I32.wrap z = z.
Proof.
  unfold I32.int_range, I32.INT_MIN, I32.INT_MAX, I32.wrap. intros Hz.
  rewrite Z.mod_small; lia.
Qed.

(** A sum with a positive [int] is never the value it started from. *)
Lemma wrap_moves (t e : Z) : 0 < e ≤ I32.INT_MAX → I32.wrap (t + e) ≠ t.
Proof.
  unfold I32.INT_MAX, I32.wrap. intros He Heq.
  pose proof (Z.div_mod (t + e + 2147483648) 4294967296 ltac:(lia)) as Hdm.
  lia.
Qed.

(** ** Timelines without a gap *)

Lemma link_snoc (t0 t t' : Z) (g : list GanttEntry) (who : Z) :
  link t0 g t → t ≠ t' → link t0 (g ++ [mkGantt who t t']) t'.
Proof.
  revert t0. induction g as [|e g IH]; intros t0 Hc Hne; simpl in *.
  - subst. done.
  - destruct Hc as (? & ? & ?). auto.
Qed.

Lemma link_contiguous (t0 t : Z) (g : list GanttEntry) : link t0 g t → contiguous g.
Proof.
  revert t0. induction g as [|e g IH]; intros t0 Hc i a b Ha Hb.
  - by rewrite lookup_nil in Ha.
  - simpl in Hc. destruct Hc as (_ & _ & Hc). destruct i as [|i]; simpl in *.
    + simplify_eq. destruct g as [|e' g]; simpl in *; simplify_eq.
      by destruct Hc as (-> & _).
    + by apply (IH _ Hc i).
Qed.

Lemma link_start (t0 t : Z) (g : list GanttEntry) :
  link t0 g t → g ≠ [] → ∃ e rest, g = e :: rest ∧ g_start e = t0.
Proof.
  destruct g as [|e g]; simpl; [done|]. intros (? & _ & _) _. eauto.
Qed.

Lemma link_nonempty (t0 t : Z) (g : list GanttEntry) :
  link t0 g t → Forall (λ e, g_start e ≠ g_end e) g.
Proof.
  revert t0. induction g as [|e g IH]; intros t0 Hc; [done|].
  simpl in Hc. destruct Hc as (_ & ? & Hc). constructor; [done|]. by eapply IH.
Qed.

Lemma link_makespan (t0 t : Z) (g : list GanttEntry) :
  link t0 g t → g ≠ [] → makespan g = t.
Proof.
  unfold makespan. revert t0. induction g as [|e g IH]; intros t0 Hc Hne; [done|].
  simpl in Hc. destruct Hc as (_ & _ & Hc).
  destruct g as [|e' g]; [simpl in *; done|].
  rewrite last_cons_cons. by eapply IH.
Qed.

(** ** The ready queue *)

Lemma ready_inv_perm ps ready ready' idx t c :
  ready ≡ₚ ready' → ready_inv ps ready idx t c → ready_inv ps ready' idx t c.
Proof.
  intros Hp [Hsort Hidx Hbasic Hfut Hnd Hready Hdone Hc].
  constructor; try done.
  - by rewrite <- Hp.
  - intros i. by rewrite <- Hp.
  - by rewrite <- Hp.
Qed.

(** Admission of the processes [idx .. idx + k - 1], when nothing from
    [idx + k] on arrives before [t']. *)
Lemma ready_inv_push ps ready idx k t t' c :
  ready_inv ps ready idx t c →
  (idx + k ≤ length ps)%nat →
  (∀ j p, (idx + k ≤ j)%nat → ps !! j = Some p → t' ≤ arrival p) →
  ready_inv ps (ready ++ seq idx k) (idx + k) t' c.
Proof.
  intros [Hsort Hidx Hbasic Hfut Hnd Hready Hdone Hc] Hlen Hout.
  constructor; try done.
  - intros j p Hj Hp. split; [by eapply Hout|]. apply (Hfut j p); [lia|done].
  - apply NoDup_app. split; [done|]. split; [|apply NoDup_seq].
    intros i Hi Hs. apply Hready in Hi as [Hi _]. apply elem_of_seq in Hs. lia.
  - intros i. rewrite elem_of_app, Hready, elem_of_seq. split.
    + intros [[Hi Hp]|Hi]; [split; [lia|done]|].
      split; [lia|]. destruct (lookup_lt_is_Some_2 ps i) as [p Hp]; [lia|].
      exists p. split; [done|].
      destruct (Hfut i p) as [_ ->]; [lia|done|]. by apply (Hbasic i).
    + intros [Hi Hp]. destruct (decide (i < idx)%nat); [left; done|right; lia].
  - rewrite length_app, length_seq. lia.
Qed.

(** Admission by the test [arrival <= t']. *)
Lemma ready_inv_push_le ps ready idx t t' c q0 idx' q' :
  ready_inv ps ready idx t c →
  push_arrivals (λ p, arrival p <=? t') (drop idx ps) idx q0 = (idx', q') →
  ∃ k, idx' = (idx + k)%nat ∧ q' = q0 ++ seq idx k
       ∧ ready_inv ps (ready ++ seq idx k) idx' t' c
       ∧ (∀ j p, (idx' ≤ j)%nat → ps !! j = Some p → t' < arrival p)
       ∧ (∀ p, ps !! idx = Some p → arrival p ≤ t' → (0 < k)%nat).
Proof.
  intros Hinv Hadm.
  destruct (push_arrivals_spec (λ p, arrival p <=? t') (drop idx ps) idx q0)
    as (k & Heq & Hk & Hin & Hout).
  rewrite Hadm in Heq. injection Heq as -> ->.
  rewrite length_drop in Hk.
  assert (Hidx := ri_idx _ _ _ _ _ Hinv).
  assert (Hlate : ∀ j p, (idx + k ≤ j)%nat → ps !! j = Some p → t' < arrival p).
  { intros j p Hj Hp.
    destruct (lookup_lt_is_Some_2 ps (idx + k)) as [pk Hpk].
    { apply lookup_lt_Some in Hp. lia. }
    assert (arrival pk ≤ arrival p) by (by eapply (ri_sorted _ _ _ _ _ Hinv)).
    specialize (Hout pk). rewrite lookup_drop in Hout. specialize (Hout Hpk).
    simpl in Hout. lia. }
  exists k. split; [done|]. split; [done|]. split; [|split; [done|]].
  - apply ready_inv_push with (t := t); try done; try lia.
    intros j p Hj Hp. specialize (Hlate j p Hj Hp). lia.
  - intros p Hp Harr. destruct k as [|k]; [|lia].
    specialize (Hlate idx p ltac:(lia) Hp). lia.
Qed.

(** Admission by the test [arrival == t'], when nothing still to be
    admitted has arrived before [t']. *)
Lemma ready_inv_push_eq ps ready idx t t' c q0 idx' q' :
  ready_inv ps ready idx t c →
  (∀ p, ps !! idx = Some p → t' ≤ arrival p) →
  push_arrivals (λ p, arrival p =? t') (drop idx ps) idx q0 = (idx', q') →
  ∃ k, idx' = (idx + k)%nat ∧ q' = q0 ++ seq idx k
       ∧ ready_inv ps (ready ++ seq idx k) idx' t' c
       ∧ (∀ j p, (idx' ≤ j)%nat → ps !! j = Some p → t' < arrival p)
       ∧ (∀ p, ps !! idx = Some p → arrival p ≤ t' → (0 < k)%nat).
Proof.
  intros Hinv Hfirst Hadm.
  apply (ready_inv_push_le _ _ _ t _ _ _ _ _ Hinv).
  rewrite <- Hadm. apply push_arrivals_ext.
  intros p [j Hj]%list_elem_of_lookup. rewrite lookup_drop in Hj.
  destruct (lookup_lt_is_Some_2 ps idx) as [p0 Hp0].
  { apply lookup_lt_Some in Hj. lia. }
  assert (arrival p0 ≤ arrival p).
  { apply (ri_sorted _ _ _ _ _ Hinv idx (idx + j)%nat); [lia|done|done]. }
  specialize (Hfirst p0 Hp0). lia.
Qed.

(** The dispatched process [i] runs for [exec] ticks and is then queued
    again or finalized. *)
Lemma ready_inv_run ps ready rest idx t c i p p' exec :
  ready_inv ps ready idx t c →
  ready ≡ₚ i :: rest →
  ps !! i = Some p →
  0 < exec ≤ remaining p →
  same_static p p' →
  remaining p' = remaining p - exec →
  (remaining p' = 0 → int_finalized p') →
  ready_inv (<[i := p']> ps)
            (if 0 <? remaining p' then rest ++ [i] else rest) idx t
            (if 0 <? remaining p' then c else S c).
Proof.
  intros Hinv Hperm Hp Hexec (Hpid & Harr & Hburst & Hprio) Hrem Hfin.
  apply (ready_inv_perm _ _ _ _ _ _ Hperm) in Hinv.
  destruct Hinv as [Hsort Hidx Hbasic Hfut Hnd Hready Hdone Hc].
  assert (Hi : (i < idx)%nat) by (apply Hready; left).
  assert (Hlen : (i < length ps)%nat) by (by eapply lookup_lt_Some).
  apply NoDup_cons in Hnd as [Hnotin Hnd].
  destruct (Hbasic i p Hp) as (Hb1 & Hb2).
  assert (Hlook : ∀ j x, <[i := p']> ps !! j = Some x →
            (j = i ∧ x = p') ∨ (j ≠ i ∧ ps !! j = Some x)).
  { intros j x Hx. destruct (decide (i = j)) as [->|Hne].
    - rewrite list_lookup_insert_eq in Hx by done. left. by simplify_eq.
    - rewrite list_lookup_insert_ne in Hx by done. right. done. }
  assert (Hrest : ∀ j, j ∈ rest ↔
            j ≠ i ∧ (j < idx)%nat ∧ ∃ x, ps !! j = Some x ∧ 0 < remaining x).
  { intros j. split.
    - intros Hj. split; [by intros ->|]. apply Hready. by right.
    - intros (Hne & Hj). apply Hready in Hj. by apply elem_of_cons in Hj as [?|?]. }
  constructor.
  - intros a b x y Hab Hx Hy.
    apply Hlook in Hx as [[-> ->]|[_ Hx]]; apply Hlook in Hy as [[-> ->]|[_ Hy]].
    + lia.
    + rewrite Harr. by apply (Hsort i b).
    + rewrite Harr. by apply (Hsort a i).
    + by apply (Hsort a b).
  - by rewrite length_insert.
  - intros j x Hx. apply Hlook in Hx as [[-> ->]|[_ Hx]]; [|by eapply Hbasic].
    rewrite Hburst, Hrem. lia.
  - intros j x Hj Hx. apply Hlook in Hx as [[-> ->]|[_ Hx]]; [lia|by eapply Hfut].
  - destruct (0 <? remaining p'); [|done].
    apply NoDup_app. split; [done|]. split; [|apply NoDup_singleton].
    intros j Hj ->%list_elem_of_singleton. done.
  - intros j. destruct (0 <? remaining p') eqn:Hpos.
    + apply Z.ltb_lt in Hpos. rewrite elem_of_app, list_elem_of_singleton, Hrest. split.
      * intros [(Hne & Hj & x & Hx & Hxr)|Heq].
        -- split; [done|]. exists x. by rewrite list_lookup_insert_ne.
        -- subst j. split; [done|]. exists p'. by rewrite list_lookup_insert_eq.
      * intros (Hj & x & Hx & Hxr). apply Hlook in Hx as [[-> ->]|[Hne Hx]]; [by right|].
        left. eauto.
    + apply Z.ltb_ge in Hpos. rewrite Hrest. split.
      * intros (Hne & Hj & x & Hx & Hxr).
        split; [done|]. exists x. by rewrite list_lookup_insert_ne.
      * intros (Hj & x & Hx & Hxr). apply Hlook in Hx as [[-> ->]|[Hne Hx]]; [lia|].
        eauto.
  - intros j x Hx Hx0. apply Hlook in Hx as [[-> ->]|[_ Hx]]; [|by eapply Hdone].
    by apply Hfin.
  - simpl in Hc. destruct (0 <? remaining p').
    + rewrite length_app. simpl. lia.
    + lia.
Qed.

Lemma ready_inv_all_done ps ready idx t c :
  ready_inv ps ready idx t c →
  (length ps ≤ c)%nat ∨ (ready = [] ∧ length ps ≤ idx)%nat →
  all_finalized ps.
Proof.
  intros [Hsort Hidx Hbasic Hfut Hnd Hready Hdone Hc] Hend.
  assert (Hq : ready = [] ∧ idx = length ps).
  { destruct Hend as [Hend|[-> Hend]]; [|split; [done|lia]].
    destruct ready; [split; [done|simpl in Hc; lia]|simpl in Hc; lia]. }
  destruct Hq as [-> ->].
  apply Forall_lookup_2. intros i p Hp.
  assert (Hr : remaining p = 0).
  { destruct (Hbasic i p Hp) as (_ & Hr).
    destruct (decide (0 < remaining p)) as [Hpos|]; [|lia].
    assert (i ∈ @nil nat) as Hi%elem_of_nil; [|done].
    apply Hready. split; [by eapply lookup_lt_Some|eauto]. }
  split; [done|]. by apply (Hdone i).
Qed.

(** ** The timeline *)

Lemma line_inv_idle g t t' ps :
  line_inv g t ps → t ≠ t' → line_inv (g ++ [idle_entry t t']) t' ps.
Proof.
  intros [Hlink Hfresh] Hne. constructor.
  - by apply link_snoc.
  - intros Hnil. by destruct g.
Qed.

Lemma line_inv_run g t t' ps ps' who :
  line_inv g t ps → t ≠ t' → line_inv (g ++ [mkGantt who t t']) t' ps'.
Proof.
  intros [Hlink Hfresh] Hne. constructor.
  - by apply link_snoc.
  - intros Hnil. by destruct g.
Qed.

Lemma initial_int_inv (ps : list Process) :
  key_sorted arrival ps → Forall valid_process ps → Forall int_process ps →
  ready_inv ps [] 0 0 0 ∧ line_inv [] 0 ps.
Proof.
  intros Hsort Hvalid Hint.
  assert (Hv : ∀ i p, ps !! i = Some p → valid_process p ∧ int_process p).
  { intros i p Hp. split; by eapply Forall_lookup_1. }
  split; constructor; try done.
  - lia.
  - intros i p Hp. destruct (Hv i p Hp) as ((? & ? & ? & ?) & (_ & _ & Hb & _)).
    unfold I32.int_range in Hb. lia.
  - intros j p _ Hp. by destruct (Hv j p Hp) as ((? & ? & ? & ?) & _).
  - apply NoDup_nil_2.
  - intros i. split; [by intros ?%elem_of_nil|]. intros [Hi _]. lia.
  - intros i p Hp Hr. destruct (Hv i p Hp) as ((? & ? & ? & ?) & _). lia.
  - intros _ i p Hp. by destruct (Hv i p Hp) as ((? & ? & ? & ?) & _).
Qed.

(** ** One dispatch, as both loop bodies perform it *)

Lemma dispatch_int ps ready rest idx t c g i p exec idx1 q1 :
  ready_inv ps ready idx t c →
  line_inv g t ps →
  ready ≡ₚ i :: rest →
  ps !! i = Some p →
  0 < exec ≤ remaining p →
  let p1 := mark_start t p in
  let p2 := set_remaining (I32.wrap (remaining p1 - exec)) p1 in
  let procs1 := <[i := p2]> ps in
  let time1 := I32.wrap (t + exec) in
  let g1 := g ++ [mkGantt (pid p1) t time1] in
  push_arrivals (λ x, arrival x <=? time1) (drop idx procs1) idx rest = (idx1, q1) →
  remaining p2 = remaining p - exec
  ∧ total_remaining procs1 = total_remaining ps - exec
  ∧ (∃ k, idx1 = (idx + k)%nat ∧ q1 = rest ++ seq idx k)
  ∧ if 0 <? remaining p2
    then ready_inv procs1 (q1 ++ [i]) idx1 time1 c
         ∧ line_inv g1 time1 procs1
    else ready_inv (<[i := I32.finalize time1 p2]> procs1) q1 idx1 time1 (S c)
         ∧ line_inv g1 time1 (<[i := I32.finalize time1 p2]> procs1)
         ∧ total_remaining (<[i := I32.finalize time1 p2]> procs1)
           = total_remaining ps - exec.
Proof.
  intros Hinv Hg Hperm Hp Hexec p1 p2 procs1 time1 g1 Hadm.
  assert (Hi : (i < idx)%nat).
  { apply (ri_ready _ _ _ _ _ Hinv). rewrite Hperm. left. }
  assert (Hlen : (i < length ps)%nat) by (by eapply lookup_lt_Some).
  destruct (ri_basic _ _ _ _ _ Hinv i p Hp) as (Hburst & Hrem).
  assert (Hp1 : pid p1 = pid p ∧ arrival p1 = arrival p ∧ burst p1 = burst p
                ∧ priority p1 = priority p ∧ remaining p1 = remaining p).
  { unfold p1, mark_start. by destruct (start_time p =? -1). }
  destruct Hp1 as (Hp1a & Hp1b & Hp1c & Hp1d & Hp1e).
  assert (Hr2 : remaining p2 = remaining p - exec).
  { unfold p2. simpl. rewrite Hp1e. apply wrap_id.
    unfold I32.int_range, I32.INT_MIN, I32.INT_MAX in *. lia. }
  assert (Hmove : t ≠ time1).
  { intros Heq. apply (wrap_moves t exec); [lia|done]. }
  assert (Hdrop : ∀ x, drop idx (<[i := x]> ps) = drop idx ps).
  { intros x. by apply drop_insert_lt. }
  assert (Hrem1 : total_remaining procs1 = total_remaining ps - exec).
  { unfold procs1. rewrite (total_remaining_insert _ _ p) by done. lia. }
  split; [done|]. split; [done|].
  unfold procs1 in Hadm. rewrite Hdrop in Hadm.
  destruct (ready_inv_push_le _ _ _ _ _ _ _ _ _ Hinv Hadm) as (k & Hidx1 & Hq1 & _).
  split; [by exists k|].
  destruct (0 <? remaining p2) eqn:Hpos.
  - assert (Hrun : ready_inv procs1 (rest ++ [i]) idx t c).
    { pose proof (ready_inv_run ps ready rest idx t c i p p2 exec Hinv Hperm Hp Hexec) as H.
      rewrite Hpos in H. apply H.
      - unfold same_static. simpl. by rewrite Hp1a, Hp1b, Hp1c, Hp1d.
      - done.
      - apply Z.ltb_lt in Hpos. lia. }
    rewrite <- (Hdrop p2) in Hadm.
    destruct (ready_inv_push_le _ _ _ _ _ _ _ _ _ Hrun Hadm) as (k' & Hk1 & Hk2 & Hinv' & _).
    assert (k' = k) as -> by lia. subst idx1 q1.
    split.
    + eapply ready_inv_perm; [|exact Hinv'].
      rewrite <- !app_assoc. apply Permutation_app_head, Permutation_app_comm.
    + by apply (line_inv_run g t time1 ps).
  - set (p3 := I32.finalize time1 p2).
    assert (Hfinal : <[i := p3]> procs1 = <[i := p3]> ps).
    { unfold procs1. apply list_insert_insert_eq. }
    rewrite Hfinal.
    assert (Hrun : ready_inv (<[i := p3]> ps) rest idx t (S c)).
    { pose proof (ready_inv_run ps ready rest idx t c i p p3 exec Hinv Hperm Hp Hexec) as H.
      assert (Hr3 : remaining p3 = remaining p2) by done.
      rewrite Hr3, Hpos in H. apply H.
      - unfold same_static. simpl. by rewrite Hp1a, Hp1b, Hp1c, Hp1d.
      - done.
      - intros _. by split. }
    rewrite <- (Hdrop p3) in Hadm.
    destruct (ready_inv_push_le _ _ _ _ _ _ _ _ _ Hrun Hadm) as (k' & Hk1 & Hk2 & Hinv' & _).
    assert (k' = k) as -> by lia. subst idx1 q1.
    split; [done|]. split.
    + by apply (line_inv_run g t time1 ps).
    + rewrite (total_remaining_insert _ _ p) by done.
      assert (remaining p3 = remaining p - exec) as -> by (by rewrite <- Hr2). lia.
Qed.

(** ** Round Robin over [int]: the invariant holds from [init] on *)

Lemma RR_int_init (input : list Process) :
  Forall valid_process input → Forall int_process input →
  ∃ s0, RR.init input = Finished s0 ∧ RR_int_inv s0
        ∧ RR.procs s0 = sort_by RR.less input.
Proof.
  intros Hvalid Hint. unfold RR.init.
  set (ps := sort_by RR.less input).
  assert (Hint' : Forall int_process ps) by (unfold ps; by rewrite sort_by_perm).
  destruct (initial_int_inv ps (RR_sort_arrival input) (sorted_valid input Hvalid) Hint')
    as [Hinv Hg].
  rewrite (skip_while_push _ _ _ []).
  destruct (push_arrivals (λ p, arrival p =? 0) ps 0%nat []) as [idx0 q0] eqn:Hadm0. simpl.
  assert (Hadm0' : push_arrivals (λ p, arrival p =? 0) (drop 0 ps) 0%nat [] = (idx0, q0)) by done.
  assert (Hfirst0 : ∀ p, ps !! 0%nat = Some p → 0 ≤ arrival p).
  { intros p Hp. by destruct (ri_future _ _ _ _ _ Hinv 0%nat p). }
  destruct (ready_inv_push_eq _ _ _ _ _ _ _ _ _ Hinv Hfirst0 Hadm0')
    as (k & -> & -> & Hinv0 & Hlate0 & _).
  simpl in *. destruct k as [|k]; simpl.
  - destruct (0 <? length ps)%nat eqn:Hn;
      [|eexists; split; [done|]; split; [by split|done]].
    apply Nat.ltb_lt in Hn.
    destruct (lookup_lt_is_Some_2 ps 0%nat Hn) as [pn Hpn]. rewrite Hpn.
    assert (Hpos : 0 < arrival pn) by (by apply (Hlate0 0%nat)).
    destruct (push_arrivals (λ p, arrival p =? arrival pn) (drop 0 ps) 0%nat [])
      as [idx1 q1] eqn:Hadm1.
    eexists. split; [done|]. split; [|done]. unfold RR_int_inv. simpl.
    assert (Hfirst1 : ∀ p, ps !! 0%nat = Some p → arrival pn ≤ arrival p).
    { intros p Hp. simplify_eq. lia. }
    destruct (ready_inv_push_eq _ _ _ _ _ _ _ _ _ Hinv0 Hfirst1 Hadm1)
      as (k & -> & -> & Hinv1 & _).
    split; [done|]. apply (line_inv_idle [] 0); [done|lia].
  - eexists. split; [done|]. split; [|done]. by split.
Qed.

Lemma RR_int_step (quantum : Z) (s : RR.state) :
  0 < quantum → RR_int_inv s →
  match I32.rr_body quantum s with
  | Next s' =>
      RR_int_inv s' ∧ (RR_variant s' < RR_variant s)%nat
      ∧ (dispatched (RR.gantt s) (RR.gantt s') →
         0 ≤ total_remaining (RR.procs s') < total_remaining (RR.procs s))
  | Stop s' => RR_int_inv s' ∧ all_finalized (RR.procs s')
  | Fault => False
  end.
Proof.
  intros Hq [Hinv Hg]. destruct s as [ps q t c g idx]. simpl in *.
  unfold I32.rr_body. simpl.
  destruct (c <? length ps)%nat eqn:Hc; simpl.
  2:{ apply Nat.ltb_ge in Hc. split; [done|]. eapply ready_inv_all_done; eauto. }
  destruct q as [|i q'].
  - destruct (idx <? length ps)%nat eqn:Hidx.
    2:{ apply Nat.ltb_ge in Hidx. split; [done|]. eapply ready_inv_all_done; eauto. }
    apply Nat.ltb_lt in Hidx.
    destruct (lookup_lt_is_Some_2 ps idx Hidx) as [pn Hpn]. rewrite Hpn.
    destruct (ri_future _ _ _ _ _ Hinv idx pn) as [Hle _]; [lia|done|].
    assert (Hstep : ∀ g1 time1 idx1 q1,
      time1 = arrival pn → line_inv g1 time1 ps →
      push_arrivals (λ p, arrival p =? time1) (drop idx ps) idx [] = (idx1, q1) →
      RR_int_inv (RR.mkState ps q1 time1 c g1 idx1)
      ∧ (RR_variant (RR.mkState ps q1 time1 c g1 idx1)
         < RR_variant (RR.mkState ps [] t c g idx))%nat).
    { intros g1 time1 idx1 q1 -> Hg1 Hadm.
      assert (Hfirst : ∀ p, ps !! idx = Some p → arrival pn ≤ arrival p).
      { intros p Hp. simplify_eq. lia. }
      destruct (ready_inv_push_eq _ _ _ _ _ _ _ _ _ Hinv Hfirst Hadm)
        as (k & -> & -> & Hinv1 & _ & Hk).
      split; [by split|].
      specialize (Hk pn Hpn ltac:(lia)). unfold RR_variant. simpl.
      destruct k; [lia|]. simpl. lia. }
    destruct (t <? arrival pn) eqn:Hlt.
    + destruct (push_arrivals _ _ _ _) as [idx1 q1] eqn:Hadm.
      destruct (Hstep (g ++ [idle_entry t (arrival pn)]) (arrival pn) idx1 q1)
        as (Hi1 & Hv1); [done| |done|].
      { apply line_inv_idle; [done|lia]. }
      split; [done|]. split; [done|]. simpl.
      intros Hd. by apply not_dispatched_idle in Hd.
    + destruct (push_arrivals _ _ _ _) as [idx1 q1] eqn:Hadm.
      assert (t = arrival pn) as Heq by lia.
      destruct (Hstep g t idx1 q1) as (Hi1 & Hv1); [exact Heq|done|done|].
      split; [done|]. split; [done|]. simpl.
      intros Hd. by apply not_dispatched_same in Hd.
  - assert (Hi : i ∈ i :: q') by left.
    apply (ri_ready _ _ _ _ _ Hinv) in Hi as (Hi & p & Hp & Hrem).
    rewrite Hp.
    assert (Hms : remaining (mark_start t p) = remaining p).
    { unfold mark_start. by destruct (start_time p =? -1). }
    rewrite Hms.
    set (exec := Z.min quantum (remaining p)).
    assert (Hexec : 0 < exec ≤ remaining p) by (unfold exec; lia).
    destruct (push_arrivals _ _ _ _) as [idx1 q1] eqn:Hadm.
    pose proof (dispatch_int ps (i :: q') q' idx t c g i p exec idx1 q1
                  Hinv Hg (reflexivity _) Hp Hexec) as Hd.
    simpl in Hd. rewrite Hms in Hd. specialize (Hd Hadm).
    destruct Hd as (Hr2 & Hrem1 & _ & Hd).
    assert (0 ≤ total_remaining ps - exec).
    { rewrite <- Hrem1. apply total_remaining_nonneg. intros j x Hx.
      destruct (decide (i = j)) as [->|Hne].
      - rewrite list_lookup_insert_eq in Hx by (by eapply lookup_lt_Some).
        simplify_eq. simpl. simpl in Hr2. lia.
      - rewrite list_lookup_insert_ne in Hx by done.
        by destruct (ri_basic _ _ _ _ _ Hinv j x Hx) as (_ & ? & _). }
    simpl. destruct (0 <? I32.wrap (remaining p - exec)) eqn:Hpos.
    + destruct Hd as [Hinv1 Hg1]. split; [by split|]. simpl.
      split; [|intros _; lia].
      unfold RR_variant. simpl. rewrite Hrem1.
      destruct (q1 ++ [i]); lia.
    + destruct Hd as (Hinv1 & Hg1 & Hrem2). split; [by split|]. simpl.
      split; [|intros _; lia].
      unfold RR_variant. simpl. rewrite Hrem2.
      destruct q1; lia.
Qed.

(** ** Preemptive Priority over [int]: the invariant holds from [init] on *)

Lemma PPS_int_init (input : list Process) :
  Forall valid_process input → Forall int_process input →
  PPS_int_inv (PPS.init input) ∧ PPS.procs (PPS.init input) = sort_by PPS.less input.
Proof.
  intros Hvalid Hint. unfold PPS.init.
  set (ps := sort_by PPS.less input).
  assert (Hint' : Forall int_process ps) by (unfold ps; by rewrite sort_by_perm).
  destruct (initial_int_inv ps (PPS_sort_arrival input) (sorted_valid input Hvalid) Hint')
    as [Hinv Hg].
  destruct (ps !! 0%nat) as [p0|] eqn:Hp0; [|by split].
  destruct (arrival p0 >? 0) eqn:Hpos; [|by split].
  split; [|done]. split; simpl.
  - replace (@nil nat) with (@nil nat ++ seq 0 0) by done.
    apply (ready_inv_push ps [] 0 0 0 (arrival p0) 0%nat Hinv); [simpl; lia|].
    intros j p _ Hp. apply (ri_sorted _ _ _ _ _ Hinv 0%nat j); [lia|done|done].
  - apply (line_inv_idle [] 0); [done|lia].
Qed.

Lemma PPS_int_step (s : PPS.state) :
  PPS_int_inv s →
  match I32.pps_body s with
  | Next s' =>
      PPS_int_inv s' ∧ (PPS_variant s' < PPS_variant s)%nat
      ∧ (dispatched (PPS.gantt s) (PPS.gantt s') →
         0 ≤ total_remaining (PPS.procs s') < total_remaining (PPS.procs s))
  | Stop s' => PPS_int_inv s' ∧ all_finalized (PPS.procs s')
  | Fault => False
  end.
Proof.
  intros [Hinv Hg]. destruct s as [ps pq t c g idx]. simpl in *.
  unfold I32.pps_body. simpl.
  destruct (c <? length ps)%nat eqn:Hc; simpl.
  2:{ apply Nat.ltb_ge in Hc. split; [done|]. eapply ready_inv_all_done; eauto. }
  unfold PPS_variant at 2. simpl.
  destruct (push_arrivals (λ p, arrival p <=? t) (drop idx ps) idx pq) as [idx1 pq1] eqn:Hadm.
  destruct (ready_inv_push_le _ _ _ _ _ _ _ _ _ Hinv Hadm)
    as (k & -> & -> & Hinv1 & Hlate & _).
  set (pq1 := pq ++ seq idx k) in *. set (idx1 := (idx + k)%nat) in *. simpl.
  destruct (pq_top (PPS.cmp ps) pq1) as [cur|] eqn:Htop.
  - apply pq_top_elem in Htop.
    pose proof (pq_remove_perm _ _ Htop) as Hperm.
    apply (ri_ready _ _ _ _ _ Hinv1) in Htop as (Hcur & p & Hp & Hrem).
    rewrite Hp.
    assert (Hms : remaining (mark_start t p) = remaining p).
    { unfold mark_start. by destruct (start_time p =? -1). }
    rewrite Hms.
    destruct (push_arrivals _ _ _ (pq_remove cur pq1)) as [idx2 pq3] eqn:Hadm2.
    pose proof (dispatch_int ps pq1 (pq_remove cur pq1) idx1 t c g cur p 1 idx2 pq3
                  Hinv1 Hg Hperm Hp ltac:(lia)) as Hd.
    simpl in Hd. rewrite Hms in Hd. specialize (Hd Hadm2).
    destruct Hd as (Hr2 & Hrem1 & _ & Hd).
    assert (0 ≤ total_remaining ps - 1).
    { rewrite <- Hrem1. apply total_remaining_nonneg. intros j x Hx.
      destruct (decide (cur = j)) as [->|Hne].
      - rewrite list_lookup_insert_eq in Hx by (by eapply lookup_lt_Some).
        simplify_eq. simpl. simpl in Hr2. lia.
      - rewrite list_lookup_insert_ne in Hx by done.
        by destruct (ri_basic _ _ _ _ _ Hinv j x Hx) as (_ & ? & _). }
    destruct (0 <? I32.wrap (remaining p - 1)) eqn:Hpos.
    + destruct Hd as [Hinv2 Hg2]. split; [by split|]. simpl.
      split; [|intros _; lia].
      unfold PPS_variant. simpl. rewrite Hrem1.
      destruct (snd _); destruct pq1; lia.
    + destruct Hd as (Hinv2 & Hg2 & Hrem2). split; [by split|]. simpl.
      split; [|intros _; lia].
      unfold PPS_variant. simpl. rewrite Hrem2.
      destruct (snd _); destruct pq1; lia.
  - apply pq_top_None in Htop. rewrite Htop in *.
    destruct (idx1 <? length ps)%nat eqn:Hidx.
    2:{ apply Nat.ltb_ge in Hidx. split; [by split|].
        eapply ready_inv_all_done; eauto. }
    apply Nat.ltb_lt in Hidx.
    destruct (lookup_lt_is_Some_2 ps idx1 Hidx) as [pn Hpn]. rewrite Hpn.
    assert (Hlt : t < arrival pn) by (by apply (Hlate idx1)).
    apply Z.ltb_lt in Hlt as Hlt'. rewrite Hlt'.
    split; [|split; [|simpl; intros Hd; by apply not_dispatched_idle in Hd]].
    + split; simpl; [|apply line_inv_idle; [done|lia]].
      replace (@nil nat) with (@nil nat ++ seq idx1 0) by done.
      replace idx1 with (idx1 + 0)%nat at 2 by lia.
      apply (ready_inv_push ps [] idx1 0 t (arrival pn) c Hinv1);
        [pose proof (ri_idx _ _ _ _ _ Hinv1); lia|].
      intros j p Hj Hp. apply (ri_sorted _ _ _ _ _ Hinv1 idx1 j); [lia|done|done].
    + unfold PPS_variant. simpl.
      destruct (push_arrivals (λ p, arrival p <=? arrival pn) (drop idx1 ps) idx1 [])
        as [idx2 pq2] eqn:Hadm2.
      destruct (ready_inv_push_le _ _ _ _ _ _ _ _ _ Hinv1 Hadm2)
        as (k2 & -> & -> & _ & _ & Hk).
      specialize (Hk pn Hpn ltac:(lia)). simpl.
      destruct k2; [lia|]. simpl. lia.
Qed.

(** ** The input fields are never written *)

Lemma rr_body_descriptor (quantum : Z) (s : RR.state) :
  match I32.rr_body quantum s with
  | Next s' | Stop s' => descriptor <$> RR.procs s' = descriptor <$> RR.procs s
  | Fault => True
  end.
Proof.
  unfold I32.rr_body. destruct s as [ps q t c g idx]. simpl.
  destruct (negb _); [done|].
  destruct q as [|i q'].
  - destruct (idx <? length ps)%nat; [|done].
    destruct (ps !! idx); [|done].
    destruct (t <? arrival _); by destruct (push_arrivals _ _ _ _).
  - destruct (ps !! i) as [p|] eqn:Hp; [|done].
    destruct (push_arrivals _ _ _ _). destruct (0 <? _); simpl.
    + by apply descriptor_run.
    + rewrite list_insert_insert_eq. apply (descriptor_insert _ _ p); [done|].
      unfold mark_start. by destruct (start_time p =? -1).
Qed.

Lemma pps_body_descriptor (s : PPS.state) :
  match I32.pps_body s with
  | Next s' | Stop s' => descriptor <$> PPS.procs s' = descriptor <$> PPS.procs s
  | Fault => True
  end.
Proof.
  unfold I32.pps_body. destruct s as [ps pq t c g idx]. simpl.
  destruct (negb _); [done|].
  destruct (push_arrivals _ _ _ _) as [idx1 pq1].
  destruct (pq_top _ _) as [cur|].
  - destruct (ps !! cur) as [p|] eqn:Hp; [|done].
    destruct (push_arrivals _ _ _ _). destruct (0 <? _); simpl.
    + by apply descriptor_run.
    + rewrite list_insert_insert_eq. apply (descriptor_insert _ _ p); [done|].
      unfold mark_start. by destruct (start_time p =? -1).
  - destruct (idx1 <? length ps)%nat; [|done].
    destruct (ps !! idx1); [|done].
    by destruct (t <? arrival _).
Qed.

(** ** Both engines end on every valid process list, wrap or no wrap *)

(** What a finished run over [int] on a valid process list has produced,
    whatever the values its clock took. *)
Lemma final_int_run (input sorted : list Process) g t ps :
  valid_procs input → sorted ≡ₚ input →
  line_inv g t ps → all_finalized ps →
  descriptor <$> ps = descriptor <$> sorted →
  link 0 g (makespan g) ∧ g ≠ [].
Proof.
  intros (Hne & _ & Hvalid) Hperm [Hlink Hfresh] Hdone Hdesc.
  assert (Hg : g ≠ []).
  { intros Hnil. destruct sorted as [|x sorted].
    { apply Permutation_nil_l in Hperm. done. }
    destruct ps as [|p ps]; [done|].
    injection Hdesc as _ _ Hb _ _.
    specialize (Hfresh Hnil 0%nat p eq_refl).
    apply Forall_cons in Hdone as [[Hr _] _].
    assert (Hx : x ∈ input) by (rewrite <- Hperm; left).
    rewrite Forall_forall in Hvalid. destruct (Hvalid x Hx) as (_ & _ & ? & _). lia. }
  split; [|done]. by rewrite (link_makespan 0 t g Hlink Hg).
Qed.

Lemma RR_int_good (input : list Process) (quantum : Z) :
  valid_procs input → int_procs input → 0 < quantum →
  ∃ fuel g ps, I32.round_robin fuel input quantum = Finished (g, ps)
               ∧ link 0 g (makespan g) ∧ g ≠ []
               ∧ all_finalized ps
               ∧ descriptor <$> ps = descriptor <$> sort_by RR.less input.
Proof.
  intros Hvalid [Hint _] Hq. pose proof Hvalid as (_ & _ & Hv).
  destruct (RR_int_init input Hv Hint) as (s0 & Hinit & Hinv0 & Hprocs0).
  set (I := λ s, RR_int_inv s
                 ∧ descriptor <$> RR.procs s = descriptor <$> sort_by RR.less input).
  destruct (loop_terminates (I32.rr_body quantum) I (λ s, all_finalized (RR.procs s))
              RR_variant)
    with (s := s0) as (s & Hrun & [[Hinv Hg] Hdesc] & Hdone).
  { intros s1 [Hinv1 Hdesc1].
    pose proof (RR_int_step quantum s1 Hq Hinv1) as Hstep.
    pose proof (rr_body_descriptor quantum s1) as Hd.
    destruct (I32.rr_body quantum s1) as [s2|s2|]; [| |done].
    - destruct Hstep as (? & ? & _). split; [split|]; [done| |done]. by rewrite Hd.
    - destruct Hstep as (? & ?). split; [split|]; [done| |done]. by rewrite Hd. }
  { split; [done|]. by rewrite Hprocs0. }
  exists (S (RR_variant s0)), (RR.gantt s), (RR.procs s).
  unfold I32.round_robin. rewrite Hinit, Hrun. split; [done|].
  destruct (final_int_run input (sort_by RR.less input) _ _ _ Hvalid
              (sort_by_perm _ _) Hg Hdone Hdesc) as [? ?].
  done.
Qed.

Lemma PPS_int_good (input : list Process) :
  valid_procs input → int_procs input →
  ∃ fuel g ps, I32.preemptive_priority fuel input = Finished (g, ps)
               ∧ link 0 g (makespan g) ∧ g ≠ []
               ∧ all_finalized ps
               ∧ descriptor <$> ps = descriptor <$> sort_by PPS.less input.
Proof.
  intros Hvalid [Hint _]. pose proof Hvalid as (_ & _ & Hv).
  destruct (PPS_int_init input Hv Hint) as (Hinv0 & Hprocs0).
  set (I := λ s, PPS_int_inv s
                 ∧ descriptor <$> PPS.procs s = descriptor <$> sort_by PPS.less input).
  destruct (loop_terminates I32.pps_body I (λ s, all_finalized (PPS.procs s)) PPS_variant)
    with (s := PPS.init input) as (s & Hrun & [[Hinv Hg] Hdesc] & Hdone).
  { intros s1 [Hinv1 Hdesc1].
    pose proof (PPS_int_step s1 Hinv1) as Hstep.
    pose proof (pps_body_descriptor s1) as Hd.
    destruct (I32.pps_body s1) as [s2|s2|]; [| |done].
    - destruct Hstep as (? & ? & _). split; [split|]; [done| |done]. by rewrite Hd.
    - destruct Hstep as (? & ?). split; [split|]; [done| |done]. by rewrite Hd. }
  { split; [done|]. by rewrite Hprocs0. }
  exists (S (PPS_variant (PPS.init input))), (PPS.gantt s), (PPS.procs s).
  unfold I32.preemptive_priority. rewrite Hrun. split; [done|].
  destruct (final_int_run input (sort_by PPS.less input) _ _ _ Hvalid
              (sort_by_perm _ _) Hg Hdone Hdesc) as [? ?].
  done.
Qed.

Lemma RR_int_reaches (quantum : Z) (s0 s : RR.state) :
  0 < quantum → RR_int_inv s0 → reaches (I32.rr_body quantum) s0 s → RR_int_inv s.
Proof.
  intros Hq H0 Hreach. induction Hreach as [|s s' _ IH Hbody]; [done|].
  pose proof (RR_int_step quantum s Hq IH) as Hstep.
  rewrite Hbody in Hstep. by destruct Hstep.
Qed.

Lemma PPS_int_reaches (s0 s : PPS.state) :
  PPS_int_inv s0 → reaches I32.pps_body s0 s → PPS_int_inv s.
Proof.
  intros H0 Hreach. induction Hreach as [|s s' _ IH Hbody]; [done|].
  pose proof (PPS_int_step s IH) as Hstep.
  rewrite Hbody in Hstep. by destruct Hstep.
Qed.

(** ** Runs in which no clock leaves the range of [int] *)

Lemma remaining_le_total (ps : list Process) (i : nat) (p : Process) :
  (∀ j x, ps !! j = Some x → 0 ≤ remaining x) →
  ps !! i = Some p → remaining p ≤ total_remaining ps.
Proof.
  revert i. induction ps as [|x ps IH]; intros i Hnn Hp; [by rewrite lookup_nil in Hp|].
  assert (Htail : ∀ j y, ps !! j = Some y → 0 ≤ remaining y).
  { intros j y Hy. by apply (Hnn (S j)). }
  pose proof (total_remaining_nonneg ps Htail).
  specialize (Hnn 0%nat x eq_refl) as Hx.
  destruct i as [|i]; simpl in *.
  - simplify_eq. lia.
  - specialize (IH i Htail Hp). lia.
Qed.

Lemma finalize_agree (t : Z) (p : Process) :
  I32.int_range (t - arrival p) → I32.int_range (t - arrival p - burst p) →
  I32.finalize t p = finalize t p.
Proof.
  intros H1 H2. unfold I32.finalize, finalize.
  rewrite (wrap_id _ H1), (wrap_id _ H2). done.
Qed.

(** The bounds that keep one dispatch within the range of [int]. *)
Lemma dispatch_fits (F : Prop) (A : Z) ps ready idx t c g i p exec :
  proc_inv ps ready idx t t c →
  gantt_inv g t ps →
  ext_inv F A ps g t →
  A + total_burst ps ≤ I32.INT_MAX →
  i ∈ ready → ps !! i = Some p →
  0 < exec ≤ remaining p →
  I32.wrap (t + exec) = t + exec
  ∧ I32.wrap (remaining p - exec) = remaining p - exec
  ∧ ∀ p', arrival p' = arrival p → burst p' = burst p →
          I32.finalize (t + exec) p' = finalize (t + exec) p'.
Proof.
  intros Hinv [Hchain Hwork] Hext Hfit Hi Hp Hexec.
  pose proof (chain_le _ _ _ Hchain) as Ht0.
  pose proof (ei_bound _ _ _ _ _ Hext) as Hbound.
  pose proof (ei_busy _ _ _ _ _ Hext) as Hbusy.
  assert (Hnn : ∀ j x, ps !! j = Some x → 0 ≤ remaining x).
  { intros j x Hx. by destruct (pi_basic _ _ _ _ _ _ Hinv j x Hx) as (_ & _ & _ & ? & _). }
  pose proof (remaining_le_total ps i p Hnn Hp) as Hle.
  destruct (pi_basic _ _ _ _ _ _ Hinv i p Hp) as (_ & Harr & Hburst & Hrem).
  apply (pi_ready _ _ _ _ _ _ Hinv) in Hi as [Hi _].
  pose proof (pi_past _ _ _ _ _ _ Hinv i p Hi Hp) as Hpast.
  unfold I32.INT_MAX in Hfit.
  split; [|split].
  - apply wrap_id. unfold I32.int_range, I32.INT_MIN, I32.INT_MAX. lia.
  - apply wrap_id. unfold I32.int_range, I32.INT_MIN, I32.INT_MAX. lia.
  - intros p' Ha Hb. apply finalize_agree; rewrite Ha, ?Hb;
      unfold I32.int_range, I32.INT_MIN, I32.INT_MAX; lia.
Qed.

Lemma rr_body_agree (F : Prop) (A quantum : Z) (s : RR.state) :
  0 < quantum → RR_inv s →
  ext_inv F A (RR.procs s) (RR.gantt s) (RR.time s) →
  A + total_burst (RR.procs s) ≤ I32.INT_MAX →
  I32.rr_body quantum s = RR.body quantum s.
Proof.
  intros Hq [Hinv Hg] Hext Hfit. destruct s as [ps q t c g idx]. simpl in *.
  unfold I32.rr_body, RR.body. simpl.
  destruct (negb _); [done|].
  destruct q as [|i q']; [done|].
  assert (Hi : i ∈ i :: q') by left.
  pose proof Hi as Hi'.
  apply (pi_ready _ _ _ _ _ _ Hinv) in Hi' as (_ & p & Hp & Hrem).
  rewrite Hp.
  assert (Hms : remaining (mark_start t p) = remaining p
                ∧ arrival (mark_start t p) = arrival p
                ∧ burst (mark_start t p) = burst p).
  { unfold mark_start. by destruct (start_time p =? -1). }
  destruct Hms as (Hms & Hma & Hmb). rewrite Hms.
  set (exec := Z.min quantum (remaining p)).
  assert (Hexec : 0 < exec ≤ remaining p) by (unfold exec; lia).
  destruct (dispatch_fits F A ps (i :: q') idx t c g i p exec Hinv Hg Hext Hfit Hi Hp Hexec)
    as (-> & -> & Hfin).
  rewrite Hfin; done.
Qed.

Lemma pps_body_agree (F : Prop) (A : Z) (s : PPS.state) :
  PPS_inv s →
  ext_inv F A (PPS.procs s) (PPS.gantt s) (PPS.time s) →
  A + total_burst (PPS.procs s) ≤ I32.INT_MAX →
  I32.pps_body s = PPS.body s.
Proof.
  intros [Hinv Hg] Hext Hfit. destruct s as [ps pq t c g idx]. simpl in *.
  unfold I32.pps_body, PPS.body. simpl.
  destruct (negb _); [done|].
  destruct (push_arrivals (λ p, arrival p <=? t) (drop idx ps) idx pq) as [idx1 pq1] eqn:Hadm.
  destruct (proc_inv_push_le _ _ _ _ _ _ _ _ _ Hinv Hadm)
    as (k & -> & -> & Hinv1 & _).
  destruct (pq_top _ _) as [cur|] eqn:Htop; [|done].
  apply pq_top_elem in Htop.
  pose proof Htop as Hi'.
  apply (pi_ready _ _ _ _ _ _ Hinv1) in Hi' as (_ & p & Hp & Hrem).
  rewrite Hp.
  assert (Hms : remaining (mark_start t p) = remaining p
                ∧ arrival (mark_start t p) = arrival p
                ∧ burst (mark_start t p) = burst p).
  { unfold mark_start. by destruct (start_time p =? -1). }
  destruct Hms as (Hms & Hma & Hmb). rewrite Hms.
  destruct (dispatch_fits F A ps _ _ t c g cur p 1 Hinv1 Hg Hext Hfit Htop Hp ltac:(lia))
    as (-> & -> & Hfin).
  rewrite Hfin; done.
Qed.

(** Two loops whose bodies agree wherever an invariant of the second
    holds take the same turns. *)
Lemma loop_agree {S : Type} (body1 body2 : S → iter S) (I : S → Prop) :
  (∀ s, I s → body1 s = body2 s) →
  (∀ s, I s → match body2 s with Next s' => I s' | _ => True end) →
  ∀ fuel s, I s → loop body1 fuel s = loop body2 fuel s.
Proof.
  intros Hagree Hinv fuel. induction fuel as [|fuel IH]; intros s Hs; [done|].
  simpl. rewrite (Hagree s Hs). specialize (Hinv s Hs).
  destruct (body2 s) as [s1|s1|]; [by apply IH|done|done].
Qed.

Lemma reaches_agree {S : Type} (body1 body2 : S → iter S) (I : S → Prop) (s0 s : S) :
  (∀ s, I s → body1 s = body2 s) →
  (∀ s, I s → match body2 s with Next s' => I s' | _ => True end) →
  I s0 → reaches body1 s0 s → reaches body2 s0 s ∧ I s.
Proof.
  intros Hagree Hinv H0 Hreach. induction Hreach as [|s s' _ [IH HI] Hbody].
  - split; [constructor|done].
  - rewrite (Hagree s HI) in Hbody. specialize (Hinv s HI). rewrite Hbody in Hinv.
    split; [by econstructor|done].
Qed.

Lemma RR_fit_step (F : Prop) (A quantum : Z) (s : RR.state) :
  0 < quantum → RR_fit F A s →
  match RR.body quantum s with
  | Next s' | Stop s' => RR_fit F A s'
  | Fault => True
  end.
Proof.
  intros Hq (Hinv & Hext & Hfit).
  pose proof (RR_body_step quantum s Hq Hinv) as Hstep.
  pose proof (RR_body_descriptor quantum s) as Hd.
  pose proof (RR_body_ext F A quantum s Hq Hinv Hext) as He.
  destruct (RR.body quantum s) as [s'|s'|]; [| |done].
  - destruct Hstep as (? & _). split; [done|]. split; [done|].
    by rewrite (total_burst_descriptor _ _ Hd).
  - destruct Hstep as (? & _). split; [done|]. split; [done|].
    by rewrite (total_burst_descriptor _ _ Hd).
Qed.

Lemma PPS_fit_step (F : Prop) (A : Z) (s : PPS.state) :
  PPS_fit F A s →
  match PPS.body s with
  | Next s' | Stop s' => PPS_fit F A s'
  | Fault => True
  end.
Proof.
  intros (Hinv & Hext & Hfit).
  pose proof (PPS_body_step s Hinv) as Hstep.
  pose proof (PPS_body_descriptor s) as Hd.
  pose proof (PPS_body_ext F A s Hinv Hext) as He.
  destruct (PPS.body s) as [s'|s'|]; [| |done].
  - destruct Hstep as (? & _). split; [done|]. split; [done|].
    by rewrite (total_burst_descriptor _ _ Hd).
  - destruct Hstep as (? & _). split; [done|]. split; [done|].
    by rewrite (total_burst_descriptor _ _ Hd).
Qed.

Lemma RR_fit_init (input : list Process) (s0 : RR.state) :
  valid_procs input → fits_int input → RR.init input = Finished s0 →
  RR_fit (fresh_procs input) (max_arrival input) s0.
Proof.
  intros Hvalid [_ Hfit] Hinit. pose proof Hvalid as (_ & _ & Hv).
  destruct (RR_init_inv input Hv) as (s1 & Hinit1 & Hinv1 & Hprocs1).
  rewrite Hinit1 in Hinit. injection Hinit as <-.
  split; [done|]. split.
  - apply (RR_init_ext _ input); [done|apply max_arrival_bound|done].
  - rewrite Hprocs1, (total_burst_perm _ _ (sort_by_perm RR.less input)). done.
Qed.

Lemma PPS_fit_init (input : list Process) :
  valid_procs input → fits_int input →
  PPS_fit (fresh_procs input) (max_arrival input) (PPS.init input).
Proof.
  intros Hvalid [_ Hfit]. pose proof Hvalid as (_ & _ & Hv).
  destruct (PPS_init_inv input Hv) as (Hinv1 & Hprocs1).
  split; [done|]. split.
  - apply (PPS_init_ext _ input); [done|apply max_arrival_bound].
  - rewrite Hprocs1, (total_burst_perm _ _ (sort_by_perm PPS.less input)). done.
Qed.

(** On a process list that fits, the engines over [int] and the engines
    over the integers are the same functions. *)
Lemma rr_transfer (input : list Process) (quantum : Z) (fuel : nat) :
  valid_procs input → fits_int input → 0 < quantum →
  I32.round_robin fuel input quantum = round_robin fuel input quantum.
Proof.
  intros Hvalid Hfit Hq. unfold I32.round_robin, round_robin, RR.run_from.
  destruct (RR.init input) as [s0| |] eqn:Hinit; [|done|done].
  rewrite (loop_agree (I32.rr_body quantum) (RR.body quantum)
             (RR_fit (fresh_procs input) (max_arrival input))); [done| | |].
  - intros s (Hinv & Hext & Hb). by eapply rr_body_agree.
  - intros s Hs. pose proof (RR_fit_step _ _ quantum s Hq Hs) as H.
    by destruct (RR.body quantum s).
  - by apply RR_fit_init.
Qed.

Lemma pps_transfer (input : list Process) (fuel : nat) :
  valid_procs input → fits_int input →
  I32.preemptive_priority fuel input = preemptive_priority fuel input.
Proof.
  intros Hvalid Hfit. unfold I32.preemptive_priority, preemptive_priority, PPS.run_from.
  rewrite (loop_agree I32.pps_body PPS.body
             (PPS_fit (fresh_procs input) (max_arrival input))); [done| | |].
  - intros s (Hinv & Hext & Hb). by eapply pps_body_agree.
  - intros s Hs. pose proof (PPS_fit_step _ _ s Hs) as H.
    by destruct (PPS.body s).
  - by apply PPS_fit_init.
Qed.

Lemma rr_reaches_transfer (input : list Process) (quantum : Z) (s0 s : RR.state) :
  valid_procs input → fits_int input → 0 < quantum →
  RR.init input = Finished s0 →
  reaches (I32.rr_body quantum) s0 s →
  reaches (RR.body quantum) s0 s ∧ I32.rr_body quantum s = RR.body quantum s.
Proof.
  intros Hvalid Hfit Hq Hinit Hreach.
  destruct (reaches_agree (I32.rr_body quantum) (RR.body quantum)
              (RR_fit (fresh_procs input) (max_arrival input)) s0 s) as [Hr Hs];
    [| | |done|].
  - intros s1 (Hinv & Hext & Hb). by eapply rr_body_agree.
  - intros s1 Hs1. pose proof (RR_fit_step _ _ quantum s1 Hq Hs1) as H.
    by destruct (RR.body quantum s1).
  - by apply RR_fit_init.
  - split; [done|]. destruct Hs as (Hinv & Hext & Hb). by eapply rr_body_agree.
Qed.

Lemma pps_reaches_transfer (input : list Process) (s : PPS.state) :
  valid_procs input → fits_int input →
  reaches I32.pps_body (PPS.init input) s →
  reaches PPS.body (PPS.init input) s ∧ I32.pps_body s = PPS.body s.
Proof.
  intros Hvalid Hfit Hreach.
  destruct (reaches_agree I32.pps_body PPS.body
              (PPS_fit (fresh_procs input) (max_arrival input)) (PPS.init input) s)
    as [Hr Hs]; [| | |done|].
  - intros s1 (Hinv & Hext & Hb). by eapply pps_body_agree.
  - intros s1 Hs1. pose proof (PPS_fit_step _ _ s1 Hs1) as H.
    by destruct (PPS.body s1).
  - by apply PPS_fit_init.
  - split; [done|]. destruct Hs as (Hinv & Hext & Hb). by eapply pps_body_agree.
Qed.

(** ** The metrics over [int] *)

Lemma cpu_busy_agree_from (t0 t acc : Z) (g : list GanttEntry) :
  chain t0 g t → 0 ≤ acc ≤ t0 → t ≤ I32.INT_MAX →
  fold_left (λ acc g, if negb (g_pid g =? -1)
                      then I32.wrap (acc + I32.wrap (g_end g - g_start g)) else acc) g acc
  = fold_left (λ acc g, if negb (g_pid g =? -1) then acc + (g_end g - g_start g) else acc)
              g acc.
Proof.
  revert t0 acc. induction g as [|e g IH]; intros t0 acc Hc Hacc Ht; [done|].
  simpl in Hc. destruct Hc as (Hs & Hlt & Hc). pose proof (chain_le _ _ _ Hc) as Hle.
  unfold I32.INT_MAX in Ht. simpl.
  destruct (negb (g_pid e =? -1)).
  - rewrite (wrap_id (g_end e - g_start e))
      by (unfold I32.int_range, I32.INT_MIN, I32.INT_MAX; lia).
    rewrite (wrap_id (acc + _))
      by (unfold I32.int_range, I32.INT_MIN, I32.INT_MAX; lia).
    apply (IH (g_end e)); [done|lia|done].
  - apply (IH (g_end e)); [done|lia|done].
Qed.

Lemma cpu_busy_agree (t : Z) (g : list GanttEntry) :
  chain 0 g t → t ≤ I32.INT_MAX → I32.cpu_busy g = cpu_busy g.
Proof.
  intros Hc Ht. unfold I32.cpu_busy, cpu_busy.
  by apply (cpu_busy_agree_from 0 t).
Qed.

Lemma count_switches_step (acc : Z) (a b : GanttEntry) (g : list GanttEntry) :
  I32.count_switches acc (a :: b :: g)
  = I32.count_switches (if negb (g_pid b =? g_pid a) then I32.wrap (acc + 1) else acc)
                       (b :: g).
Proof. reflexivity. Qed.

Lemma context_switches_step (a b : GanttEntry) (g : list GanttEntry) :
  context_switches (a :: b :: g)
  = (if negb (g_pid b =? g_pid a) then 1 else 0) + context_switches (b :: g).
Proof. reflexivity. Qed.

Lemma count_switches_agree (acc : Z) (g : list GanttEntry) :
  0 ≤ acc → acc + Z.of_nat (length g) ≤ I32.INT_MAX + 1 →
  I32.count_switches acc g = acc + context_switches g.
Proof.
  revert acc. induction g as [|a g IH]; intros acc Hacc Hlen; [simpl; lia|].
  destruct g as [|b g]; [simpl; lia|].
  rewrite count_switches_step, context_switches_step.
  unfold I32.INT_MAX in Hlen. cbn [length] in Hlen.
  destruct (negb (g_pid b =? g_pid a)).
  - rewrite wrap_id by (unfold I32.int_range, I32.INT_MIN, I32.INT_MAX; lia).
    rewrite IH; [lia|lia|cbn [length]; unfold I32.INT_MAX; lia].
  - rewrite IH; [lia|lia|cbn [length]; unfold I32.INT_MAX; lia].
Qed.

Lemma context_switches_bounds (g : list GanttEntry) :
  0 ≤ context_switches g
  ∧ (g ≠ [] → context_switches g ≤ Z.of_nat (length g) - 1).
Proof.
  induction g as [|a g [IH0 IH1]]; [split; [simpl; lia|done]|].
  destruct g as [|b g]; [split; [simpl; lia|simpl; lia]|].
  specialize (IH1 ltac:(done)).
  rewrite context_switches_step. cbn [length] in *.
  destruct (negb (g_pid b =? g_pid a)); split; lia.
Qed.

(** ** Sample process lists *)

Ltac int_ranges := unfold I32.int_range, I32.INT_MIN, I32.INT_MAX; simpl; lia.

Lemma load_sample_int : int_procs load_sample.
Proof.
  split; [|int_ranges].
  unfold load_sample, int_process.
  repeat (apply Forall_cons; split; [repeat split; int_ranges|]). apply Forall_nil_2.
Defined.

Lemma load_sample_fits : fits_int load_sample.
Proof. split; [exact load_sample_int|int_ranges]. Defined.

Lemma wrap_sample_valid : valid_procs wrap_sample.
Proof.
  split; [done|]. split.
  - apply (bool_decide_unpack _). by vm_compute.
  - unfold wrap_sample, valid_process.
    repeat (apply Forall_cons; split; [simpl; lia|]). apply Forall_nil_2.
Defined.

Lemma wrap_sample_int : int_procs wrap_sample.
Proof.
  split; [|int_ranges].
  unfold wrap_sample, int_process.
  repeat (apply Forall_cons; split; [repeat split; int_ranges|]). apply Forall_nil_2.
Defined.

(** ** A run that ends has one result *)

Lemma rr_int_deterministic fuel fuel' input quantum r r' :
  I32.round_robin fuel input quantum = Finished r →
  I32.round_robin fuel' input quantum = Finished r' → r = r'.
Proof.
  unfold I32.round_robin. destruct (RR.init input) as [s0| |]; try done.
  destruct (loop _ fuel s0) as [s| |] eqn:H1; try done.
  destruct (loop _ fuel' s0) as [s'| |] eqn:H2; try done.
  intros [= <-] [= <-].
  destruct (Nat.le_ge_cases fuel fuel') as [Hle|Hle].
  - rewrite (loop_fuel_mono _ _ _ _ _ H1 Hle) in H2. by simplify_eq.
  - rewrite (loop_fuel_mono _ _ _ _ _ H2 Hle) in H1. by simplify_eq.
Qed.

Lemma pps_int_deterministic fuel fuel' input r r' :
  I32.preemptive_priority fuel input = Finished r →
  I32.preemptive_priority fuel' input = Finished r' → r = r'.
Proof.
  unfold I32.preemptive_priority.
  destruct (loop _ fuel _) as [s| |] eqn:H1; try done.
  destruct (loop _ fuel' _) as [s'| |] eqn:H2; try done.
  intros [= <-] [= <-].
  destruct (Nat.le_ge_cases fuel fuel') as [Hle|Hle].
  - rewrite (loop_fuel_mono _ _ _ _ _ H1 Hle) in H2. by simplify_eq.
  - rewrite (loop_fuel_mono _ _ _ _ _ H2 Hle) in H1. by simplify_eq.
Qed.

(** ** Runs on a process list that fits *)

Lemma cpu_busy_execution_time (g : list GanttEntry) : cpu_busy g = execution_time g.
Proof.
  unfold execution_time. induction g as [|e g IH]; [done|].
  rewrite cpu_busy_cons, IH. unfold idle_pid.
  destruct (decide (g_pid e = -1)) as [Heq|Hne].
  - rewrite filter_cons_False by (intros H; by apply H).
    rewrite Heq. simpl. lia.
  - rewrite filter_cons_True by done.
    apply Z.eqb_neq in Hne. rewrite Hne. simpl. lia.
Qed.

(** What a finished run over [int] has produced on a valid process list
    that fits: the run over the integers, within the range of [int]. *)
Lemma RR_fit_run (input : list Process) (quantum : Z) :
  valid_procs input → fits_int input → 0 < quantum →
  ∃ fuel g ps, I32.round_robin fuel input quantum = Finished (g, ps)
               ∧ good_run input (sort_by RR.less input) g ps
               ∧ tracked_run (fresh_procs input) (max_arrival input) g ps
               ∧ 0 < makespan g ≤ I32.INT_MAX
               ∧ I32.cpu_busy g = cpu_busy g.
Proof.
  intros Hvalid Hfit Hq.
  destruct (RR_tracked (max_arrival input) input quantum Hvalid
              (max_arrival_bound input) Hq) as (fuel & g & ps & Hrun & Hgood & Htr).
  exists fuel, g, ps. rewrite rr_transfer by done.
  split; [done|]. split; [done|]. split; [done|].
  pose proof Hgood as (Hchain & Hne & Hbusy & _).
  pose proof (ei_bound _ _ _ _ _ Htr) as Hb. destruct Hfit as [_ Hfit].
  assert (Hms : 0 < makespan g ≤ I32.INT_MAX).
  { split; [by eapply chain_end_positive|lia]. }
  split; [done|]. apply (cpu_busy_agree (makespan g)); [done|lia].
Qed.

Lemma PPS_fit_run (input : list Process) :
  valid_procs input → fits_int input →
  ∃ fuel g ps, I32.preemptive_priority fuel input = Finished (g, ps)
               ∧ good_run input (sort_by PPS.less input) g ps
               ∧ tracked_run (fresh_procs input) (max_arrival input) g ps
               ∧ 0 < makespan g ≤ I32.INT_MAX
               ∧ I32.cpu_busy g = cpu_busy g.
Proof.
  intros Hvalid Hfit.
  destruct (PPS_tracked (max_arrival input) input Hvalid
              (max_arrival_bound input)) as (fuel & g & ps & Hrun & Hgood & Htr).
  exists fuel, g, ps. rewrite pps_transfer by done.
  split; [done|]. split; [done|]. split; [done|].
  pose proof Hgood as (Hchain & Hne & Hbusy & _).
  pose proof (ei_bound _ _ _ _ _ Htr) as Hb. destruct Hfit as [_ Hfit].
  assert (Hms : 0 < makespan g ≤ I32.INT_MAX).
  { split; [by eapply chain_end_positive|lia]. }
  split; [done|]. apply (cpu_busy_agree (makespan g)); [done|lia].
Qed.

(** A property of the runs over the integers is one of the runs over
    [int], on a process list that fits. *)
Lemma rr_lift (input : list Process) (quantum : Z)
      (P : list GanttEntry → list Process → Prop) :
  valid_procs input → fits_int input → 0 < quantum →
  (∃ fuel g ps, round_robin fuel input quantum = Finished (g, ps) ∧ P g ps) →
  ∃ fuel g ps, I32.round_robin fuel input quantum = Finished (g, ps) ∧ P g ps.
Proof.
  intros Hvalid Hfit Hq (fuel & g & ps & Hrun & HP).
  exists fuel, g, ps. by rewrite rr_transfer.
Qed.

Lemma pps_lift (input : list Process) (P : list GanttEntry → list Process → Prop) :
  valid_procs input → fits_int input →
  (∃ fuel g ps, preemptive_priority fuel input = Finished (g, ps) ∧ P g ps) →
  ∃ fuel g ps, I32.preemptive_priority fuel input = Finished (g, ps) ∧ P g ps.
Proof.
  intros Hvalid Hfit (fuel & g & ps & Hrun & HP).
  exists fuel, g, ps. by rewrite pps_transfer.
Qed.

(** * Claims about the runs over [int] *)

(** C2. For every valid process list as the program holds it, and a
    positive quantum for Round Robin, each engine ends with a timeline whose
    first interval starts at tick 0 and in which every interval ends where
    the next one starts; this holds of the runs in which the clock wraps
    as well. *)
Theorem timeline_contiguous (input : list Process) (quantum : Z) :
  valid_procs input → int_procs input → 0 < quantum →
  (∃ fuel g ps, I32.round_robin fuel input quantum = Finished (g, ps)
                ∧ starts_at_zero g ∧ contiguous g)
  ∧ (∃ fuel g ps, I32.preemptive_priority fuel input = Finished (g, ps)
                  ∧ starts_at_zero g ∧ contiguous g).
Proof.
  intros Hvalid Hint Hq. split.
  - destruct (RR_int_good input quantum Hvalid Hint Hq)
      as (fuel & g & ps & Hrun & Hlink & Hne & _).
    exists fuel, g, ps. split; [done|]. split.
    + by apply (link_start 0 (makespan g)).
    + by eapply link_contiguous.
  - destruct (PPS_int_good input Hvalid Hint)
      as (fuel & g & ps & Hrun & Hlink & Hne & _).
    exists fuel, g, ps. split; [done|]. split.
    + by apply (link_start 0 (makespan g)).
    + by eapply link_contiguous.
Qed.

Lemma timeline_contiguous_witness :
  valid_procs wrap_sample ∧ int_procs wrap_sample ∧ 0 < 2147483647
  ∧ (∃ fuel g ps, I32.round_robin fuel wrap_sample 2147483647 = Finished (g, ps)
                  ∧ starts_at_zero g ∧ contiguous g)
  ∧ (∃ fuel g ps, I32.preemptive_priority fuel wrap_sample = Finished (g, ps)
                  ∧ starts_at_zero g ∧ contiguous g).
Proof.
  split; [exact wrap_sample_valid|]. split; [exact wrap_sample_int|]. split; [lia|].
  apply (timeline_contiguous wrap_sample 2147483647);
    [exact wrap_sample_valid|exact wrap_sample_int|lia].
Defined.

(** C3, as the spec states it, for every valid process set.  On
    [wrap_sample] with quantum 2147483647 the clock of Round Robin reaches
    2147483647 at the end of the first slice and wraps in the second: the
    timeline is [P1:0-2147483647][P2:2147483647-(-2147483648)], and its
    execution intervals do not add up to the sum of the bursts. *)
Lemma busy_time_wraps :
  valid_procs wrap_sample
  ∧ (∃ ps, I32.round_robin 3 wrap_sample 2147483647
           = Finished ([mkGantt 1 0 2147483647; mkGantt 2 2147483647 (-2147483648)], ps))
  ∧ ¬ ∃ fuel g ps, I32.round_robin fuel wrap_sample 2147483647 = Finished (g, ps)
                   ∧ execution_time g = total_burst wrap_sample.
Proof.
  split; [exact wrap_sample_valid|]. split; [eexists; vm_compute; reflexivity|].
  intros (fuel & g & ps & Hrun & HP).
  assert (H3 : ∃ r, I32.round_robin 3 wrap_sample 2147483647 = Finished r
                    ∧ execution_time (fst r) = -2147483648).
  { eexists. split; [vm_compute; reflexivity|reflexivity]. }
  destruct H3 as (r & H3 & Hr).
  rewrite <- (rr_int_deterministic _ _ _ _ _ _ Hrun H3) in Hr. simpl in Hr.
  rewrite Hr in HP. discriminate.
Qed.

(** C3, amended.  For every valid process set whose latest arrival and
    bursts together do not exceed the largest [int], and a positive quantum
    for Round Robin, the durations of the execution intervals of the
    timeline add up to the sum of the bursts of the processes, and so does
    the busy time that [print_metrics] accumulates. *)
Theorem busy_time_is_total_burst (input : list Process) (quantum : Z) :
  valid_procs input → fits_int input → 0 < quantum →
  (∃ fuel g ps, I32.round_robin fuel input quantum = Finished (g, ps)
                ∧ execution_time g = total_burst input
                ∧ I32.cpu_busy g = total_burst input)
  ∧ (∃ fuel g ps, I32.preemptive_priority fuel input = Finished (g, ps)
                  ∧ execution_time g = total_burst input
                  ∧ I32.cpu_busy g = total_burst input).
Proof.
  intros Hvalid Hfit Hq. split.
  - destruct (RR_fit_run input quantum Hvalid Hfit Hq)
      as (fuel & g & ps & Hrun & (_ & _ & Hb & _) & _ & _ & Hc).
    exists fuel, g, ps. split; [done|].
    rewrite Hc, <- cpu_busy_execution_time. done.
  - destruct (PPS_fit_run input Hvalid Hfit)
      as (fuel & g & ps & Hrun & (_ & _ & Hb & _) & _ & _ & Hc).
    exists fuel, g, ps. split; [done|].
    rewrite Hc, <- cpu_busy_execution_time. done.
Qed.

Lemma busy_time_is_total_burst_witness :
  valid_procs load_sample ∧ fits_int load_sample ∧ 0 < 2
  ∧ (∃ fuel g ps, I32.round_robin fuel load_sample 2 = Finished (g, ps)
                  ∧ execution_time g = total_burst load_sample
                  ∧ I32.cpu_busy g = total_burst load_sample)
  ∧ (∃ fuel g ps, I32.preemptive_priority fuel load_sample = Finished (g, ps)
                  ∧ execution_time g = total_burst load_sample
                  ∧ I32.cpu_busy g = total_burst load_sample).
Proof.
  split; [exact load_sample_valid|]. split; [exact load_sample_fits|]. split; [lia|].
  apply (busy_time_is_total_burst load_sample 2);
    [exact load_sample_valid|exact load_sample_fits|lia].
Defined.

(** C8, as the spec states it, for every valid process set.  On
    [wrap_sample] with quantum 2147483647 the clock wraps during the slice
    of P2, which is finalized with completion time -2147483648, before its
    arrival. *)
Lemma completion_wraps :
  valid_procs wrap_sample
  ∧ ¬ ∃ fuel g ps, I32.round_robin fuel wrap_sample 2147483647 = Finished (g, ps)
        ∧ Forall (λ p, arrival p + burst p ≤ completion_time p
                       ∧ 0 ≤ waiting_time p
                       ∧ burst p ≤ turnaround_time p
                       ∧ turnaround_time p = completion_time p - arrival p
                       ∧ waiting_time p = turnaround_time p - burst p) ps.
Proof.
  split; [exact wrap_sample_valid|].
  intros (fuel & g & ps & Hrun & HP).
  assert (H3 : ∃ r p2, I32.round_robin 3 wrap_sample 2147483647 = Finished r
                       ∧ snd r !! 1%nat = Some p2
                       ∧ arrival p2 = 0 ∧ burst p2 = 1
                       ∧ completion_time p2 = -2147483648).
  { eexists _, _. split; [vm_compute; reflexivity|]. by repeat split. }
  destruct H3 as (r & p2 & H3 & Hp2 & Ha & Hb & Hc).
  rewrite <- (rr_int_deterministic _ _ _ _ _ _ Hrun H3) in Hp2. simpl in Hp2.
  destruct (Forall_lookup_1 _ _ _ _ HP Hp2) as (Hle & _). lia.
Qed.

(** C8, amended.  For every valid process set whose latest arrival and
    bursts together do not exceed the largest [int], and a positive quantum
    for Round Robin, each engine ends with a table that holds the input
    processes (in the order of its sort) and in which every process has
    completion time at least arrival + burst, waiting time at least 0,
    turnaround time at least its burst, turnaround = completion - arrival and
    waiting = turnaround - burst. *)
Theorem finalized_times (input : list Process) (quantum : Z) :
  valid_procs input → fits_int input → 0 < quantum →
  (∃ fuel g ps, I32.round_robin fuel input quantum = Finished (g, ps)
      ∧ descriptor <$> ps = descriptor <$> sort_by RR.less input
      ∧ Forall (λ p, arrival p + burst p ≤ completion_time p
                     ∧ 0 ≤ waiting_time p
                     ∧ burst p ≤ turnaround_time p
                     ∧ turnaround_time p = completion_time p - arrival p
                     ∧ waiting_time p = turnaround_time p - burst p) ps)
  ∧ (∃ fuel g ps, I32.preemptive_priority fuel input = Finished (g, ps)
      ∧ descriptor <$> ps = descriptor <$> sort_by PPS.less input
      ∧ Forall (λ p, arrival p + burst p ≤ completion_time p
                     ∧ 0 ≤ waiting_time p
                     ∧ burst p ≤ turnaround_time p
                     ∧ turnaround_time p = completion_time p - arrival p
                     ∧ waiting_time p = turnaround_time p - burst p) ps).
Proof.
  intros Hvalid Hfit Hq. split.
  - destruct (RR_fit_run input quantum Hvalid Hfit Hq)
      as (fuel & g & ps & Hrun & (_ & _ & _ & Hdone & Hdesc) & _).
    exists fuel, g, ps. split; [done|]. split; [done|].
    eapply Forall_impl; [exact Hdone|]. intros p [_ Hp]. by apply finalized_row.
  - destruct (PPS_fit_run input Hvalid Hfit)
      as (fuel & g & ps & Hrun & (_ & _ & _ & Hdone & Hdesc) & _).
    exists fuel, g, ps. split; [done|]. split; [done|].
    eapply Forall_impl; [exact Hdone|]. intros p [_ Hp]. by apply finalized_row.
Qed.

Lemma finalized_times_witness :
  valid_procs load_sample ∧ fits_int load_sample ∧ 0 < 2
  ∧ (∃ fuel g ps, I32.round_robin fuel load_sample 2 = Finished (g, ps)
      ∧ descriptor <$> ps = descriptor <$> sort_by RR.less load_sample
      ∧ Forall (λ p, arrival p + burst p ≤ completion_time p
                     ∧ 0 ≤ waiting_time p
                     ∧ burst p ≤ turnaround_time p
                     ∧ turnaround_time p = completion_time p - arrival p
                     ∧ waiting_time p = turnaround_time p - burst p) ps)
  ∧ (∃ fuel g ps, I32.preemptive_priority fuel load_sample = Finished (g, ps)
      ∧ descriptor <$> ps = descriptor <$> sort_by PPS.less load_sample
      ∧ Forall (λ p, arrival p + burst p ≤ completion_time p
                     ∧ 0 ≤ waiting_time p
                     ∧ burst p ≤ turnaround_time p
                     ∧ turnaround_time p = completion_time p - arrival p
                     ∧ waiting_time p = turnaround_time p - burst p) ps).
Proof.
  split; [exact load_sample_valid|]. split; [exact load_sample_fits|]. split; [lia|].
  apply (finalized_times load_sample 2);
    [exact load_sample_valid|exact load_sample_fits|lia].
Defined.

(** C10, as the spec states it, for every valid process set.  On
    [wrap_sample] with quantum 2147483647 the interval of P2 starts at tick
    2147483647 and ends at tick -2147483648: its end is not greater than its
    start. *)
Lemma interval_wraps :
  valid_procs wrap_sample
  ∧ ¬ ∃ fuel g ps, I32.round_robin fuel wrap_sample 2147483647 = Finished (g, ps)
                   ∧ Forall (λ e, g_start e < g_end e) g.
Proof.
  split; [exact wrap_sample_valid|].
  intros (fuel & g & ps & Hrun & HP).
  assert (H3 : ∃ r, I32.round_robin 3 wrap_sample 2147483647 = Finished r
                    ∧ fst r !! 1%nat = Some (mkGantt 2 2147483647 (-2147483648))).
  { eexists. split; [vm_compute; reflexivity|reflexivity]. }
  destruct H3 as (r & H3 & He).
  rewrite <- (rr_int_deterministic _ _ _ _ _ _ Hrun H3) in He. simpl in He.
  pose proof (Forall_lookup_1 _ _ _ _ HP He) as Hlt. simpl in Hlt. lia.
Qed.

(** C10, amended.  For every valid process set as the program holds it, and
    a positive quantum for Round Robin, no interval of the timeline of either
    engine, idle or not, starts and ends at the same tick; and when the
    latest arrival and the bursts together do not exceed the largest [int],
    every interval ends strictly after it starts. *)
Theorem no_empty_interval (input : list Process) (quantum : Z) :
  valid_procs input → 0 < quantum →
  (int_procs input →
     (∃ fuel g ps, I32.round_robin fuel input quantum = Finished (g, ps)
                   ∧ Forall (λ e, g_start e ≠ g_end e) g)
     ∧ (∃ fuel g ps, I32.preemptive_priority fuel input = Finished (g, ps)
                     ∧ Forall (λ e, g_start e ≠ g_end e) g))
  ∧ (fits_int input →
     (∃ fuel g ps, I32.round_robin fuel input quantum = Finished (g, ps)
                   ∧ Forall (λ e, g_start e < g_end e) g)
     ∧ (∃ fuel g ps, I32.preemptive_priority fuel input = Finished (g, ps)
                     ∧ Forall (λ e, g_start e < g_end e) g)).
Proof.
  intros Hvalid Hq. split.
  - intros Hint. split.
    + destruct (RR_int_good input quantum Hvalid Hint Hq)
        as (fuel & g & ps & Hrun & Hlink & _).
      exists fuel, g, ps. split; [done|]. by eapply link_nonempty.
    + destruct (PPS_int_good input Hvalid Hint)
        as (fuel & g & ps & Hrun & Hlink & _).
      exists fuel, g, ps. split; [done|]. by eapply link_nonempty.
  - intros Hfit. split.
    + destruct (RR_fit_run input quantum Hvalid Hfit Hq)
        as (fuel & g & ps & Hrun & (Hchain & _) & _).
      exists fuel, g, ps. split; [done|]. by eapply chain_positive.
    + destruct (PPS_fit_run input Hvalid Hfit)
        as (fuel & g & ps & Hrun & (Hchain & _) & _).
      exists fuel, g, ps. split; [done|]. by eapply chain_positive.
Qed.

Lemma no_empty_interval_witness :
  valid_procs load_sample ∧ 0 < 2 ∧ int_procs load_sample ∧ fits_int load_sample
  ∧ ((∃ fuel g ps, I32.round_robin fuel load_sample 2 = Finished (g, ps)
                   ∧ Forall (λ e, g_start e ≠ g_end e) g)
     ∧ (∃ fuel g ps, I32.preemptive_priority fuel load_sample = Finished (g, ps)
                     ∧ Forall (λ e, g_start e ≠ g_end e) g))
  ∧ ((∃ fuel g ps, I32.round_robin fuel load_sample 2 = Finished (g, ps)
                   ∧ Forall (λ e, g_start e < g_end e) g)
     ∧ (∃ fuel g ps, I32.preemptive_priority fuel load_sample = Finished (g, ps)
                     ∧ Forall (λ e, g_start e < g_end e) g)).
Proof.
  split; [exact load_sample_valid|]. split; [lia|].
  split; [exact load_sample_int|]. split; [exact load_sample_fits|].
  destruct (no_empty_interval load_sample 2 load_sample_valid ltac:(lia)) as [H1 H2].
  split; [exact (H1 load_sample_int)|exact (H2 load_sample_fits)].
Defined.

(** C9. For every valid process list as the program holds it, and a
    positive quantum for Round Robin, the loop of each engine ends, wrap or
    no wrap, with a table that holds the input processes and in which every
    process has run to completion and has been finalized; and at every turn
    of either loop that dispatches a process, the total remaining work stays
    at least 0 and strictly decreases. *)
Theorem engines_terminate (input : list Process) (quantum : Z) :
  valid_procs input → int_procs input → 0 < quantum →
  (∃ fuel g ps, I32.round_robin fuel input quantum = Finished (g, ps)
                ∧ descriptor <$> ps = descriptor <$> sort_by RR.less input
                ∧ Forall (λ p, remaining p = 0 ∧ int_finalized p) ps)
  ∧ (∃ fuel g ps, I32.preemptive_priority fuel input = Finished (g, ps)
                  ∧ descriptor <$> ps = descriptor <$> sort_by PPS.less input
                  ∧ Forall (λ p, remaining p = 0 ∧ int_finalized p) ps)
  ∧ (∀ s0 s s', RR.init input = Finished s0 →
       reaches (I32.rr_body quantum) s0 s → I32.rr_body quantum s = Next s' →
       dispatched (RR.gantt s) (RR.gantt s') →
       0 ≤ total_remaining (RR.procs s') < total_remaining (RR.procs s))
  ∧ (∀ s s', reaches I32.pps_body (PPS.init input) s → I32.pps_body s = Next s' →
       dispatched (PPS.gantt s) (PPS.gantt s') →
       0 ≤ total_remaining (PPS.procs s') < total_remaining (PPS.procs s)).
Proof.
  intros Hvalid Hint Hq. pose proof Hvalid as (_ & _ & Hv). pose proof Hint as [Hi _].
  split; [|split; [|split]].
  - destruct (RR_int_good input quantum Hvalid Hint Hq)
      as (fuel & g & ps & Hrun & _ & _ & Hdone & Hdesc).
    by exists fuel, g, ps.
  - destruct (PPS_int_good input Hvalid Hint)
      as (fuel & g & ps & Hrun & _ & _ & Hdone & Hdesc).
    by exists fuel, g, ps.
  - intros s0 s s' Hinit Hreach Hbody Hdisp.
    destruct (RR_int_init input Hv Hi) as (s1 & Hinit1 & Hinv1 & _).
    rewrite Hinit1 in Hinit. injection Hinit as <-.
    pose proof (RR_int_reaches quantum _ _ Hq Hinv1 Hreach) as Hinv.
    pose proof (RR_int_step quantum s Hq Hinv) as Hstep.
    rewrite Hbody in Hstep. destruct Hstep as (_ & _ & Hdec). by apply Hdec.
  - intros s s' Hreach Hbody Hdisp.
    destruct (PPS_int_init input Hv Hi) as (Hinv0 & _).
    pose proof (PPS_int_reaches _ _ Hinv0 Hreach) as Hinv.
    pose proof (PPS_int_step s Hinv) as Hstep.
    rewrite Hbody in Hstep. destruct Hstep as (_ & _ & Hdec). by apply Hdec.
Qed.

Lemma engines_terminate_witness :
  valid_procs wrap_sample ∧ int_procs wrap_sample ∧ 0 < 2147483647
  ∧ (∃ fuel g ps, I32.round_robin fuel wrap_sample 2147483647 = Finished (g, ps)
                  ∧ descriptor <$> ps = descriptor <$> sort_by RR.less wrap_sample
                  ∧ Forall (λ p, remaining p = 0 ∧ int_finalized p) ps)
  ∧ (∃ fuel g ps, I32.preemptive_priority fuel wrap_sample = Finished (g, ps)
                  ∧ descriptor <$> ps = descriptor <$> sort_by PPS.less wrap_sample
                  ∧ Forall (λ p, remaining p = 0 ∧ int_finalized p) ps)
  ∧ (∀ s0 s s', RR.init wrap_sample = Finished s0 →
       reaches (I32.rr_body 2147483647) s0 s → I32.rr_body 2147483647 s = Next s' →
       dispatched (RR.gantt s) (RR.gantt s') →
       0 ≤ total_remaining (RR.procs s') < total_remaining (RR.procs s))
  ∧ (∀ s s', reaches I32.pps_body (PPS.init wrap_sample) s → I32.pps_body s = Next s' →
       dispatched (PPS.gantt s) (PPS.gantt s') →
       0 ≤ total_remaining (PPS.procs s') < total_remaining (PPS.procs s)).
Proof.
  split; [exact wrap_sample_valid|]. split; [exact wrap_sample_int|]. split; [lia|].
  apply (engines_terminate wrap_sample 2147483647);
    [exact wrap_sample_valid|exact wrap_sample_int|lia].
Defined.

(** ** Preemptive Priority runs a process one tick at a time *)

Lemma pps_body_int_unit (s : PPS.state) :
  int_unit_ticks (PPS.gantt s) →
  match I32.pps_body s with
  | Next s' | Stop s' => int_unit_ticks (PPS.gantt s')
  | Fault => True
  end.
Proof.
  intros Hu. unfold I32.pps_body. destruct s as [ps pq t c g idx]. simpl in *.
  destruct (negb _); [done|].
  destruct (push_arrivals _ _ _ _) as [idx1 pq1].
  destruct (pq_top _ _) as [cur|].
  - destruct (ps !! cur) as [p|]; [|done].
    assert (Hu1 : int_unit_ticks
                    (g ++ [mkGantt (pid (mark_start t p)) t (I32.wrap (t + 1))])).
    { apply Forall_app. split; [done|]. apply Forall_singleton. by intros _. }
    destruct (push_arrivals _ _ _ _). by destruct (0 <? _).
  - destruct (idx1 <? length ps)%nat; [|done].
    destruct (ps !! idx1) as [pn|]; [|done].
    destruct (t <? arrival pn); [|done]. simpl.
    apply Forall_app. split; [done|]. apply Forall_singleton. by intros [].
Qed.

Lemma PPS_init_int_unit (input : list Process) :
  int_unit_ticks (PPS.gantt (PPS.init input)).
Proof.
  unfold PPS.init. destruct (sort_by PPS.less input !! 0%nat) as [p0|]; [|by constructor].
  destruct (arrival p0 >? 0); [|by constructor].
  apply Forall_singleton. by intros [].
Qed.

(** C7, as the spec states it, for every execution interval.  A single
    process that arrives at tick 2147483647 is run over the interval that
    starts at that tick and ends, the clock having wrapped, at tick
    -2147483648: not an interval of one tick. *)
Lemma unit_tick_wraps :
  valid_procs [new_Process 1 2147483647 1 0]
  ∧ (∃ ps, I32.preemptive_priority 2 [new_Process 1 2147483647 1 0]
           = Finished ([idle_entry 0 2147483647;
                        mkGantt 1 2147483647 (-2147483648)], ps))
  ∧ ¬ ∃ fuel g ps,
        I32.preemptive_priority fuel [new_Process 1 2147483647 1 0] = Finished (g, ps)
        ∧ unit_ticks g.
Proof.
  split; [|split].
  - split; [done|]. split; [apply (bool_decide_unpack _); by vm_compute|].
    apply Forall_singleton. unfold valid_process. simpl. lia.
  - eexists. vm_compute. reflexivity.
  - intros (fuel & g & ps & Hrun & HP).
    assert (H2 : ∃ r, I32.preemptive_priority 2 [new_Process 1 2147483647 1 0] = Finished r
                      ∧ fst r !! 1%nat = Some (mkGantt 1 2147483647 (-2147483648))).
    { eexists. split; [vm_compute; reflexivity|reflexivity]. }
    destruct H2 as (r & H2 & He).
    rewrite <- (pps_int_deterministic _ _ _ _ _ Hrun H2) in He. simpl in He.
    pose proof (Forall_lookup_1 _ _ _ _ HP He) as Hu. simpl in Hu.
    assert (1 ≠ idle_pid) as Hne by (unfold idle_pid; lia).
    specialize (Hu Hne). lia.
Qed.

(** C7, amended.  Under Preemptive Priority every interval that is not
    idle ends one tick after it starts in the arithmetic of [int], on
    whatever input the run ends; for every valid process set whose latest
    arrival and bursts together do not exceed the largest [int] the run ends
    and every such interval lasts exactly one tick.  On the sample set P1 is
    first dispatched at tick 0 and runs over [0,1); P2, which arrives at tick
    1 with the more urgent priority, runs from tick 1 on, over [1,2), [2,3)
    and [3,4), and P1 resumes at tick 4. *)
Theorem pps_one_tick_at_a_time :
  (∀ fuel input g ps,
     I32.preemptive_priority fuel input = Finished (g, ps) → int_unit_ticks g)
  ∧ (∀ input, valid_procs input → fits_int input →
       ∃ fuel g ps, I32.preemptive_priority fuel input = Finished (g, ps) ∧ unit_ticks g)
  ∧ (∃ fuel g ps p1,
       I32.preemptive_priority fuel load_sample = Finished (g, ps)
       ∧ ps !! 0%nat = Some p1 ∧ pid p1 = 1 ∧ start_time p1 = 0
       ∧ take 5 g = [mkGantt 1 0 1; mkGantt 2 1 2; mkGantt 2 2 3; mkGantt 2 3 4;
                     mkGantt 1 4 5]).
Proof.
  split; [|split].
  - intros fuel input g ps. unfold I32.preemptive_priority.
    destruct (loop _ _ _) as [s| |] eqn:Hrun; try done. intros [= <- <-].
    apply (loop_invariant I32.pps_body (λ s, int_unit_ticks (PPS.gantt s))
             pps_body_int_unit fuel (PPS.init input)); [|done].
    apply PPS_init_int_unit.
  - intros input Hvalid Hfit. apply pps_lift; [done|done|].
    destruct (PPS_good input Hvalid) as (fuel & g & ps & Hrun & _).
    exists fuel, g, ps. split; [done|].
    unfold preemptive_priority, PPS.run_from in Hrun.
    destruct (loop _ _ _) as [s| |] eqn:Hloop; try done. injection Hrun as <- <-.
    apply (loop_invariant PPS.body (λ s, unit_ticks (PPS.gantt s))
             PPS_body_unit fuel (PPS.init input)); [|done].
    apply PPS_init_unit.
  - exists 23%nat. eexists _, _, _. split; [vm_compute; reflexivity|].
    split; [reflexivity|]. split; [reflexivity|]. split; reflexivity.
Qed.

Lemma pps_one_tick_at_a_time_witness :
  valid_procs load_sample ∧ fits_int load_sample
  ∧ (∃ g ps, I32.preemptive_priority 23 load_sample = Finished (g, ps)
             ∧ int_unit_ticks g)
  ∧ ∃ fuel g ps, I32.preemptive_priority fuel load_sample = Finished (g, ps) ∧ unit_ticks g.
Proof.
  split; [exact load_sample_valid|]. split; [exact load_sample_fits|]. split.
  - eexists _, _. split; [vm_compute; reflexivity|].
    eapply (proj1 pps_one_tick_at_a_time 23%nat load_sample). vm_compute; reflexivity.
  - exact (proj1 (proj2 pps_one_tick_at_a_time) load_sample load_sample_valid
             load_sample_fits).
Defined.

(** ** No input is rejected *)

Lemma mark_start_static (t : Z) (p : Process) :
  pid (mark_start t p) = pid p ∧ remaining (mark_start t p) = remaining p.
Proof. unfold mark_start. by destruct (start_time p =? -1). Qed.

(** On a process list that is not empty, [init] leaves the first process of
    the sorted vector at the front of the ready queue. *)
Lemma RR_init_front (input : list Process) :
  input ≠ [] →
  ∃ s0 p rest, RR.init input = Finished s0
               ∧ RR.procs s0 !! 0%nat = Some p
               ∧ RR.q s0 = 0%nat :: rest ∧ RR.completed s0 = 0%nat.
Proof.
  intros Hne. unfold RR.init.
  destruct (sort_by RR.less input) as [|p0 ps'] eqn:Hps.
  { pose proof (sort_by_perm RR.less input) as Hperm. rewrite Hps in Hperm.
    by apply Permutation_nil_l in Hperm. }
  cbn [push_arrivals skip_while].
  destruct (arrival p0 =? 0) eqn:H0.
  - destruct (push_arrivals_spec (λ p, arrival p =? 0) ps' 1 ([] ++ [0%nat]))
      as (k & -> & _).
    simpl. by eexists _, p0, _.
  - simpl. rewrite Z.eqb_refl.
    destruct (push_arrivals_spec (λ p, arrival p =? arrival p0) ps' 1 [0%nat])
      as (k & -> & _).
    simpl. by eexists _, p0, _.
Qed.

Lemma rr_first_turn (input : list Process) (quantum : Z) :
  input ≠ [] →
  ∃ s0 s1 p, RR.init input = Finished s0
             ∧ RR.procs s0 !! 0%nat = Some p
             ∧ I32.rr_body quantum s0 = Next s1
             ∧ RR.gantt s1
               = RR.gantt s0
                 ++ [mkGantt (pid p) (RR.time s0)
                             (I32.wrap (RR.time s0 + Z.min quantum (remaining p)))].
Proof.
  intros Hne.
  destruct (RR_init_front input Hne) as (s0 & p & rest & Hinit & Hp & Hq & Hc).
  destruct s0 as [ps q t c g idx]. simpl in *. subst q c.
  assert (Hlen : (0 <? length ps)%nat = true).
  { apply Nat.ltb_lt. by eapply lookup_lt_Some. }
  destruct (mark_start_static t p) as [Hpid Hrem].
  assert (Hbody : ∃ s1, I32.rr_body quantum (RR.mkState ps (0%nat :: rest) t 0 g idx)
                        = Next s1
                        ∧ RR.gantt s1
                          = g ++ [mkGantt (pid p) t
                                    (I32.wrap (t + Z.min quantum (remaining p)))]).
  { unfold I32.rr_body. simpl. rewrite Hlen, Hp. simpl. rewrite Hpid, Hrem.
    destruct (push_arrivals _ _ _ _) as [idx1 q1].
    destruct (0 <? _); eexists; by split. }
  destruct Hbody as (s1 & Hbody & Hg).
  by exists (RR.mkState ps (0%nat :: rest) t 0 g idx), s1, p.
Qed.

Lemma pq_top_Some (cmp : nat → nat → bool) (a : nat) (l : list nat) :
  ∃ m, pq_top cmp (a :: l) = Some m.
Proof.
  destruct (pq_top cmp (a :: l)) as [m|] eqn:H; [by exists m|].
  by apply pq_top_None in H.
Qed.

Lemma pps_first_turn (input : list Process) :
  input ≠ [] →
  ∃ s1 cur p, PPS.procs (PPS.init input) !! cur = Some p
              ∧ I32.pps_body (PPS.init input) = Next s1
              ∧ PPS.gantt s1
                = PPS.gantt (PPS.init input)
                  ++ [mkGantt (pid p) (PPS.time (PPS.init input))
                              (I32.wrap (PPS.time (PPS.init input) + 1))].
Proof.
  intros Hne.
  destruct (sort_by PPS.less input) as [|p0 ps'] eqn:Hps.
  { pose proof (sort_by_perm PPS.less input) as Hperm. rewrite Hps in Hperm.
    by apply Permutation_nil_l in Hperm. }
  assert (Hinit : ∃ t g, PPS.init input = PPS.mkState (p0 :: ps') [] t 0 g 0
                         ∧ arrival p0 ≤ t).
  { unfold PPS.init. rewrite Hps. simpl.
    destruct (arrival p0 >? 0) eqn:Hpos; eexists _, _; (split; [done|]); lia. }
  destruct Hinit as (t & g & -> & Ht). simpl.
  apply Z.leb_le in Ht.
  destruct (push_arrivals_spec (λ p, arrival p <=? t) ps' 1 [0%nat])
    as (k & Hadm & Hk & _).
  destruct (pq_top_Some (PPS.cmp (p0 :: ps')) 0%nat (seq 1 k)) as [cur Htop].
  assert (Hcur : (cur < length (p0 :: ps'))%nat).
  { apply pq_top_elem in Htop. apply elem_of_cons in Htop as [->|Hin]; [simpl; lia|].
    apply elem_of_seq in Hin. simpl. lia. }
  destruct (lookup_lt_is_Some_2 _ _ Hcur) as [p Hp].
  destruct (mark_start_static t p) as [Hpid Hrem].
  assert (Hbody : ∃ s1, I32.pps_body (PPS.mkState (p0 :: ps') [] t 0 g 0) = Next s1
                        ∧ PPS.gantt s1 = g ++ [mkGantt (pid p) t (I32.wrap (t + 1))]).
  { assert (Hadm0 : push_arrivals (λ p, arrival p <=? t) (p0 :: ps') 0 []
                    = (S k, 0%nat :: seq 1 k)).
    { simpl. rewrite Ht, Hadm. reflexivity. }
    unfold I32.pps_body. cbn -[pq_top push_arrivals]. rewrite Hadm0, Htop, Hp, Hpid.
    clear Hadm Hadm0.
    destruct (push_arrivals _ _ _ _) as [idx2 pq3].
    destruct (0 <? _); eexists; by split. }
  destruct Hbody as (s1 & Hbody & Hg).
  by exists s1, cur, p.
Qed.

(** With quantum 0 a slice lasts no tick and takes no work off: a single
    process with work to do is dispatched again and again. *)
Lemma rr_zero_quantum_spins (fuel : nat) (p : Process) (t : Z) (g : list GanttEntry) :
  0 < remaining p → I32.int_range (remaining p) → I32.int_range t →
  loop (I32.rr_body 0) fuel (RR.mkState [p] [0%nat] t 0 g 1) = OutOfFuel.
Proof.
  revert p g.
  induction fuel as [|fuel IH]; intros p g Hrem Hr Ht; [done|].
  assert (Hms : remaining (mark_start t p) = remaining p).
  { unfold mark_start. by destruct (start_time p =? -1). }
  cbn [loop]. unfold I32.rr_body. simpl. rewrite Hms, Z.min_l by lia.
  rewrite Z.sub_0_r, Z.add_0_r, (wrap_id _ Hr), (wrap_id _ Ht).
  destruct (0 <? remaining p) eqn:Hpos; [|apply Z.ltb_ge in Hpos; lia].
  apply IH; simpl; done.
Qed.

(** C1, as the spec states it, asks that a process list that is empty, has a
    duplicated identity, a zero or negative burst or a negative arrival, and
    a quantum that is not positive, be refused before any simulation step.
    Each engine runs to its end on such lists and returns a timeline; with
    quantum 0 Round Robin runs for ever. *)
Lemma invalid_input_is_simulated :
  I32.round_robin 1 [] 2 = Finished ([], [])
  ∧ I32.preemptive_priority 1 [] = Finished ([], [])
  ∧ (∃ ps, I32.round_robin 2 [new_Process 1 0 0 0] 2 = Finished ([mkGantt 1 0 0], ps))
  ∧ (∃ ps, I32.preemptive_priority 2 [new_Process 1 0 0 0]
           = Finished ([mkGantt 1 0 1], ps))
  ∧ (∃ ps, I32.round_robin 3 [new_Process 1 0 1 0; new_Process 1 0 1 0] 2
           = Finished ([mkGantt 1 0 1; mkGantt 1 1 2], ps))
  ∧ (∃ ps, I32.preemptive_priority 3 [new_Process 1 0 1 0; new_Process 1 0 1 0]
           = Finished ([mkGantt 1 0 1; mkGantt 1 1 2], ps))
  ∧ (∃ ps, I32.round_robin 2 [new_Process 1 (-3) (-2) 0] 2
           = Finished ([idle_entry 0 (-3); mkGantt 1 (-3) (-5)], ps))
  ∧ (∃ ps, I32.preemptive_priority 2 [new_Process 1 (-3) (-2) 0]
           = Finished ([mkGantt 1 0 1], ps))
  ∧ (∀ fuel, I32.round_robin fuel [new_Process 1 0 1 0] 0 = OutOfFuel).
Proof.
  do 2 (split; [vm_compute; reflexivity|]).
  do 6 (split; [eexists; vm_compute; reflexivity|]).
  intros fuel.
  pose proof (rr_zero_quantum_spins fuel (new_Process 1 0 1 0) 0 []) as Hspin.
  unfold I32.round_robin.
  assert (RR.init [new_Process 1 0 1 0]
          = Finished (RR.mkState [new_Process 1 0 1 0] [0%nat] 0 0 [] 1)) as ->
    by reflexivity.
  rewrite Hspin; [done|simpl; lia|int_ranges|int_ranges].
Qed.

(** C1, amended.  Neither engine checks its input or refuses it: the
    simulation starts whatever the process list and the quantum.  On the
    empty list both engines return at once, with an empty timeline and an
    empty table, whatever the quantum; on every other list, valid or not,
    the first turn of the loop dispatches a process of the list and appends
    its execution interval to the timeline. *)
Theorem no_input_is_rejected :
  (∀ fuel quantum, I32.round_robin (S fuel) [] quantum = Finished ([], []))
  ∧ (∀ fuel, I32.preemptive_priority (S fuel) [] = Finished ([], []))
  ∧ (∀ input quantum, input ≠ [] →
       ∃ s0 s1 p, RR.init input = Finished s0
                  ∧ RR.procs s0 !! 0%nat = Some p
                  ∧ I32.rr_body quantum s0 = Next s1
                  ∧ RR.gantt s1
                    = RR.gantt s0
                      ++ [mkGantt (pid p) (RR.time s0)
                                  (I32.wrap (RR.time s0 + Z.min quantum (remaining p)))])
  ∧ (∀ input, input ≠ [] →
       ∃ s1 cur p, PPS.procs (PPS.init input) !! cur = Some p
                   ∧ I32.pps_body (PPS.init input) = Next s1
                   ∧ PPS.gantt s1
                     = PPS.gantt (PPS.init input)
                       ++ [mkGantt (pid p) (PPS.time (PPS.init input))
                                   (I32.wrap (PPS.time (PPS.init input) + 1))]).
Proof.
  split; [|split; [|split]].
  - intros fuel quantum. reflexivity.
  - intros fuel. reflexivity.
  - intros input quantum Hne. by apply rr_first_turn.
  - intros input Hne. by apply pps_first_turn.
Qed.

Lemma no_input_is_rejected_witness :
  [new_Process 1 (-3) (-2) 0; new_Process 1 0 0 0] ≠ []
  ∧ (∃ s0 s1 p,
       RR.init [new_Process 1 (-3) (-2) 0; new_Process 1 0 0 0] = Finished s0
       ∧ RR.procs s0 !! 0%nat = Some p
       ∧ I32.rr_body 0 s0 = Next s1
       ∧ RR.gantt s1
         = RR.gantt s0
           ++ [mkGantt (pid p) (RR.time s0)
                       (I32.wrap (RR.time s0 + Z.min 0 (remaining p)))])
  ∧ (∃ s1 cur p,
       PPS.procs (PPS.init [new_Process 1 (-3) (-2) 0; new_Process 1 0 0 0]) !! cur = Some p
       ∧ I32.pps_body (PPS.init [new_Process 1 (-3) (-2) 0; new_Process 1 0 0 0]) = Next s1
       ∧ PPS.gantt s1
         = PPS.gantt (PPS.init [new_Process 1 (-3) (-2) 0; new_Process 1 0 0 0])
           ++ [mkGantt (pid p)
                 (PPS.time (PPS.init [new_Process 1 (-3) (-2) 0; new_Process 1 0 0 0]))
                 (I32.wrap
                    (PPS.time (PPS.init [new_Process 1 (-3) (-2) 0; new_Process 1 0 0 0])
                     + 1))]).
Proof.
  assert (Hne : [new_Process 1 (-3) (-2) 0; new_Process 1 0 0 0] ≠ []) by done.
  split; [exact Hne|]. split.
  - exact (proj1 (proj2 (proj2 no_input_is_rejected)) _ 0 Hne).
  - exact (proj2 (proj2 (proj2 no_input_is_rejected)) _ Hne).
Defined.

(** ** The conversion of an [int] to [double]

    [double_of_int] on a positive [int], by the specification of
    [of_uint63] as a rounding of its argument to binary64. *)

Lemma digits2_pos_lower (p : positive) :
  2 ^ (Z.pos (digits2_pos p) - 1) ≤ Z.pos p.
Proof.
  induction p as [p IH|p IH|]; simpl digits2_pos; [| |simpl; lia].
  - rewrite Pos2Z.inj_succ.
    replace (Z.succ (Z.pos (digits2_pos p)) - 1) with (Z.succ (Z.pos (digits2_pos p) - 1)) by lia.
    rewrite Z.pow_succ_r by lia. lia.
  - rewrite Pos2Z.inj_succ.
    replace (Z.succ (Z.pos (digits2_pos p)) - 1) with (Z.succ (Z.pos (digits2_pos p) - 1)) by lia.
    rewrite Z.pow_succ_r by lia. lia.
Qed.

Lemma digits2_pos_int (p : positive) :
  Z.pos p ≤ 2147483647 → (digits2_pos p ≤ 31)%positive.
Proof.
  intros Hp. pose proof (digits2_pos_lower p) as Hlow.
  destruct (decide (digits2_pos p ≤ 31)%positive) as [|Hgt]; [done|].
  assert (2 ^ 31 ≤ 2 ^ (Z.pos (digits2_pos p) - 1)) by (apply Z.pow_le_mono_r; lia).
  change (2 ^ 31) with 2147483648 in *. lia.
Qed.

Lemma digits2_pos_iter (p n : positive) :
  digits2_pos (Pos.iter xO p n) = (digits2_pos p + n)%positive.
Proof.
  induction n as [|n IH] using Pos.peano_ind.
  - simpl. by rewrite Pos.add_1_r.
  - rewrite Pos.iter_succ. simpl. rewrite IH. by rewrite Pos.add_succ_r.
Qed.

Lemma normalize_int_pos (p : positive) :
  Z.pos p ≤ 2147483647 →
  ∃ m e, binary_normalize prec emax (Z.pos p) 0 false = S754_finite false m e.
Proof.
  intros Hp. apply digits2_pos_int in Hp.
  unfold binary_normalize, binary_round.
  set (d := digits2_pos p) in *.
  assert (Hf : fexp prec emax (Z.pos d + 0) = Z.pos d - 53).
  { unfold fexp, emin, prec, emax. lia. }
  rewrite Hf. unfold shl_align.
  destruct (Z.pos d - 53 - 0) as [|q|q] eqn:E; [lia|lia|].
  unfold binary_round_aux, shr_fexp, Zdigits2.
  rewrite digits2_pos_iter. fold d.
  assert (Hf2 : fexp prec emax (Z.pos (d + q) + (Z.pos d - 53)) = Z.pos d - 53).
  { unfold fexp, emin, prec, emax. lia. }
  rewrite Hf2, Z.sub_diag.
  cbn [shr shr_record_of_loc shr_m loc_of_shr_record round_nearest_even shr_r shr_s].
  rewrite digits2_pos_iter. fold d. rewrite Hf2, Z.sub_diag.
  cbn [shr shr_record_of_loc shr_m].
  assert ((Z.pos d - 53 <=? emax - prec) = true) as ->.
  { apply Z.leb_le. unfold emax, prec. lia. }
  eauto.
Qed.

(** The conversion of a positive [int] is a double other than 0. *)
Lemma double_of_int_nonzero (z : Z) :
  1 ≤ z ≤ I32.INT_MAX → PrimFloat.eqb (double_of_int z) PrimFloat.zero = false.
Proof.
  unfold I32.INT_MAX. intros Hz. unfold double_of_int.
  destruct (z <? 0) eqn:Hneg; [apply Z.ltb_lt in Hneg; lia|].
  rewrite eqb_spec, of_uint63_spec, Uint63.of_Z_spec.
  assert (HwB : wB = 9223372036854775808) by reflexivity.
  rewrite Z.mod_small by lia.
  destruct z as [|p|p]; [lia| |lia].
  destruct (normalize_int_pos p ltac:(lia)) as (m & e & ->).
  reflexivity.
Qed.

(** ** Metrics *)

(** C5, as the spec states it, asks for a utilization and a throughput of 0
    when the makespan is 0.  [print_metrics] divides by the makespan without
    a test: for the empty timeline, which both engines return on the empty
    process list, utilization and throughput are the quotient 0/0, a NaN;
    for a timeline that ends at tick 0 the throughput is infinite.  Such a
    timeline is also that of a valid process set on which the clock wraps
    round to 0. *)
Lemma metrics_division_is_unguarded :
  I32.round_robin 1 [] 2 = Finished ([], [])
  ∧ I32.preemptive_priority 1 [] = Finished ([], [])
  ∧ makespan [] = 0
  ∧ PrimFloat.eqb (m_cpu_util (I32.metrics_of ([], []))) PrimFloat.zero = false
  ∧ PrimFloat.eqb (m_throughput (I32.metrics_of ([], []))) PrimFloat.zero = false
  ∧ PrimFloat.is_nan (m_cpu_util (I32.metrics_of ([], []))) = true
  ∧ PrimFloat.is_nan (m_throughput (I32.metrics_of ([], []))) = true
  ∧ (∃ r, I32.round_robin 2 [new_Process 1 0 0 0] 2 = Finished r
          ∧ makespan (fst r) = 0
          ∧ PrimFloat.is_nan (m_cpu_util (I32.metrics_of r)) = true
          ∧ m_throughput (I32.metrics_of r) = PrimFloat.infinity)
  ∧ (∃ r, I32.round_robin 4 [new_Process 1 0 2147483647 0; new_Process 2 0 2147483647 0;
                             new_Process 3 0 2 0] 2147483647 = Finished r
          ∧ makespan (fst r) = 0
          ∧ m_throughput (I32.metrics_of r) = PrimFloat.infinity).
Proof.
  do 7 (split; [vm_compute; reflexivity|]). split.
  - eexists. split; [vm_compute; reflexivity|].
    repeat split; vm_compute; reflexivity.
  - eexists. split; [vm_compute; reflexivity|].
    repeat split; vm_compute; reflexivity.
Qed.

Lemma descriptor_length (ps ps' : list Process) :
  descriptor <$> ps = descriptor <$> ps' → length ps = length ps'.
Proof. intros H. apply (f_equal length) in H. by rewrite !length_fmap in H. Qed.

(** The values that [print_metrics] computes at the end of a run in which
    no [int] wraps. *)
Lemma metrics_of_fit_run (input sorted : list Process) g ps :
  int_procs input → sorted ≡ₚ input →
  good_run input sorted g ps → I32.cpu_busy g = cpu_busy g →
  m_total_time (I32.metrics_of (g, ps)) = makespan g
  ∧ m_cpu_util (I32.metrics_of (g, ps))
    = PrimFloat.div (PrimFloat.mul (double_of_int 100) (double_of_int (execution_time g)))
                    (double_of_int (makespan g))
  ∧ m_throughput (I32.metrics_of (g, ps))
    = PrimFloat.div (double_of_int (Z.of_nat (length input))) (double_of_int (makespan g)).
Proof.
  intros [_ Hlen] Hperm (_ & _ & _ & _ & Hdesc) Hbusy.
  unfold I32.metrics_of, I32.print_metrics. simpl.
  rewrite Hbusy, cpu_busy_execution_time.
  rewrite (descriptor_length _ _ Hdesc), (Permutation_length Hperm).
  rewrite wrap_id by (unfold I32.int_range, I32.INT_MIN, I32.INT_MAX in *; lia).
  done.
Qed.

(** C5, amended.  [print_metrics] computes the CPU utilization as
    100 * (sum of the execution-interval durations) / makespan and the
    throughput as (number of processes) / makespan, in double precision and
    without a test on the makespan.  For every valid process set whose
    latest arrival and bursts together do not exceed the largest [int], and
    a positive quantum for Round Robin, the makespan that an engine hands to
    [print_metrics] is an [int] that is at least 1, and the double it is
    converted to, the divisor of both quotients, is not 0. *)
Theorem metrics_formulas (input : list Process) (quantum : Z) :
  valid_procs input → fits_int input → 0 < quantum →
  (∃ fuel g ps, I32.round_robin fuel input quantum = Finished (g, ps)
      ∧ 1 ≤ makespan g ≤ I32.INT_MAX
      ∧ PrimFloat.eqb (double_of_int (makespan g)) PrimFloat.zero = false
      ∧ m_total_time (I32.metrics_of (g, ps)) = makespan g
      ∧ m_cpu_util (I32.metrics_of (g, ps))
        = PrimFloat.div (PrimFloat.mul (double_of_int 100)
                                       (double_of_int (execution_time g)))
                        (double_of_int (makespan g))
      ∧ m_throughput (I32.metrics_of (g, ps))
        = PrimFloat.div (double_of_int (Z.of_nat (length input)))
                        (double_of_int (makespan g)))
  ∧ (∃ fuel g ps, I32.preemptive_priority fuel input = Finished (g, ps)
      ∧ 1 ≤ makespan g ≤ I32.INT_MAX
      ∧ PrimFloat.eqb (double_of_int (makespan g)) PrimFloat.zero = false
      ∧ m_total_time (I32.metrics_of (g, ps)) = makespan g
      ∧ m_cpu_util (I32.metrics_of (g, ps))
        = PrimFloat.div (PrimFloat.mul (double_of_int 100)
                                       (double_of_int (execution_time g)))
                        (double_of_int (makespan g))
      ∧ m_throughput (I32.metrics_of (g, ps))
        = PrimFloat.div (double_of_int (Z.of_nat (length input)))
                        (double_of_int (makespan g))).
Proof.
  intros Hvalid Hfit Hq. pose proof Hfit as [Hint _]. split.
  - destruct (RR_fit_run input quantum Hvalid Hfit Hq)
      as (fuel & g & ps & Hrun & Hgood & _ & Hms & Hc).
    exists fuel, g, ps. split; [done|]. split; [lia|].
    split; [apply double_of_int_nonzero; lia|].
    by apply (metrics_of_fit_run input (sort_by RR.less input));
      [|apply sort_by_perm| |].
  - destruct (PPS_fit_run input Hvalid Hfit)
      as (fuel & g & ps & Hrun & Hgood & _ & Hms & Hc).
    exists fuel, g, ps. split; [done|]. split; [lia|].
    split; [apply double_of_int_nonzero; lia|].
    by apply (metrics_of_fit_run input (sort_by PPS.less input));
      [|apply sort_by_perm| |].
Qed.

Lemma metrics_formulas_witness :
  valid_procs load_sample ∧ fits_int load_sample ∧ 0 < 2
  ∧ (∃ fuel g ps, I32.round_robin fuel load_sample 2 = Finished (g, ps)
      ∧ 1 ≤ makespan g ≤ I32.INT_MAX
      ∧ PrimFloat.eqb (double_of_int (makespan g)) PrimFloat.zero = false
      ∧ m_total_time (I32.metrics_of (g, ps)) = makespan g
      ∧ m_cpu_util (I32.metrics_of (g, ps))
        = PrimFloat.div (PrimFloat.mul (double_of_int 100)
                                       (double_of_int (execution_time g)))
                        (double_of_int (makespan g))
      ∧ m_throughput (I32.metrics_of (g, ps))
        = PrimFloat.div (double_of_int (Z.of_nat (length load_sample)))
                        (double_of_int (makespan g)))
  ∧ (∃ fuel g ps, I32.preemptive_priority fuel load_sample = Finished (g, ps)
      ∧ 1 ≤ makespan g ≤ I32.INT_MAX
      ∧ PrimFloat.eqb (double_of_int (makespan g)) PrimFloat.zero = false
      ∧ m_total_time (I32.metrics_of (g, ps)) = makespan g
      ∧ m_cpu_util (I32.metrics_of (g, ps))
        = PrimFloat.div (PrimFloat.mul (double_of_int 100)
                                       (double_of_int (execution_time g)))
                        (double_of_int (makespan g))
      ∧ m_throughput (I32.metrics_of (g, ps))
        = PrimFloat.div (double_of_int (Z.of_nat (length load_sample)))
                        (double_of_int (makespan g))).
Proof.
  split; [exact load_sample_valid|]. split; [exact load_sample_fits|]. split; [lia|].
  apply (metrics_formulas load_sample 2);
    [exact load_sample_valid|exact load_sample_fits|lia].
Defined.

(** * Further properties of the engines over [int] *)

(** X1. For every valid set of fresh processes ([start_time] is -1, as the
    constructor leaves it) whose latest arrival and bursts together do not
    exceed the largest [int], and a positive quantum for Round Robin, each
    engine ends with a table in which the start time of every process is the
    start tick of its first interval in the timeline, is not before its
    arrival, and leaves room for the whole burst before the completion
    time. *)
Theorem first_dispatch_times (input : list Process) (quantum : Z) :
  valid_procs input → fits_int input → fresh_procs input → 0 < quantum →
  (∃ fuel g ps, I32.round_robin fuel input quantum = Finished (g, ps)
      ∧ descriptor <$> ps = descriptor <$> sort_by RR.less input
      ∧ Forall (λ p, g_start <$> head (intervals_of (pid p) g) = Some (start_time p)
                     ∧ arrival p ≤ start_time p
                     ∧ start_time p + burst p ≤ completion_time p) ps)
  ∧ (∃ fuel g ps, I32.preemptive_priority fuel input = Finished (g, ps)
      ∧ descriptor <$> ps = descriptor <$> sort_by PPS.less input
      ∧ Forall (λ p, g_start <$> head (intervals_of (pid p) g) = Some (start_time p)
                     ∧ arrival p ≤ start_time p
                     ∧ start_time p + burst p ≤ completion_time p) ps).
Proof.
  intros Hvalid Hfit Hfresh Hq.
  destruct (exact_first_dispatch input quantum Hvalid Hfresh Hq) as [Hrr Hpps].
  split; [by apply rr_lift|by apply pps_lift].
Qed.

Lemma first_dispatch_times_witness :
  valid_procs load_sample ∧ fits_int load_sample ∧ fresh_procs load_sample ∧ 0 < 2
  ∧ (∃ fuel g ps, I32.round_robin fuel load_sample 2 = Finished (g, ps)
      ∧ descriptor <$> ps = descriptor <$> sort_by RR.less load_sample
      ∧ Forall (λ p, g_start <$> head (intervals_of (pid p) g) = Some (start_time p)
                     ∧ arrival p ≤ start_time p
                     ∧ start_time p + burst p ≤ completion_time p) ps)
  ∧ (∃ fuel g ps, I32.preemptive_priority fuel load_sample = Finished (g, ps)
      ∧ descriptor <$> ps = descriptor <$> sort_by PPS.less load_sample
      ∧ Forall (λ p, g_start <$> head (intervals_of (pid p) g) = Some (start_time p)
                     ∧ arrival p ≤ start_time p
                     ∧ start_time p + burst p ≤ completion_time p) ps).
Proof.
  split; [exact load_sample_valid|]. split; [exact load_sample_fits|].
  split; [exact load_sample_fresh|]. split; [lia|].
  apply (first_dispatch_times load_sample 2);
    [exact load_sample_valid|exact load_sample_fits|exact load_sample_fresh|lia].
Defined.

(** X2. For every valid process set whose latest arrival and bursts
    together do not exceed the largest [int], and a positive quantum for
    Round Robin, the completion time of every process in the final table is
    the end tick of the last interval of that process in the timeline. *)
Theorem completion_is_last_interval_end (input : list Process) (quantum : Z) :
  valid_procs input → fits_int input → 0 < quantum →
  (∃ fuel g ps, I32.round_robin fuel input quantum = Finished (g, ps)
      ∧ descriptor <$> ps = descriptor <$> sort_by RR.less input
      ∧ Forall (λ p, g_end <$> last (intervals_of (pid p) g)
                     = Some (completion_time p)) ps)
  ∧ (∃ fuel g ps, I32.preemptive_priority fuel input = Finished (g, ps)
      ∧ descriptor <$> ps = descriptor <$> sort_by PPS.less input
      ∧ Forall (λ p, g_end <$> last (intervals_of (pid p) g)
                     = Some (completion_time p)) ps).
Proof.
  intros Hvalid Hfit Hq.
  destruct (exact_last_interval input quantum Hvalid Hq) as [Hrr Hpps].
  split; [by apply rr_lift|by apply pps_lift].
Qed.

Lemma completion_is_last_interval_end_witness :
  valid_procs load_sample ∧ fits_int load_sample ∧ 0 < 2
  ∧ (∃ fuel g ps, I32.round_robin fuel load_sample 2 = Finished (g, ps)
      ∧ descriptor <$> ps = descriptor <$> sort_by RR.less load_sample
      ∧ Forall (λ p, g_end <$> last (intervals_of (pid p) g)
                     = Some (completion_time p)) ps)
  ∧ (∃ fuel g ps, I32.preemptive_priority fuel load_sample = Finished (g, ps)
      ∧ descriptor <$> ps = descriptor <$> sort_by PPS.less load_sample
      ∧ Forall (λ p, g_end <$> last (intervals_of (pid p) g)
                     = Some (completion_time p)) ps).
Proof.
  split; [exact load_sample_valid|]. split; [exact load_sample_fits|]. split; [lia|].
  apply (completion_is_last_interval_end load_sample 2);
    [exact load_sample_valid|exact load_sample_fits|lia].
Defined.

(** X3. For every valid process set whose latest arrival and bursts
    together do not exceed the largest [int], and a positive quantum for
    Round Robin, the intervals of each process in the timeline add up to
    exactly the burst of that process. *)
Theorem each_process_gets_its_burst (input : list Process) (quantum : Z) :
  valid_procs input → fits_int input → 0 < quantum →
  (∃ fuel g ps, I32.round_robin fuel input quantum = Finished (g, ps)
      ∧ descriptor <$> ps = descriptor <$> sort_by RR.less input
      ∧ Forall (λ p, total_duration (intervals_of (pid p) g) = burst p) ps)
  ∧ (∃ fuel g ps, I32.preemptive_priority fuel input = Finished (g, ps)
      ∧ descriptor <$> ps = descriptor <$> sort_by PPS.less input
      ∧ Forall (λ p, total_duration (intervals_of (pid p) g) = burst p) ps).
Proof.
  intros Hvalid Hfit Hq.
  destruct (exact_burst_share input quantum Hvalid Hq) as [Hrr Hpps].
  split; [by apply rr_lift|by apply pps_lift].
Qed.

Lemma each_process_gets_its_burst_witness :
  valid_procs load_sample ∧ fits_int load_sample ∧ 0 < 2
  ∧ (∃ fuel g ps, I32.round_robin fuel load_sample 2 = Finished (g, ps)
      ∧ descriptor <$> ps = descriptor <$> sort_by RR.less load_sample
      ∧ Forall (λ p, total_duration (intervals_of (pid p) g) = burst p) ps)
  ∧ (∃ fuel g ps, I32.preemptive_priority fuel load_sample = Finished (g, ps)
      ∧ descriptor <$> ps = descriptor <$> sort_by PPS.less load_sample
      ∧ Forall (λ p, total_duration (intervals_of (pid p) g) = burst p) ps).
Proof.
  split; [exact load_sample_valid|]. split; [exact load_sample_fits|]. split; [lia|].
  apply (each_process_gets_its_burst load_sample 2);
    [exact load_sample_valid|exact load_sample_fits|lia].
Defined.

(** X4. For every valid process set whose arrival ticks are at most [A] and
    whose latest arrival and bursts together do not exceed the largest
    [int], and a positive quantum for Round Robin, the makespan of either
    timeline is at least the sum of the bursts and at most [A] plus that sum:
    the execution time never exceeds the makespan, and nothing is idle once
    the last process has arrived. *)
Theorem makespan_bounds (A : Z) (input : list Process) (quantum : Z) :
  valid_procs input → fits_int input → Forall (λ p, arrival p ≤ A) input →
  0 < quantum →
  (∃ fuel g ps, I32.round_robin fuel input quantum = Finished (g, ps)
      ∧ execution_time g ≤ makespan g
      ∧ total_burst input ≤ makespan g ≤ A + total_burst input)
  ∧ (∃ fuel g ps, I32.preemptive_priority fuel input = Finished (g, ps)
      ∧ execution_time g ≤ makespan g
      ∧ total_burst input ≤ makespan g ≤ A + total_burst input).
Proof.
  intros Hvalid Hfit HA Hq.
  destruct (exact_makespan A input quantum Hvalid HA Hq) as [Hrr Hpps].
  split; [apply rr_lift|apply pps_lift]; try done.
  - destruct Hrr as (fuel & g & ps & ? & ? & ?). exists fuel, g, ps.
    by rewrite <- cpu_busy_execution_time.
  - destruct Hpps as (fuel & g & ps & ? & ? & ?). exists fuel, g, ps.
    by rewrite <- cpu_busy_execution_time.
Qed.

Lemma makespan_bounds_witness :
  valid_procs load_sample ∧ fits_int load_sample
  ∧ Forall (λ p, arrival p ≤ 3) load_sample ∧ 0 < 2
  ∧ (∃ fuel g ps, I32.round_robin fuel load_sample 2 = Finished (g, ps)
      ∧ execution_time g ≤ makespan g
      ∧ total_burst load_sample ≤ makespan g ≤ 3 + total_burst load_sample)
  ∧ (∃ fuel g ps, I32.preemptive_priority fuel load_sample = Finished (g, ps)
      ∧ execution_time g ≤ makespan g
      ∧ total_burst load_sample ≤ makespan g ≤ 3 + total_burst load_sample).
Proof.
  assert (H3 : Forall (λ p, arrival p ≤ 3) load_sample).
  { unfold load_sample. repeat (apply Forall_cons; split; [simpl; lia|]).
    apply Forall_nil_2. }
  split; [exact load_sample_valid|]. split; [exact load_sample_fits|].
  split; [exact H3|]. split; [lia|].
  apply (makespan_bounds 3 load_sample 2);
    [exact load_sample_valid|exact load_sample_fits|exact H3|lia].
Defined.

(** X5. When every process of a valid set arrives at tick 0 and the bursts
    together do not exceed the largest [int], neither timeline has an idle
    interval, and the makespan is the sum of the bursts. *)
Theorem no_idle_when_all_arrive_at_zero (input : list Process) (quantum : Z) :
  valid_procs input → fits_int input → Forall (λ p, arrival p = 0) input →
  0 < quantum →
  (∃ fuel g ps, I32.round_robin fuel input quantum = Finished (g, ps)
      ∧ makespan g = total_burst input
      ∧ Forall (λ e, g_pid e ≠ idle_pid) g)
  ∧ (∃ fuel g ps, I32.preemptive_priority fuel input = Finished (g, ps)
      ∧ makespan g = total_burst input
      ∧ Forall (λ e, g_pid e ≠ idle_pid) g).
Proof.
  intros Hvalid Hfit Hzero Hq.
  destruct (exact_no_idle input quantum Hvalid Hzero Hq) as [Hrr Hpps].
  split; [by apply rr_lift|by apply pps_lift].
Qed.

Lemma no_idle_when_all_arrive_at_zero_witness :
  valid_procs [new_Process 1 0 3 1; new_Process 2 0 2 0]
  ∧ fits_int [new_Process 1 0 3 1; new_Process 2 0 2 0]
  ∧ Forall (λ p, arrival p = 0) [new_Process 1 0 3 1; new_Process 2 0 2 0]
  ∧ 0 < 2
  ∧ (∃ fuel g ps,
       I32.round_robin fuel [new_Process 1 0 3 1; new_Process 2 0 2 0] 2
       = Finished (g, ps)
       ∧ makespan g = total_burst [new_Process 1 0 3 1; new_Process 2 0 2 0]
       ∧ Forall (λ e, g_pid e ≠ idle_pid) g)
  ∧ (∃ fuel g ps,
       I32.preemptive_priority fuel [new_Process 1 0 3 1; new_Process 2 0 2 0]
       = Finished (g, ps)
       ∧ makespan g = total_burst [new_Process 1 0 3 1; new_Process 2 0 2 0]
       ∧ Forall (λ e, g_pid e ≠ idle_pid) g).
Proof.
  assert (Hv : valid_procs [new_Process 1 0 3 1; new_Process 2 0 2 0]).
  { split; [done|]. split.
    - apply (bool_decide_unpack _). by vm_compute.
    - repeat (apply Forall_cons; split; [unfold valid_process; simpl; lia|]).
      apply Forall_nil_2. }
  assert (Hf : fits_int [new_Process 1 0 3 1; new_Process 2 0 2 0]).
  { split; [split|]; [|int_ranges|int_ranges].
    unfold int_process.
    repeat (apply Forall_cons; split; [repeat split; int_ranges|]). apply Forall_nil_2. }
  assert (Hz : Forall (λ p, arrival p = 0) [new_Process 1 0 3 1; new_Process 2 0 2 0]).
  { repeat (apply Forall_cons; split; [reflexivity|]). apply Forall_nil_2. }
  split; [exact Hv|]. split; [exact Hf|]. split; [exact Hz|]. split; [lia|].
  apply (no_idle_when_all_arrive_at_zero _ 2); [exact Hv|exact Hf|exact Hz|lia].
Defined.

(** X6. A single valid process whose arrival and burst together do not
    exceed the largest [int], under either engine and whatever the positive
    quantum, completes at arrival + burst, with waiting time 0 and
    turnaround time equal to its burst; the timeline ends at that tick. *)
Theorem single_process_run (p : Process) (quantum : Z) :
  valid_process p → fits_int [p] → 0 < quantum →
  (∃ fuel g p', I32.round_robin fuel [p] quantum = Finished (g, [p'])
      ∧ descriptor p' = descriptor p
      ∧ completion_time p' = arrival p + burst p
      ∧ waiting_time p' = 0 ∧ turnaround_time p' = burst p
      ∧ makespan g = arrival p + burst p)
  ∧ (∃ fuel g p', I32.preemptive_priority fuel [p] = Finished (g, [p'])
      ∧ descriptor p' = descriptor p
      ∧ completion_time p' = arrival p + burst p
      ∧ waiting_time p' = 0 ∧ turnaround_time p' = burst p
      ∧ makespan g = arrival p + burst p).
Proof.
  intros Hp Hfit Hq.
  assert (Hvalid : valid_procs [p]).
  { split; [done|]. split; [apply NoDup_singleton|by apply Forall_singleton]. }
  destruct (exact_single p quantum Hp Hq)
    as [(fuel & g & p' & Hrun & H) (fuel' & g' & p'' & Hrun' & H')].
  split.
  - exists fuel, g, p'. by rewrite rr_transfer.
  - exists fuel', g', p''. by rewrite pps_transfer.
Qed.

Lemma single_process_run_witness :
  valid_process (new_Process 7 4 3 0) ∧ fits_int [new_Process 7 4 3 0] ∧ 0 < 2
  ∧ (∃ fuel g p', I32.round_robin fuel [new_Process 7 4 3 0] 2 = Finished (g, [p'])
      ∧ descriptor p' = descriptor (new_Process 7 4 3 0)
      ∧ completion_time p' = arrival (new_Process 7 4 3 0) + burst (new_Process 7 4 3 0)
      ∧ waiting_time p' = 0 ∧ turnaround_time p' = burst (new_Process 7 4 3 0)
      ∧ makespan g = arrival (new_Process 7 4 3 0) + burst (new_Process 7 4 3 0))
  ∧ (∃ fuel g p', I32.preemptive_priority fuel [new_Process 7 4 3 0] = Finished (g, [p'])
      ∧ descriptor p' = descriptor (new_Process 7 4 3 0)
      ∧ completion_time p' = arrival (new_Process 7 4 3 0) + burst (new_Process 7 4 3 0)
      ∧ waiting_time p' = 0 ∧ turnaround_time p' = burst (new_Process 7 4 3 0)
      ∧ makespan g = arrival (new_Process 7 4 3 0) + burst (new_Process 7 4 3 0)).
Proof.
  assert (Hv : valid_process (new_Process 7 4 3 0)).
  { unfold valid_process. simpl. lia. }
  assert (Hf : fits_int [new_Process 7 4 3 0]).
  { split; [split|]; [|int_ranges|int_ranges].
    apply Forall_singleton. unfold int_process. repeat split; int_ranges. }
  split; [exact Hv|]. split; [exact Hf|]. split; [lia|].
  apply (single_process_run (new_Process 7 4 3 0) 2); [exact Hv|exact Hf|lia].
Defined.

(** X8. On a valid process set whose latest arrival and bursts together do
    not exceed the largest [int], no interval of a Round Robin timeline that
    is not idle lasts longer than the (positive) quantum. *)
Theorem rr_slice_within_quantum (fuel : nat) (input : list Process) (quantum : Z)
        (g : list GanttEntry) (ps : list Process) :
  valid_procs input → fits_int input → 0 < quantum →
  I32.round_robin fuel input quantum = Finished (g, ps) → within_quantum quantum g.
Proof.
  intros Hvalid Hfit Hq Hrun. rewrite rr_transfer in Hrun by done.
  by eapply exact_slices.
Qed.

Lemma rr_slice_within_quantum_witness :
  valid_procs load_sample ∧ fits_int load_sample ∧ 0 < 2
  ∧ ∃ g ps, I32.round_robin 13 load_sample 2 = Finished (g, ps) ∧ within_quantum 2 g.
Proof.
  split; [exact load_sample_valid|]. split; [exact load_sample_fits|]. split; [lia|].
  eexists _, _. split; [vm_compute; reflexivity|].
  eapply (rr_slice_within_quantum 13 load_sample 2);
    [exact load_sample_valid|exact load_sample_fits|lia|vm_compute; reflexivity].
Defined.

(** X9. In a Preemptive Priority run on a valid process set whose latest
    arrival and bursts together do not exceed the largest [int], whenever
    the loop runs a process for a tick, that process has arrived, has work
    left, and comes first in the order of the queue (priority, then arrival,
    then pid) among all the processes that have arrived and have work
    left. *)
Theorem pps_runs_most_urgent (input : list Process) (s s' : PPS.state) (e : GanttEntry) :
  valid_procs input → fits_int input →
  reaches I32.pps_body (PPS.init input) s →
  I32.pps_body s = Next s' →
  PPS.gantt s' = PPS.gantt s ++ [e] → g_pid e ≠ idle_pid →
  ∃ cur p, PPS.procs s !! cur = Some p
           ∧ g_pid e = pid p ∧ g_start e = PPS.time s
           ∧ arrival p ≤ PPS.time s ∧ 0 < remaining p
           ∧ ∀ j pj, PPS.procs s !! j = Some pj →
                     arrival pj ≤ PPS.time s → 0 < remaining pj →
                     at_least_as_urgent p pj.
Proof.
  intros Hvalid Hfit Hreach Hbody Hgantt Hpid.
  destruct (pps_reaches_transfer input s Hvalid Hfit Hreach) as [Hr Heq].
  rewrite Heq in Hbody. by eapply exact_most_urgent.
Qed.

Lemma pps_runs_most_urgent_witness :
  ∃ s s' e,
    valid_procs load_sample ∧ fits_int load_sample
    ∧ reaches I32.pps_body (PPS.init load_sample) s
    ∧ I32.pps_body s = Next s'
    ∧ PPS.gantt s' = PPS.gantt s ++ [e] ∧ g_pid e ≠ idle_pid
    ∧ e = mkGantt 2 1 2
    ∧ ∃ cur p, PPS.procs s !! cur = Some p
             ∧ g_pid e = pid p ∧ g_start e = PPS.time s
             ∧ arrival p ≤ PPS.time s ∧ 0 < remaining p
             ∧ ∀ j pj, PPS.procs s !! j = Some pj →
                       arrival pj ≤ PPS.time s → 0 < remaining pj →
                       at_least_as_urgent p pj.
Proof.
  assert (Hstep : ∃ s1, I32.pps_body (PPS.init load_sample) = Next s1
                        ∧ ∃ s2, I32.pps_body s1 = Next s2
                                ∧ PPS.gantt s2 = PPS.gantt s1 ++ [mkGantt 2 1 2]).
  { eexists. split; [vm_compute; reflexivity|].
    eexists. split; [vm_compute; reflexivity|reflexivity]. }
  destruct Hstep as (s1 & H1 & s2 & H2 & Hg).
  assert (Hreach : reaches I32.pps_body (PPS.init load_sample) s1).
  { eapply reaches_next; [apply reaches_here|exact H1]. }
  assert (Hne : g_pid (mkGantt 2 1 2) ≠ idle_pid) by (simpl; unfold idle_pid; lia).
  exists s1, s2, (mkGantt 2 1 2).
  split; [exact load_sample_valid|]. split; [exact load_sample_fits|].
  split; [exact Hreach|]. split; [exact H2|].
  split; [exact Hg|]. split; [exact Hne|]. split; [reflexivity|].
  exact (pps_runs_most_urgent load_sample s1 s2 _ load_sample_valid load_sample_fits
           Hreach H2 Hg Hne).
Defined.

(** ** Resetting a table *)

Lemma reset_int (ps l : list Process) :
  Forall int_process l → descriptor <$> ps = descriptor <$> l →
  Forall int_process (reset <$> ps)
  ∧ max_arrival (reset <$> ps) = max_arrival l.
Proof.
  revert l. induction ps as [|p ps IH]; intros [|x l] Hint Hd; try done.
  apply Forall_cons in Hint as [Hx Hl].
  rewrite !fmap_cons in Hd. injection Hd as Hpid Harr Hb Hprio Hrest.
  destruct (IH l Hl Hrest) as [IH1 IH2].
  split.
  - rewrite fmap_cons. apply Forall_cons. split; [|done].
    destruct Hx as (H1 & H2 & H3 & H4 & _).
    unfold int_process, reset. simpl. rewrite Hpid, Harr, Hb, Hprio.
    unfold I32.int_range, I32.INT_MIN, I32.INT_MAX in *. lia.
  - rewrite fmap_cons. cbn [max_arrival foldr]. fold (max_arrival (reset <$> ps)).
    fold (max_arrival l). rewrite IH2. simpl. by rewrite Harr.
Qed.

(** X11. The reset loop of [main] makes any table ready for another run.
    If a table carries, in whatever state, the input fields of a valid
    process set whose latest arrival and bursts together do not exceed the
    largest [int] (as the table of a finished run does), the reset table is
    again a valid set of fresh processes, and both engines run it to the end,
    with the execution time that the bursts ask for. *)
Theorem reset_allows_rerun (l ps : list Process) (quantum : Z) :
  valid_procs l → fits_int l → descriptor <$> ps = descriptor <$> l → 0 < quantum →
  valid_procs (reset <$> ps)
  ∧ fresh_procs (reset <$> ps)
  ∧ fits_int (reset <$> ps)
  ∧ (∃ fuel g ps', I32.round_robin fuel (reset <$> ps) quantum = Finished (g, ps')
                   ∧ execution_time g = total_burst l)
  ∧ (∃ fuel g ps', I32.preemptive_priority fuel (reset <$> ps) = Finished (g, ps')
                   ∧ execution_time g = total_burst l).
Proof.
  intros Hvalid ((Hint & Hlen) & Hfit) Hd Hq.
  pose proof Hvalid as (_ & _ & Hv).
  destruct (exact_rerun l ps quantum Hvalid Hd Hq) as (Hv' & Hfresh & Hrr & Hpps).
  destruct (reset_rows ps l Hv Hd) as (_ & _ & _ & Hb).
  destruct (reset_int ps l Hint Hd) as (Hint' & Hmax).
  assert (Hfit' : fits_int (reset <$> ps)).
  { split; [split; [done|]|].
    - rewrite length_fmap. apply (f_equal length) in Hd.
      rewrite !length_fmap in Hd. by rewrite Hd.
    - by rewrite Hmax, Hb. }
  split; [done|]. split; [done|]. split; [done|].
  split; [apply rr_lift|apply pps_lift]; try done.
  - destruct Hrr as (fuel & g & ps' & ? & ?). exists fuel, g, ps'.
    by rewrite <- cpu_busy_execution_time.
  - destruct Hpps as (fuel & g & ps' & ? & ?). exists fuel, g, ps'.
    by rewrite <- cpu_busy_execution_time.
Qed.

Lemma reset_allows_rerun_witness :
  ∃ g ps,
    I32.round_robin 13 load_sample 2 = Finished (g, ps)
    ∧ valid_procs load_sample ∧ fits_int load_sample
    ∧ descriptor <$> ps = descriptor <$> load_sample
    ∧ 0 < 2
    ∧ valid_procs (reset <$> ps)
    ∧ fresh_procs (reset <$> ps)
    ∧ fits_int (reset <$> ps)
    ∧ (∃ fuel g' ps', I32.round_robin fuel (reset <$> ps) 2 = Finished (g', ps')
                      ∧ execution_time g' = total_burst load_sample)
    ∧ (∃ fuel g' ps', I32.preemptive_priority fuel (reset <$> ps) = Finished (g', ps')
                      ∧ execution_time g' = total_burst load_sample).
Proof.
  eexists _, _. split; [vm_compute; reflexivity|].
  split; [exact load_sample_valid|]. split; [exact load_sample_fits|].
  split; [reflexivity|]. split; [lia|].
  apply (reset_allows_rerun load_sample);
    [exact load_sample_valid|exact load_sample_fits|reflexivity|lia].
Defined.

(** ** Context switches *)

Lemma context_switches_cut (l1 l2 : list GanttEntry) (w a b c : Z) :
  context_switches (l1 ++ mkGantt w a b :: mkGantt w b c :: l2)
  = context_switches (l1 ++ mkGantt w a c :: l2).
Proof.
  induction l1 as [|x l1 IH].
  - change (context_switches ([] ++ mkGantt w a b :: mkGantt w b c :: l2))
      with ((if negb (w =? w) then 1 else 0) + context_switches (mkGantt w b c :: l2)).
    rewrite Z.eqb_refl. simpl negb. cbv iota.
    rewrite Z.add_0_l. by apply context_switches_head.
  - destruct l1 as [|y l1].
    + change (context_switches ([x] ++ mkGantt w a b :: mkGantt w b c :: l2))
        with ((if negb (w =? g_pid x) then 1 else 0)
              + context_switches ([] ++ mkGantt w a b :: mkGantt w b c :: l2)).
      rewrite IH. reflexivity.
    + change (context_switches ((x :: y :: l1) ++ mkGantt w a b :: mkGantt w b c :: l2))
        with ((if negb (g_pid y =? g_pid x) then 1 else 0)
              + context_switches ((y :: l1) ++ mkGantt w a b :: mkGantt w b c :: l2)).
      rewrite IH. reflexivity.
Qed.

(** X12. For a timeline of at most 2147483648 intervals, the number of
    context switches that [print_metrics] counts is at least 0, and at most
    the number of intervals less one when there is an interval; and it does
    not change when an interval is cut in two at any tick: the one-tick
    intervals of Preemptive Priority count as the longer intervals they make
    up. *)
Theorem context_switches_props :
  (∀ g, Z.of_nat (length g) ≤ I32.INT_MAX + 1 →
        0 ≤ I32.context_switches g
        ∧ (g ≠ [] → I32.context_switches g ≤ Z.of_nat (length g) - 1))
  ∧ (∀ l1 l2 w a b c,
       Z.of_nat (length (l1 ++ mkGantt w a b :: mkGantt w b c :: l2)) ≤ I32.INT_MAX + 1 →
       I32.context_switches (l1 ++ mkGantt w a b :: mkGantt w b c :: l2)
       = I32.context_switches (l1 ++ mkGantt w a c :: l2)).
Proof.
  split.
  - intros g Hlen. unfold I32.context_switches.
    rewrite count_switches_agree by lia.
    destruct (context_switches_bounds g) as [H0 H1]. split; [lia|].
    intros Hne. specialize (H1 Hne). lia.
  - intros l1 l2 w a b c Hlen. unfold I32.context_switches.
    rewrite !count_switches_agree; [by rewrite context_switches_cut|lia| |lia|lia].
    rewrite length_app in *. cbn [length] in *. lia.
Qed.

Lemma context_switches_props_witness :
  Z.of_nat (length [mkGantt 1 0 2; mkGantt 1 2 4; mkGantt 2 4 5]) ≤ I32.INT_MAX + 1
  ∧ [mkGantt 1 0 2; mkGantt 1 2 4; mkGantt 2 4 5] ≠ []
  ∧ 0 ≤ I32.context_switches [mkGantt 1 0 2; mkGantt 1 2 4; mkGantt 2 4 5]
  ∧ I32.context_switches [mkGantt 1 0 2; mkGantt 1 2 4; mkGantt 2 4 5]
    ≤ Z.of_nat (length [mkGantt 1 0 2; mkGantt 1 2 4; mkGantt 2 4 5]) - 1
  ∧ I32.context_switches ([] ++ mkGantt 1 0 2 :: mkGantt 1 2 4 :: [mkGantt 2 4 5])
    = I32.context_switches ([] ++ mkGantt 1 0 4 :: [mkGantt 2 4 5]).
Proof.
  assert (Hlen : Z.of_nat (length [mkGantt 1 0 2; mkGantt 1 2 4; mkGantt 2 4 5])
                 ≤ I32.INT_MAX + 1) by int_ranges.
  assert (Hne : [mkGantt 1 0 2; mkGantt 1 2 4; mkGantt 2 4 5] ≠ []) by done.
  split; [exact Hlen|]. split; [exact Hne|].
  destruct (proj1 context_switches_props _ Hlen) as [H0 H1].
  split; [exact H0|]. split; [exact (H1 Hne)|].
  exact (proj2 context_switches_props [] [mkGantt 2 4 5] 1 0 2 4 Hlen).
Defined.

(** ** Round Robin with a quantum that covers every burst *)

(** X14. When the quantum is at least the burst of every process of a valid
    set whose latest arrival and bursts together do not exceed the largest
    [int], Round Robin never preempts: each process has exactly one interval
    in the timeline, as long as its burst and ending at its completion
    time. *)
Theorem rr_large_quantum_runs_each_process_once (input : list Process) (quantum : Z) :
  valid_procs input → fits_int input → 0 < quantum →
  Forall (λ p, burst p ≤ quantum) input →
  ∃ fuel g ps, I32.round_robin fuel input quantum = Finished (g, ps)
    ∧ descriptor <$> ps = descriptor <$> sort_by RR.less input
    ∧ Forall (λ p, ∃ e, intervals_of (pid p) g = [e]
                        ∧ duration e = burst p
                        ∧ g_end e = completion_time p) ps.
Proof.
  intros Hvalid Hfit Hq Hbig. apply rr_lift; try done.
  by apply exact_one_shot.
Qed.

Lemma rr_large_quantum_runs_each_process_once_witness :
  valid_procs load_sample ∧ fits_int load_sample ∧ 0 < 8
  ∧ Forall (λ p, burst p ≤ 8) load_sample
  ∧ ∃ fuel g ps, I32.round_robin fuel load_sample 8 = Finished (g, ps)
      ∧ descriptor <$> ps = descriptor <$> sort_by RR.less load_sample
      ∧ Forall (λ p, ∃ e, intervals_of (pid p) g = [e]
                          ∧ duration e = burst p
                          ∧ g_end e = completion_time p) ps.
Proof.
  assert (H8 : Forall (λ p, burst p ≤ 8) load_sample).
  { unfold load_sample. repeat (apply Forall_cons; split; [simpl; lia|]).
    apply Forall_nil_2. }
  split; [exact load_sample_valid|]. split; [exact load_sample_fits|].
  split; [lia|]. split; [exact H8|].
  apply (rr_large_quantum_runs_each_process_once load_sample 8);
    [exact load_sample_valid|exact load_sample_fits|lia|exact H8].
Defined.

(** ** How often a process is dispatched *)

(** X16. For every valid process set whose latest arrival and bursts
    together do not exceed the largest [int], Round Robin with a positive
    quantum dispatches each process as often as its burst holds the quantum,
    rounded up, and Preemptive Priority dispatches each process as often as
    its burst has ticks. *)
Theorem dispatch_counts (input : list Process) (quantum : Z) :
  valid_procs input → fits_int input → 0 < quantum →
  (∃ fuel g ps, I32.round_robin fuel input quantum = Finished (g, ps)
      ∧ descriptor <$> ps = descriptor <$> sort_by RR.less input
      ∧ Forall (λ p, quantum * (Z.of_nat (length (intervals_of (pid p) g)) - 1) < burst p
                     ∧ burst p ≤ quantum * Z.of_nat (length (intervals_of (pid p) g)))
               ps)
  ∧ (∃ fuel g ps, I32.preemptive_priority fuel input = Finished (g, ps)
      ∧ descriptor <$> ps = descriptor <$> sort_by PPS.less input
      ∧ Forall (λ p, Z.of_nat (length (intervals_of (pid p) g)) = burst p) ps).
Proof.
  intros Hvalid Hfit Hq.
  destruct (exact_counts input quantum Hvalid Hq) as [Hrr Hpps].
  split; [by apply rr_lift|by apply pps_lift].
Qed.

Lemma dispatch_counts_witness :
  valid_procs load_sample ∧ fits_int load_sample ∧ 0 < 2
  ∧ (∃ fuel g ps, I32.round_robin fuel load_sample 2 = Finished (g, ps)
      ∧ descriptor <$> ps = descriptor <$> sort_by RR.less load_sample
      ∧ Forall (λ p, 2 * (Z.of_nat (length (intervals_of (pid p) g)) - 1) < burst p
                     ∧ burst p ≤ 2 * Z.of_nat (length (intervals_of (pid p) g)))
               ps)
  ∧ (∃ fuel g ps, I32.preemptive_priority fuel load_sample = Finished (g, ps)
      ∧ descriptor <$> ps = descriptor <$> sort_by PPS.less load_sample
      ∧ Forall (λ p, Z.of_nat (length (intervals_of (pid p) g)) = burst p) ps).
Proof.
  split; [exact load_sample_valid|]. split; [exact load_sample_fits|]. split; [lia|].
  apply (dispatch_counts load_sample 2);
    [exact load_sample_valid|exact load_sample_fits|lia].
Defined.

(** ** No access outside the process vector *)




(** ** Runs that fit *)

(** X18. On every valid process set whose latest arrival and bursts
    together do not exceed the largest [int], and with a positive quantum,
    no sum or difference of a run leaves the range of [int]: the engines
    over [int] return, for every amount of fuel, what the engines over the
    integers return. *)
Theorem int_engines_agree (input : list Process) (quantum : Z) :
  valid_procs input → fits_int input → 0 < quantum →
  ∀ fuel, I32.round_robin fuel input quantum = round_robin fuel input quantum
          ∧ I32.preemptive_priority fuel input = preemptive_priority fuel input.
Proof.
  intros Hvalid Hfit Hq fuel. split; [by apply rr_transfer|by apply pps_transfer].
Qed.

Lemma int_engines_agree_witness :
  valid_procs load_sample ∧ fits_int load_sample ∧ 0 < 2
  ∧ ∀ fuel, I32.round_robin fuel load_sample 2 = round_robin fuel load_sample 2
            ∧ I32.preemptive_priority fuel load_sample
              = preemptive_priority fuel load_sample.
Proof.
  split; [exact load_sample_valid|]. split; [exact load_sample_fits|]. split; [lia|].
  apply (int_engines_agree load_sample 2);
    [exact load_sample_valid|exact load_sample_fits|lia].
Defined.

(** The ticks and timing fields of a run that fits. *)
Lemma fit_run_ranges (input sorted : list Process) g ps :
  valid_procs input → sorted ≡ₚ input →
  good_run input sorted g ps →
  tracked_run (fresh_procs input) (max_arrival input) g ps →
  makespan g ≤ I32.INT_MAX →
  Forall (λ e, 0 ≤ g_start e ∧ g_start e < g_end e ∧ g_end e ≤ I32.INT_MAX) g
  ∧ Forall (λ p, 0 ≤ completion_time p ≤ I32.INT_MAX
                 ∧ 0 ≤ turnaround_time p ≤ I32.INT_MAX
                 ∧ 0 ≤ waiting_time p ≤ I32.INT_MAX) ps.
Proof.
  intros (_ & _ & Hv) Hperm (Hchain & Hne & _ & Hdone & Hdesc) Htr Hms.
  split.
  - pose proof (chain_positive _ _ _ Hchain) as Hpos.
    rewrite Forall_forall in Hpos. apply Forall_forall. intros e He.
    destruct (chain_entry_end _ _ _ e Hchain He). specialize (Hpos e He). lia.
  - apply Forall_lookup_2. intros i p Hp.
    destruct (Forall_lookup_1 _ _ _ _ Hdone Hp) as [Hrem (Hc & Ht & Hw)].
    assert (Hin : p ∈ ps) by (by eapply list_elem_of_lookup_2).
    destruct (tracked_row _ _ g ps p Htr Hin Hrem) as (_ & Hlast & _).
    destruct (last (intervals_of (pid p) g)) as [e|] eqn:He; [|done].
    injection Hlast as Hend.
    assert (Heg : e ∈ g).
    { apply last_Some in He as [l' He].
      assert (e ∈ intervals_of (pid p) g) as Hf
        by (rewrite He; apply elem_of_app; right; apply list_elem_of_singleton; done).
      unfold intervals_of in Hf. by apply list_elem_of_filter in Hf as [_ ?]. }
    destruct (chain_entry_end _ _ _ e Hchain Heg) as [_ Hle].
    assert (Harr : 0 ≤ arrival p ∧ 0 < burst p).
    { assert (Hd : descriptor p ∈ descriptor <$> sorted).
      { rewrite <- Hdesc. by apply list_elem_of_fmap_2. }
      apply list_elem_of_fmap in Hd as (x & Hdx & Hx).
      rewrite Hperm in Hx. rewrite Forall_forall in Hv.
      destruct (Hv x Hx) as (_ & ? & ? & _).
      injection Hdx as _ -> -> _. done. }
    lia.
Qed.

(** X19. On every valid process set whose latest arrival and bursts
    together do not exceed the largest [int], and with a positive quantum,
    every tick of the timeline and every time of the final table is an [int]
    that is not negative: every interval [s, e) has 0 <= s < e <= 2147483647,
    and completion, turnaround and waiting time of every process lie between
    0 and 2147483647. *)
Theorem fitting_run_stays_in_range (input : list Process) (quantum : Z) :
  valid_procs input → fits_int input → 0 < quantum →
  (∃ fuel g ps, I32.round_robin fuel input quantum = Finished (g, ps)
      ∧ Forall (λ e, 0 ≤ g_start e ∧ g_start e < g_end e ∧ g_end e ≤ I32.INT_MAX) g
      ∧ Forall (λ p, 0 ≤ completion_time p ≤ I32.INT_MAX
                     ∧ 0 ≤ turnaround_time p ≤ I32.INT_MAX
                     ∧ 0 ≤ waiting_time p ≤ I32.INT_MAX) ps)
  ∧ (∃ fuel g ps, I32.preemptive_priority fuel input = Finished (g, ps)
      ∧ Forall (λ e, 0 ≤ g_start e ∧ g_start e < g_end e ∧ g_end e ≤ I32.INT_MAX) g
      ∧ Forall (λ p, 0 ≤ completion_time p ≤ I32.INT_MAX
                     ∧ 0 ≤ turnaround_time p ≤ I32.INT_MAX
                     ∧ 0 ≤ waiting_time p ≤ I32.INT_MAX) ps).
Proof.
  intros Hvalid Hfit Hq. split.
  - destruct (RR_fit_run input quantum Hvalid Hfit Hq)
      as (fuel & g & ps & Hrun & Hgood & Htr & Hms & _).
    exists fuel, g, ps. split; [done|].
    apply (fit_run_ranges input (sort_by RR.less input)); try done; [|lia].
    apply sort_by_perm.
  - destruct (PPS_fit_run input Hvalid Hfit)
      as (fuel & g & ps & Hrun & Hgood & Htr & Hms & _).
    exists fuel, g, ps. split; [done|].
    apply (fit_run_ranges input (sort_by PPS.less input)); try done; [|lia].
    apply sort_by_perm.
Qed.

Lemma fitting_run_stays_in_range_witness :
  valid_procs load_sample ∧ fits_int load_sample ∧ 0 < 2
  ∧ (∃ fuel g ps, I32.round_robin fuel load_sample 2 = Finished (g, ps)
      ∧ Forall (λ e, 0 ≤ g_start e ∧ g_start e < g_end e ∧ g_end e ≤ I32.INT_MAX) g
      ∧ Forall (λ p, 0 ≤ completion_time p ≤ I32.INT_MAX
                     ∧ 0 ≤ turnaround_time p ≤ I32.INT_MAX
                     ∧ 0 ≤ waiting_time p ≤ I32.INT_MAX) ps)
  ∧ (∃ fuel g ps, I32.preemptive_priority fuel load_sample = Finished (g, ps)
      ∧ Forall (λ e, 0 ≤ g_start e ∧ g_start e < g_end e ∧ g_end e ≤ I32.INT_MAX) g
      ∧ Forall (λ p, 0 ≤ completion_time p ≤ I32.INT_MAX
                     ∧ 0 ≤ turnaround_time p ≤ I32.INT_MAX
                     ∧ 0 ≤ waiting_time p ≤ I32.INT_MAX) ps).
Proof.
  split; [exact load_sample_valid|]. split; [exact load_sample_fits|]. split; [lia|].
  apply (fitting_run_stays_in_range load_sample 2);
    [exact load_sample_valid|exact load_sample_fits|lia].
Defined.
